(** * Request governance of the stock-research dashboard

    A shallow embedding of the three services in [src/services]: the rate
    limiter (a priority queue with sliding-window, minimum-spacing and
    daily-quota admission), the cache service (a two-tier cache with
    per-category lifetimes) and the fetch path of the Alpha Vantage service,
    with the properties the design document states about them.

    Time is the millisecond value of [Date.now()], an integer.  Every
    synchronous turn of the JavaScript event loop reads the clock once; the
    readings of successive turns never decrease.  The models come first,
    the properties after them, service by service. *)

From Stdlib Require Import ZArith Lia Bool Ascii String.
From stdpp Require Import gmap strings list fin_maps sorting.

#[local] Set Warnings "-clear-no-such-hyp,-register-all".

Local Open Scope Z_scope.

(* ===================================================================== *)
(** * The rate limiter *)
(* ===================================================================== *)

Module RateLimiter.

(** ** Constants of the class *)

Definition MAX_REQUESTS_PER_MINUTE : nat := 5.
Definition INTERVAL_MS : Z := 60 * 1000.
Definition MIN_REQUEST_SPACING_MS : Z := 12500.
Definition MAX_DAILY_REQUESTS : Z := 500.

(** What an action hands back when it succeeds is opaque to the limiter. *)
Definition Value := string.

(** [status.reason] of [canMakeRequest]. *)
Inductive Reason :=
| DailyLimit                 (* 'Daily API limit reached (500 calls). ...' *)
| PerMinuteLimit             (* 'Per-minute rate limit reached (5 calls/min)' *)
| Waiting (secs : Z).        (* `Waiting ${secs}s before next call` *)

(** The errors a queued request can be rejected with. *)
Inductive Error :=
| LimitError (r : option Reason)   (* new Error(status.reason) *)
| TimeoutError                     (* 'Rate limiter timeout: ...' *)
| StorageError                     (* localStorage.setItem threw *)
| ActionError (msg : string).      (* the action's own rejection *)

Inductive Outcome :=
| Resolved (v : Value)
| Rejected (e : Error).

(** [interface QueuedRequest].  [execute] is run by the environment (its
    result arrives as an event); [resolve]/[reject] are the two capabilities
    of one promise, named here by the number of the [enqueue] call that
    created it. *)
Record QueuedRequest := {
  id : Z * Z;              (* `${Date.now()}_${Math.random()}` *)
  promise : nat;           (* resolve / reject *)
  priority : Z;
  timestamp : Z;
}.

(** The mutable fields of [class RateLimiter]. *)
Record Limiter := {
  queue : list QueuedRequest;
  isProcessing : bool;
  requestHistory : list Z;
  dailyCount : Z;
  dailyResetTime : Z;
}.

Definition with_queue (q : list QueuedRequest) (l : Limiter) : Limiter :=
  {| queue := q; isProcessing := isProcessing l;
     requestHistory := requestHistory l; dailyCount := dailyCount l;
     dailyResetTime := dailyResetTime l |}.

Definition with_isProcessing (b : bool) (l : Limiter) : Limiter :=
  {| queue := queue l; isProcessing := b;
     requestHistory := requestHistory l; dailyCount := dailyCount l;
     dailyResetTime := dailyResetTime l |}.

Definition with_requestHistory (h : list Z) (l : Limiter) : Limiter :=
  {| queue := queue l; isProcessing := isProcessing l;
     requestHistory := h; dailyCount := dailyCount l;
     dailyResetTime := dailyResetTime l |}.

Definition with_daily (c r : Z) (l : Limiter) : Limiter :=
  {| queue := queue l; isProcessing := isProcessing l;
     requestHistory := requestHistory l; dailyCount := c;
     dailyResetTime := r |}.

(** [loadDailyCount]: the stored counter is kept only when it was written
    today. *)
Definition loadDailyCount (stored : option Z) (storedDateIsToday : bool) : Z :=
  match stored with
  | Some n => if storedDateIsToday then n else 0
  | None => 0
  end.

(** The object after its constructor ran; [nextDay] is what
    [getNextDayTimestamp()] returned. *)
Definition new (stored : option Z) (storedDateIsToday : bool) (nextDay : Z)
  : Limiter :=
  {| queue := []; isProcessing := false; requestHistory := [];
     dailyCount := loadDailyCount stored storedDateIsToday;
     dailyResetTime := nextDay |}.

(** [checkDailyReset]; [nextDay] is the value of [getNextDayTimestamp()]
    at the time of the call. *)
Definition checkDailyReset (now nextDay : Z) (l : Limiter) : Limiter :=
  if decide (dailyResetTime l <= now) then with_daily 0 nextDay l else l.

(** [requestHistory.filter(timestamp => now - timestamp < INTERVAL_MS)] *)
Definition prune (now : Z) (h : list Z) : list Z :=
  filter (λ ts, now - ts < INTERVAL_MS) h.

(** JavaScript truthiness of a number (there is no NaN among timestamps). *)
Definition truthy (z : Z) : bool := negb (z =? 0).

(** [Math.ceil(x / 1000)] *)
Definition ceil_div_1000 (x : Z) : Z := - ((- x) / 1000).

Record Status := { allowed : bool; reason : option Reason }.

(** [canMakeRequest] *)
Definition canMakeRequest (now : Z) (l : Limiter) : Status * Limiter :=
  if decide (MAX_DAILY_REQUESTS <= dailyCount l) then
    ({| allowed := false; reason := Some DailyLimit |}, l)
  else
    let l1 := with_requestHistory (prune now (requestHistory l)) l in
    if decide (MAX_REQUESTS_PER_MINUTE <= length (requestHistory l1))%nat then
      ({| allowed := false; reason := Some PerMinuteLimit |}, l1)
    else
      match last (requestHistory l1) with
      | Some lastRequest =>
          if truthy lastRequest
             && bool_decide (now - lastRequest < MIN_REQUEST_SPACING_MS)
          then ({| allowed := false;
                   reason := Some (Waiting (ceil_div_1000
                     (MIN_REQUEST_SPACING_MS - (now - lastRequest)))) |}, l1)
          else ({| allowed := true; reason := None |}, l1)
      | None => ({| allowed := true; reason := None |}, l1)
      end.

(** ** [waitUntilCanRequest], one turn at a time *)

Definition maxAttempts : nat := 120.

(** How one synchronous run of the polling loop ends. *)
Inductive WaitResult :=
| WReturn                   (* return *)
| WThrow (e : Error)        (* throw *)
| WSleep (waitTime : Z).    (* await setTimeout(waitTime) *)

(** The loop from its test [attempts < maxAttempts] up to the next
    suspension. *)
Definition waitUntilCanRequest (now : Z) (attempts : nat) (l : Limiter)
  : WaitResult * Limiter :=
  if decide (attempts < maxAttempts)%nat then
    let '(status, l1) := canMakeRequest now l in
    if allowed status then (WReturn, l1)
    else if decide (MAX_DAILY_REQUESTS <= dailyCount l1) then
      (WThrow (LimitError (reason status)), l1)
    else
      let waitTime :=
        match last (requestHistory l1) with
        | Some lastRequest =>
            if truthy lastRequest
            then Z.max (MIN_REQUEST_SPACING_MS - (now - lastRequest)) 1000
            else 1000
        | None => 1000
        end in
      (WSleep waitTime, l1)
  else (WThrow TimeoutError, l).

(** [queue.findIndex(q => q.priority < priority)], [None] for -1. *)
Fixpoint findIndex (p : Z) (q : list QueuedRequest) : option nat :=
  match q with
  | [] => None
  | r :: q' => if decide (priority r < p) then Some 0%nat
               else S <$> findIndex p q'
  end.

(** The insertion of [enqueue]: [push] or [splice(insertIndex, 0, request)]. *)
Definition insert_request (r : QueuedRequest) (q : list QueuedRequest)
  : list QueuedRequest :=
  match findIndex (priority r) q with
  | None => q ++ [r]
  | Some i => take i q ++ r :: drop i q
  end.

(** [getQueueStatus] *)
Record QueueStatus := {
  queueLength : nat;
  dailyUsed : Z;
  dailyRemaining : Z;
  recentRequests : nat;
  canMakeRequestNow : bool;
  nextResetTime : Z;
}.

Definition getQueueStatus (now : Z) (l : Limiter) : QueueStatus * Limiter :=
  let l1 := with_requestHistory (prune now (requestHistory l)) l in
  let '(status, l2) := canMakeRequest now l1 in
  ({| queueLength := length (queue l1);
      dailyUsed := dailyCount l1;
      dailyRemaining := MAX_DAILY_REQUESTS - dailyCount l1;
      recentRequests := length (requestHistory l1);
      canMakeRequestNow := allowed status;
      nextResetTime := dailyResetTime l1 |}, l2).

(** [clearQueue] *)
Definition clearQueue (l : Limiter) : Limiter := with_queue [] l.

(** ** The event loop around the object

    [processQueue] is an [async] function: an invocation runs until its next
    [await] and is resumed by a later turn of the event loop.  [Suspended]
    says where an invocation waits and which request it holds. *)

Inductive Suspended :=
| AwaitReturned (r : QueuedRequest)
    (* waitUntilCanRequest() returned; the await has not resumed yet *)
| AwaitThrown (r : QueuedRequest) (e : Error)
    (* waitUntilCanRequest() threw; the catch has not run yet *)
| AwaitTimer (r : QueuedRequest) (attempts : nat) (wakeAt : Z)
    (* inside waitUntilCanRequest, in setTimeout(resolve, waitTime) *)
| AwaitExecute (r : QueuedRequest).
    (* await request.execute() *)

Definition held (s : Suspended) : QueuedRequest :=
  match s with
  | AwaitReturned r | AwaitThrown r _ | AwaitTimer r _ _ | AwaitExecute r => r
  end.

(** The limiter object, the clock, the suspended invocations of
    [processQueue], and a record of what has happened so far: the number of
    [enqueue] calls, the requests in the order [queue.shift()] returned them,
    the timestamps pushed on [requestHistory] with the request they were
    pushed for, the promises settled, and the requests [clearQueue] threw
    away. *)
Record Runtime := {
  this : Limiter;
  clock : Z;
  drains : list Suspended;
  enqueued : nat;
  dequeued : list QueuedRequest;
  recorded : list (Z * QueuedRequest);
  settled : list (nat * Outcome);
  cleared : list QueuedRequest;
}.

Definition with_this (l : Limiter) (w : Runtime) : Runtime :=
  {| this := l; clock := clock w; drains := drains w; enqueued := enqueued w;
     dequeued := dequeued w; recorded := recorded w; settled := settled w;
     cleared := cleared w |}.

Definition with_clock (t : Z) (w : Runtime) : Runtime :=
  {| this := this w; clock := t; drains := drains w; enqueued := enqueued w;
     dequeued := dequeued w; recorded := recorded w; settled := settled w;
     cleared := cleared w |}.

Definition with_drains (d : list Suspended) (w : Runtime) : Runtime :=
  {| this := this w; clock := clock w; drains := d; enqueued := enqueued w;
     dequeued := dequeued w; recorded := recorded w; settled := settled w;
     cleared := cleared w |}.

Definition count_enqueue (w : Runtime) : Runtime :=
  {| this := this w; clock := clock w; drains := drains w;
     enqueued := S (enqueued w);
     dequeued := dequeued w; recorded := recorded w; settled := settled w;
     cleared := cleared w |}.

Definition log_dequeued (r : QueuedRequest) (w : Runtime) : Runtime :=
  {| this := this w; clock := clock w; drains := drains w; enqueued := enqueued w;
     dequeued := dequeued w ++ [r]; recorded := recorded w;
     settled := settled w; cleared := cleared w |}.

Definition log_recorded (t : Z) (r : QueuedRequest) (w : Runtime) : Runtime :=
  {| this := this w; clock := clock w; drains := drains w; enqueued := enqueued w;
     dequeued := dequeued w; recorded := recorded w ++ [(t, r)];
     settled := settled w; cleared := cleared w |}.

Definition log_settled (r : QueuedRequest) (o : Outcome) (w : Runtime) : Runtime :=
  {| this := this w; clock := clock w; drains := drains w; enqueued := enqueued w;
     dequeued := dequeued w; recorded := recorded w;
     settled := settled w ++ [(promise r, o)]; cleared := cleared w |}.

Definition log_cleared (q : list QueuedRequest) (w : Runtime) : Runtime :=
  {| this := this w; clock := clock w; drains := drains w; enqueued := enqueued w;
     dequeued := dequeued w; recorded := recorded w; settled := settled w;
     cleared := cleared w ++ q |}.

Definition suspend (r : QueuedRequest) (attempts : nat) (now : Z)
    (res : WaitResult) : Suspended :=
  match res with
  | WReturn => AwaitReturned r
  | WThrow e => AwaitThrown r e
  | WSleep waitTime => AwaitTimer r attempts (now + waitTime)
  end.

(** [processQueue] from the test of [while (this.queue.length > 0)] to the
    next suspension, or to [this.isProcessing = false] and the end of the
    invocation ([None]). *)
Definition loop (now : Z) (w : Runtime) : option Suspended * Runtime :=
  match queue (this w) with
  | [] => (None, with_this (with_isProcessing false (this w)) w)
  | request :: rest =>
      let '(res, l) := waitUntilCanRequest now 0 (with_queue rest (this w)) in
      (Some (suspend request 0 now res), log_dequeued request (with_this l w))
  end.

(** Invocation [i] goes round its loop once more. *)
Definition continue (i : nat) (now : Z) (w : Runtime) : Runtime :=
  let '(s, w1) := loop now w in
  match s with
  | Some s' => with_drains (<[i := s']> (drains w1)) w1
  | None => with_drains (delete i (drains w1)) w1
  end.

(** A call of [processQueue]: the guard, the flag, and the first run of the
    loop. *)
Definition processQueue (now : Z) (w : Runtime) : Runtime :=
  if isProcessing (this w) || bool_decide (queue (this w) = []) then w
  else
    let '(s, w1) := loop now (with_this (with_isProcessing true (this w)) w) in
    match s with
    | Some s' => with_drains (drains w1 ++ [s']) w1
    | None => w1
    end.

(** [enqueue(execute, priority)]; [rnd] is [Math.random()]. *)
Definition enqueue (now rnd prio : Z) (w : Runtime) : Runtime :=
  let request := {| id := (now, rnd); promise := enqueued w;
                    priority := prio; timestamp := now |} in
  processQueue now
    (count_enqueue
       (with_this (with_queue (insert_request request (queue (this w)))
                     (this w)) w)).

(** Lines 208-210: [requestHistory.push(now); dailyCount++]. *)
Definition record_request (now : Z) (l : Limiter) : Limiter :=
  with_daily (dailyCount l + 1) (dailyResetTime l)
    (with_requestHistory (requestHistory l ++ [now]) l).

(** What a turn of the event loop can be. *)
Inductive Event :=
| EvEnqueue (rnd : Z) (prio : Z)
    (* somebody calls enqueue *)
| EvTimer (i : nat)
    (* the setTimeout of invocation i fires *)
| EvResume (i : nat) (persisted : bool)
    (* invocation i resumes after await waitUntilCanRequest();
       persisted = false when localStorage.setItem throws *)
| EvExecuted (i : nat) (res : Value + string)
    (* the promise of request.execute() settles *)
| EvDailyTick (nextDay : Z)
    (* setInterval(() => this.checkDailyReset(), 60000) *)
| EvQueueStatus
    (* getQueueStatus() *)
| EvClearQueue.
    (* clearQueue() *)

Definition outcome_of (res : Value + string) : Outcome :=
  match res with
  | inl v => Resolved v
  | inr msg => Rejected (ActionError msg)
  end.

(** One turn at clock reading [now]; [None] when the turn cannot happen
    (the clock would run backwards, or invocation [i] does not wait for
    this). *)
Definition step (now : Z) (ev : Event) (w0 : Runtime) : option Runtime :=
  if decide (now < clock w0) then None else
  let w := with_clock now w0 in
  match ev with
  | EvEnqueue rnd prio => Some (enqueue now rnd prio w)
  | EvTimer i =>
      match drains w !! i with
      | Some (AwaitTimer r attempts wakeAt) =>
          if decide (now < wakeAt) then None else
          let '(res, l) := waitUntilCanRequest now (S attempts) (this w) in
          Some (with_drains (<[i := suspend r (S attempts) now res]> (drains w))
                  (with_this l w))
      | _ => None
      end
  | EvResume i persisted =>
      match drains w !! i with
      | Some (AwaitReturned r) =>
          let w1 := log_recorded now r
                      (with_this (record_request now (this w)) w) in
          if persisted
          then Some (with_drains (<[i := AwaitExecute r]> (drains w1)) w1)
          else Some (continue i now (log_settled r (Rejected StorageError) w1))
      | Some (AwaitThrown r e) =>
          Some (continue i now (log_settled r (Rejected e) w))
      | _ => None
      end
  | EvExecuted i res =>
      match drains w !! i with
      | Some (AwaitExecute r) =>
          Some (continue i now (log_settled r (outcome_of res) w))
      | _ => None
      end
  | EvDailyTick nextDay =>
      Some (with_this (checkDailyReset now nextDay (this w)) w)
  | EvQueueStatus =>
      Some (with_this (snd (getQueueStatus now (this w))) w)
  | EvClearQueue =>
      Some (log_cleared (queue (this w)) (with_this (clearQueue (this w)) w))
  end.

(** A run: turns with their clock readings, oldest first. *)
Fixpoint run (evs : list (Z * Event)) (w : Runtime) : option Runtime :=
  match evs with
  | [] => Some w
  | (now, ev) :: evs' =>
      match step now ev w with
      | Some w' => run evs' w'
      | None => None
      end
  end.

(** The page right after [new RateLimiter()] ran at time [t0]. *)
Definition boot (t0 : Z) (stored : option Z) (storedDateIsToday : bool)
    (nextDay : Z) : Runtime :=
  {| this := new stored storedDateIsToday nextDay; clock := t0;
     drains := []; enqueued := 0; dequeued := []; recorded := [];
     settled := []; cleared := [] |}.

(** The states the page can be in. *)
Inductive reachable : Runtime → Prop :=
| reachable_boot t0 stored today nextDay :
    reachable (boot t0 stored today nextDay)
| reachable_step w now ev w' :
    reachable w → step now ev w = Some w' → reachable w'.

End RateLimiter.

(* ===================================================================== *)
(** * JSON values *)
(* ===================================================================== *)

Module Json.

(** What [response.json()] and [JSON.parse] produce.  An object is the list
    of its own properties, each key once. *)
Inductive json :=
| JNull
| JBool (b : bool)
| JNum (n : Z)            (* of a number only being zero or not is used *)
| JStr (s : string)
| JArr (items : list json)
| JObj (fields : list (string * json)).

(** JavaScript truthiness: [null], [false], [0] and [""] are falsy, every
    array and object is truthy. *)
Definition truthy (j : json) : bool :=
  match j with
  | JNull => false
  | JBool b => b
  | JNum n => negb (n =? 0)
  | JStr s => negb (String.eqb s "")
  | JArr _ | JObj _ => true
  end.

Fixpoint field (key : string) (fields : list (string * json)) : option json :=
  match fields with
  | [] => None
  | (k, v) :: rest => if String.eqb k key then Some v else field key rest
  end.

(** The result of reading [j[key]]. *)
Inductive Access :=
| Throws                 (* TypeError: cannot read properties of null *)
| Undefined
| Value (v : json).

(** [j[key]] for the keys the service reads ('Error Message', 'Note',
    'Information', 'Global Quote', '01. symbol'), none of which is a
    property of a string, number, boolean or array. *)
Definition get_prop (j : json) (key : string) : Access :=
  match j with
  | JNull => Throws
  | JObj fields =>
      match field key fields with
      | Some v => Value v
      | None => Undefined
      end
  | _ => Undefined
  end.

(** Truthiness of what a property read gave; [undefined] is falsy. *)
Definition truthy_access (a : Access) : bool :=
  match a with
  | Value v => truthy v
  | _ => false
  end.

End Json.

(* ===================================================================== *)
(** * The cache service *)
(* ===================================================================== *)

Module CacheService.
Import Json.

Inductive CacheType := QUOTE | DAILY_PRICES | OVERVIEW | FINANCIALS.

Definition CACHE_DURATIONS (type : CacheType) : Z :=
  match type with
  | QUOTE => 60 * 1000
  | DAILY_PRICES => 60 * 60 * 1000
  | OVERVIEW => 24 * 60 * 60 * 1000
  | FINANCIALS => 24 * 60 * 60 * 1000
  end.

(** [interface CacheEntry<T>] *)
Record CacheEntry := {
  data : json;
  timestamp : Z;
  expiresAt : Z;
}.

(** An item of [localStorage]: the [JSON.stringify] of an entry, which
    [JSON.parse] gives back, or some other string.  Under a key of the cache
    another string is one that is empty or that [JSON.parse] rejects; the
    items of the rate limiter ('av_daily_count', 'av_daily_date') live under
    keys the cache never reads. *)
Inductive Item :=
| Serialized (entry : CacheEntry)
| Raw (text : string).

(** [memoryCache] and the browser's [localStorage]. *)
Record Cache := {
  memoryCache : gmap string CacheEntry;
  localStorage : gmap string Item;
}.

Definition PREFIX : string := "av_cache_".

(** [getStorageKey] *)
Definition getStorageKey (key : string) : string := PREFIX +:+ key.

(** [s.startsWith(p)] *)
Definition startsWith (s p : string) : bool := String.prefix p s.

(** [s.includes(sub)] *)
Fixpoint includes (s sub : string) : bool :=
  String.prefix sub s ||
  match s with
  | EmptyString => false
  | String _ s' => includes s' sub
  end.

(** [s.replace(pat, rep)] for a string pattern: the first occurrence. *)
Fixpoint replace (pat rep s : string) : string :=
  if String.prefix pat s
  then rep +:+ String.substring (String.length pat)
                 (String.length s - String.length pat) s
  else match s with
       | EmptyString => EmptyString
       | String c s' => String c (replace pat rep s')
       end.

(** [delete] *)
Definition delete (key : string) (c : Cache) : Cache :=
  {| memoryCache := base.delete key (memoryCache c);
     localStorage := base.delete (getStorageKey key) (localStorage c) |}.

(** The test of [cleanOldEntries]: the item is removed when it is under a
    cache key and is an expired entry or a string that does not parse. *)
Definition stale (now : Z) (key : string) (item : Item) : bool :=
  startsWith key PREFIX &&
  match item with
  | Serialized entry => bool_decide (expiresAt entry < now)
  | Raw text => negb (String.eqb text "")
  end.

(** [cleanOldEntries] *)
Definition cleanOldEntries (now : Z) (c : Cache) : Cache :=
  {| memoryCache := memoryCache c;
     localStorage :=
       filter (λ kv, stale now kv.1 kv.2 = false) (localStorage c) |}.

(** [set]; [stored] is false when [localStorage.setItem] throws. *)
Definition set (now : Z) (key : string) (d : json) (type : CacheType)
    (stored : bool) (c : Cache) : Cache :=
  let duration := CACHE_DURATIONS type in
  let entry := {| data := d; timestamp := now; expiresAt := now + duration |} in
  let c1 := {| memoryCache := <[key := entry]> (memoryCache c);
               localStorage := localStorage c |} in
  if stored
  then {| memoryCache := memoryCache c1;
          localStorage :=
            <[getStorageKey key := Serialized entry]> (localStorage c1) |}
  else cleanOldEntries now c1.

(** [get]; the result is [JNull] for [null]. *)
Definition get (now : Z) (key : string) (c : Cache) : json * Cache :=
  let found :=
    match memoryCache c !! key with
    | Some entry => Some (Some entry, c)
    | None =>
        match localStorage c !! getStorageKey key with
        | Some (Serialized entry) =>
            Some (Some entry,
                  {| memoryCache := <[key := entry]> (memoryCache c);
                     localStorage := localStorage c |})
        | Some (Raw _) => None          (* falsy, or the catch: return null *)
        | None => Some (None, c)
        end
    end in
  match found with
  | None => (JNull, c)
  | Some (None, c1) => (JNull, c1)
  | Some (Some entry, c1) =>
      if decide (expiresAt entry < now) then (JNull, delete key c1)
      else (data entry, c1)
  end.

(** [has] *)
Definition has (now : Z) (key : string) (c : Cache) : bool * Cache :=
  let '(d, c1) := get now key c in
  (match d with JNull => false | _ => true end, c1).

(** [clear] *)
Definition clear (c : Cache) : Cache :=
  {| memoryCache := ∅;
     localStorage :=
       filter (λ kv, startsWith kv.1 PREFIX = false) (localStorage c) |}.

(** The keys of a map, standing for [Map.forEach] and [Object.keys]; the
    order does not matter to what is deleted. *)
Definition keys {V} (m : gmap string V) : list string := (map_to_list m).*1.

(** [invalidateSymbol] *)
Definition invalidateSymbol (symbol : string) (c : Cache) : Cache :=
  let fromMemory := filter (λ key, includes key symbol = true)
                      (keys (memoryCache c)) in
  let fromStorage :=
    (replace PREFIX "")
      <$> filter (λ key, startsWith key PREFIX && includes key symbol = true)
            (keys (localStorage c)) in
  let keysToDelete := fromMemory ++ fromStorage in
  foldl (λ c' key, delete key c') c keysToDelete.

Definition empty : Cache := {| memoryCache := ∅; localStorage := ∅ |}.

(** A call of [set] or [get], for runs of the two. *)
Inductive Call :=
| CallSet (key : string) (d : json) (type : CacheType) (stored : bool)
| CallGet (key : string).

Definition call (now : Z) (op : Call) (c : Cache) : Cache :=
  match op with
  | CallSet key d type stored => set now key d type stored c
  | CallGet key => (get now key c).2
  end.

(** The calls with their clock readings, oldest first. *)
Definition calls (ops : list (Z * Call)) (c : Cache) : Cache :=
  foldl (λ c' op, call op.1 op.2 c') c ops.

(** The entry the latest [set] of [key] among [ops] wrote. *)
Fixpoint lastSet (key : string) (ops : list (Z * Call)) (acc : option CacheEntry)
  : option CacheEntry :=
  match ops with
  | [] => acc
  | (now, CallSet key' d type _) :: rest =>
      if String.eqb key' key
      then lastSet key rest
             (Some {| data := d; timestamp := now;
                      expiresAt := now + CACHE_DURATIONS type |})
      else lastSet key rest acc
  | (_, CallGet _) :: rest => lastSet key rest acc
  end.

(** The object of a freshly loaded page: [memoryCache = new Map()] over
    what the browser kept in [localStorage]. *)
Definition new (storage : gmap string Item) : Cache :=
  {| memoryCache := ∅; localStorage := storage |}.

(** [getCacheDuration] *)
Definition getCacheDuration (type : CacheType) : Z := CACHE_DURATIONS type.

(** [getStats] *)
Record Stats := {
  memoryEntries : nat;
  localStorageEntries : nat;
  totalEntries : nat;
}.

Definition getStats (c : Cache) : Stats :=
  let localStorageKeys :=
    filter (λ key, startsWith key PREFIX = true) (keys (localStorage c)) in
  {| memoryEntries := size (memoryCache c);
     localStorageEntries := length localStorageKeys;
     totalEntries := length localStorageKeys |}.

(** A call of a public method of the service. *)
Inductive Method :=
| MSet (key : string) (d : json) (type : CacheType) (stored : bool)
| MGet (key : string)
| MHas (key : string)
| MDelete (key : string)
| MClear
| MInvalidateSymbol (symbol : string).

Definition invoke (now : Z) (m : Method) (c : Cache) : Cache :=
  match m with
  | MSet key d type stored => set now key d type stored c
  | MGet key => (get now key c).2
  | MHas key => (has now key c).2
  | MDelete key => delete key c
  | MClear => clear c
  | MInvalidateSymbol symbol => invalidateSymbol symbol c
  end.

(** The calls of a page, with their clock readings, oldest first. *)
Definition session (ms : list (Z * Method)) (c : Cache) : Cache :=
  foldl (λ c' m, invoke m.1 m.2 c') c ms.

(** [localStorage.setItem] did not throw in this call. *)
Definition persisted (m : Method) : bool :=
  match m with
  | MSet _ _ _ stored => stored
  | _ => true
  end.

End CacheService.

(* ===================================================================== *)
(** * The Alpha Vantage service *)
(* ===================================================================== *)

Module AlphaVantageService.
Import Json CacheService.

(** What [fetch] resolves to, as far as the service looks at it; [body] is
    [None] when [response.json()] rejects. *)
Record Response := {
  ok : bool;
  statusText : string;
  body : option json;
}.

(** The errors a call of the service can be rejected with. *)
Inductive FetchError :=
| TransportError                     (* fetch itself rejected *)
| HttpError (statusText : string)    (* `Alpha Vantage API error: ...` *)
| MalformedBody                      (* response.json() rejected *)
| TypeError                          (* a property of null was read *)
| InvalidSymbol (message : json)     (* `Invalid symbol or API error: ...` *)
| RateLimitExceeded (note : json)    (* 'API rate limit exceeded: ...' *)
| LimitReached (information : json)  (* 'API limit reached: ...' *)
| NoQuoteData (symbol : string)      (* `No quote data available for ...` *)
| LimiterError (e : RateLimiter.Error).  (* the rate limiter rejected *)

(** The test [if (json[key]) throw ...] followed by the rest. *)
Definition unless (j : json) (key : string) (err : json → FetchError)
    (rest : FetchError + json) : FetchError + json :=
  match get_prop j key with
  | Throws => inl TypeError
  | Undefined => rest
  | Value v => if truthy v then inl (err v) else rest
  end.

(** The closure handed to [rateLimiter.enqueue], from the response of
    [fetch] on ([None] when [fetch] rejects). *)
Definition action (fetched : option Response) : FetchError + json :=
  match fetched with
  | None => inl TransportError
  | Some response =>
      if negb (ok response) then inl (HttpError (statusText response))
      else
        match body response with
        | None => inl MalformedBody
        | Some j =>
            unless j "Error Message" InvalidSymbol
              (unless j "Note" RateLimitExceeded
                 (unless j "Information" LimitReached
                    (inr j)))
        end
  end.

(** What [rateLimiter.enqueue] did with the closure: rejected the request
    without running it, or ran it on what [fetch] gave. *)
Inductive Enqueued :=
| Refused (e : RateLimiter.Error)
| Ran (fetched : option Response).

(** The result of a call, the cache after it, and whether
    [rateLimiter.enqueue] was called. *)
Record Fetched := {
  result : FetchError + json;
  cache : Cache;
  queued : bool;
}.

(** [fetchWithRateLimit]: [t_get] is the clock at the cache lookup, [t_set]
    at the write after the call returned, [stored] whether
    [localStorage.setItem] succeeds then. *)
Definition fetchWithRateLimit (t_get t_set : Z) (stored : bool)
    (cacheKey : string) (cacheType : CacheType) (e : Enqueued) (c : Cache)
  : Fetched :=
  let '(cached, c1) := get t_get cacheKey c in
  if truthy cached then {| result := inr cached; cache := c1; queued := false |}
  else
    match e with
    | Refused err =>
        {| result := inl (LimiterError err); cache := c1; queued := true |}
    | Ran fetched =>
        match action fetched with
        | inl err => {| result := inl err; cache := c1; queued := true |}
        | inr d =>
            {| result := inr d;
               cache := set t_set cacheKey d cacheType stored c1;
               queued := true |}
        end
    end.

(** [c.toUpperCase()] on ASCII: the letters a to z are mapped, every other
    character is left as it is.  On a string written in ASCII this is the
    upper-casing of the code; the code also maps letters outside ASCII. *)
Definition upper (c : ascii) : ascii :=
  let n := nat_of_ascii c in
  if (97 <=? n)%nat && (n <=? 122)%nat then ascii_of_nat (n - 32) else c.

Fixpoint toUpperCase (s : string) : string :=
  match s with
  | EmptyString => EmptyString
  | String c s' => String (upper c) (toUpperCase s')
  end.

Definition quoteKey (symbol : string) : string :=
  "quote_" +:+ toUpperCase symbol.

(** The test of [getQuote] on the response: the ['Global Quote'] object when
    it is there with a truthy ['01. symbol']. *)
Definition quoteOf (symbol : string) (response : json) : FetchError + json :=
  match get_prop response "Global Quote" with
  | Throws => inl TypeError
  | Undefined => inl (NoQuoteData symbol)
  | Value quote =>
      if negb (truthy quote) then inl (NoQuoteData symbol)
      else if truthy_access (get_prop quote "01. symbol") then inr quote
      else inl (NoQuoteData symbol)
  end.

(** [getQuote], up to the conversion of the fields of the quote into
    numbers: the result carries the ['Global Quote'] object the
    [StockQuote] is read from. *)
Definition getQuote (t_get t_set : Z) (stored : bool) (symbol : string)
    (e : Enqueued) (c : Cache) : Fetched :=
  let f := fetchWithRateLimit t_get t_set stored (quoteKey symbol) QUOTE e c in
  match result f with
  | inl err => f
  | inr response =>
      {| result := quoteOf symbol response; cache := cache f;
         queued := queued f |}
  end.

(** [refreshSymbol] *)
Definition refreshSymbol (symbol : string) (c : Cache) : Cache :=
  invalidateSymbol (toUpperCase symbol) c.

(** [c.toLowerCase()] on ASCII. *)
Definition lower (c : ascii) : ascii :=
  let n := nat_of_ascii c in
  if (65 <=? n)%nat && (n <=? 90)%nat then ascii_of_nat (n + 32) else c.

Fixpoint toLowerCase (s : string) : string :=
  match s with
  | EmptyString => EmptyString
  | String c s' => String (lower c) (toLowerCase s')
  end.

(** The parameter [outputsize] of [getDailyTimeSeries]. *)
Inductive OutputSize := compact | full.

Definition outputsize_text (outputsize : OutputSize) : string :=
  match outputsize with
  | compact => "compact"
  | full => "full"
  end.

(** The cache keys of the other calls. *)
Definition dailyKey (symbol : string) (outputsize : OutputSize) : string :=
  "daily_" +:+ toUpperCase symbol +:+ "_" +:+ outputsize_text outputsize.

Definition overviewKey (symbol : string) : string :=
  "overview_" +:+ toUpperCase symbol.

Definition incomeKey (symbol : string) : string :=
  "income_" +:+ toUpperCase symbol.

Definition searchKey (keywords : string) : string :=
  "search_" +:+ toLowerCase keywords.

(** [getCompanyOverview]: the body is handed back as it came. *)
Definition getCompanyOverview (t_get t_set : Z) (stored : bool)
    (symbol : string) (e : Enqueued) (c : Cache) : Fetched :=
  fetchWithRateLimit t_get t_set stored (overviewKey symbol) OVERVIEW e c.

(** [getIncomeStatement] *)
Definition getIncomeStatement (t_get t_set : Z) (stored : bool)
    (symbol : string) (e : Enqueued) (c : Cache) : Fetched :=
  fetchWithRateLimit t_get t_set stored (incomeKey symbol) FINANCIALS e c.

(** [response['bestMatches'] || []] *)
Definition matchesOf (response : json) : FetchError + json :=
  match get_prop response "bestMatches" with
  | Throws => inl TypeError
  | Undefined => inr (JArr [])
  | Value v => inr (if truthy v then v else JArr [])
  end.

(** [searchSymbols] *)
Definition searchSymbols (t_get t_set : Z) (stored : bool)
    (keywords : string) (e : Enqueued) (c : Cache) : Fetched :=
  let f := fetchWithRateLimit t_get t_set stored (searchKey keywords) OVERVIEW
             e c in
  match result f with
  | inl err => f
  | inr response =>
      {| result := matchesOf response; cache := cache f; queued := queued f |}
  end.

(** The errors of [getDailyTimeSeries]: those of the fetch, and its own. *)
Inductive SeriesError :=
| Fetch (err : FetchError)
| SeriesTypeError                      (* a property of null was read *)
| NoTimeSeriesData (symbol : string).  (* `No time series data available ...` *)

(** The test of [getDailyTimeSeries] on the response. *)
Definition seriesOf (symbol : string) (response : json) : SeriesError + json :=
  match get_prop response "Time Series (Daily)" with
  | Throws => inl SeriesTypeError
  | Undefined => inl (NoTimeSeriesData symbol)
  | Value timeSeries =>
      if truthy timeSeries then inr timeSeries
      else inl (NoTimeSeriesData symbol)
  end.

Definition is_null (j : json) : bool :=
  match j with
  | JNull => true
  | _ => false
  end.

(** The conversion maps over [Object.entries(timeSeries)] and reads five
    fields of every value.  [parseFloat] and [parseInt] take whatever they
    are given, but reading a field of [null] throws. *)
Definition series_converts (timeSeries : json) : bool :=
  match timeSeries with
  | JObj fields => forallb (λ kv : string * json, negb (is_null kv.2)) fields
  | JArr items => forallb (λ v, negb (is_null v)) items
  | _ => true
  end.

(** [getDailyTimeSeries], up to the numbers of the [StockPrice] records:
    the result carries the ['Time Series (Daily)'] object they are read
    from, beside what the fetch did. *)
Definition getDailyTimeSeries (t_get t_set : Z) (stored : bool)
    (symbol : string) (outputsize : OutputSize) (e : Enqueued) (c : Cache)
  : (SeriesError + json) * Fetched :=
  let f := fetchWithRateLimit t_get t_set stored (dailyKey symbol outputsize)
             DAILY_PRICES e c in
  (match result f with
   | inl err => inl (Fetch err)
   | inr response =>
       match seriesOf symbol response with
       | inl err => inl err
       | inr timeSeries =>
           if series_converts timeSeries then inr timeSeries
           else inl SeriesTypeError
       end
   end, f).

(** The string is written in ASCII, where [toUpperCase] and [toLowerCase]
    are those of the code. *)
Fixpoint ascii_only (s : string) : bool :=
  match s with
  | EmptyString => true
  | String c s' => (nat_of_ascii c <? 128)%nat && ascii_only s'
  end.

(** ** [batchGetQuotes]

    [getQuote], after its test, builds the [StockQuote] from ten fields of
    the quote.  [parseFloat] and [parseInt] take whatever they are given,
    but [quote['10. change percent'].replace('%', '')] throws a TypeError
    unless that field is a string; [batchGetQuotes] skips the symbol
    then. *)
Definition converts (quote : json) : bool :=
  match get_prop quote "10. change percent" with
  | Value (JStr _) => true
  | _ => false
  end.

(** The quote [getQuote] resolves with on [response], if it does; the
    [StockQuote] is given by the quote object it is built from. *)
Definition accepted (symbol : string) (response : json) : option json :=
  match quoteOf symbol response with
  | inr quote => if converts quote then Some quote else None
  | inl _ => None
  end.

(** [results[symbol.toUpperCase()] = quote], or the [catch]. *)
Definition assign (symbol : string) (response : json)
    (results : gmap string json) : gmap string json :=
  match accepted symbol response with
  | Some quote => <[toUpperCase symbol := quote]> results
  | None => results
  end.

(** The turn of the call.  [symbols.map] starts one [getQuote] per symbol,
    and each runs up to its first suspension: it looks its key up in the
    cache and, on a miss, hands its request to [rateLimiter.enqueue].  The
    list gives, per symbol, the body found in the cache ([None] on a
    miss). *)
Fixpoint lookups (t_get : Z) (symbols : list string) (c : Cache)
  : list (string * option json) * Cache :=
  match symbols with
  | [] => ([], c)
  | symbol :: rest =>
      let '(cached, c1) := get t_get (quoteKey symbol) c in
      let '(found, c2) := lookups t_get rest c1 in
      ((symbol, if truthy cached then Some cached else None) :: found, c2)
  end.

(** What became of a queued call: what [rateLimiter.enqueue] did, and the
    clock and the fate of [localStorage.setItem] at the cache write that
    follows a body. *)
Record Reply := {
  outcome : Enqueued;
  t_write : Z;
  write_stored : bool;
}.

(** The queued calls settle one by one.  They have the same priority, so
    the limiter takes them in the order they were queued; [replies] lists
    what became of them in that order.  [None]: a call is never settled,
    and [Promise.allSettled] never resolves. *)
Fixpoint settle (misses : list string) (replies : list Reply)
    (results : gmap string json) (c : Cache)
  : option (gmap string json * Cache) :=
  match misses with
  | [] => Some (results, c)
  | symbol :: rest =>
      match replies with
      | [] => None
      | reply :: replies' =>
          match outcome reply with
          | Refused _ => settle rest replies' results c
          | Ran fetched =>
              match action fetched with
              | inl _ => settle rest replies' results c
              | inr d =>
                  settle rest replies' (assign symbol d results)
                    (set (t_write reply) (quoteKey symbol) d QUOTE
                       (write_stored reply) c)
              end
          end
      end
  end.

(** [batchGetQuotes]: the calls served from the cache assign their quote
    right after the turn of the call, the queued ones as they settle. *)
Definition batchGetQuotes (t_get : Z) (symbols : list string)
    (replies : list Reply) (c : Cache) : option (gmap string json * Cache) :=
  let '(found, c1) := lookups t_get symbols c in
  let hits :=
    foldl (λ results hit,
             match hit.2 with
             | Some cached => assign hit.1 cached results
             | None => results
             end) ∅ found in
  let misses :=
    omap (λ hit : string * option json,
            match hit.2 with
            | Some _ => None
            | None => Some hit.1
            end) found in
  settle misses replies hits c1.

End AlphaVantageService.

(* ===================================================================== *)
(** * Properties of the rate limiter *)
(* ===================================================================== *)

Module RateLimiterProofs.
Import RateLimiter.

(** ** What the admission check leaves alone, and what it establishes *)

Lemma canMakeRequest_frame now l st l' :
  canMakeRequest now l = (st, l') →
  queue l' = queue l ∧ isProcessing l' = isProcessing l ∧
  dailyCount l' = dailyCount l ∧ dailyResetTime l' = dailyResetTime l.
Proof.
  unfold canMakeRequest. intros H.
  repeat (case_decide || case_match); simplify_eq; done.
Qed.

Lemma canMakeRequest_history now l st l' :
  canMakeRequest now l = (st, l') →
  (MAX_DAILY_REQUESTS <= dailyCount l ∧ l' = l ∧
   st = {| allowed := false; reason := Some DailyLimit |}) ∨
  (dailyCount l < MAX_DAILY_REQUESTS ∧
   requestHistory l' = prune now (requestHistory l)).
Proof.
  unfold canMakeRequest. intros H.
  repeat (case_decide || case_match); simplify_eq; simpl; auto with lia.
Qed.

Lemma canMakeRequest_allowed now l st l' :
  canMakeRequest now l = (st, l') → allowed st = true →
  dailyCount l < MAX_DAILY_REQUESTS ∧
  requestHistory l' = prune now (requestHistory l) ∧
  (length (requestHistory l') < MAX_REQUESTS_PER_MINUTE)%nat ∧
  (∀ x, last (requestHistory l') = Some x → x ≠ 0 →
        x + MIN_REQUEST_SPACING_MS <= now).
Proof.
  unfold canMakeRequest. intros H Ha.
  case_decide as Hd; [by simplify_eq|].
  case_decide as Hn; [by simplify_eq|].
  simpl in *.
  destruct (last (prune now (requestHistory l))) as [z|] eqn:Hl.
  - destruct (truthy z && bool_decide (now - z < MIN_REQUEST_SPACING_MS))
      eqn:Hb; simplify_eq; simpl in *.
    split; [lia|]. split; [done|]. split; [lia|].
    intros x Hx Hnz. simplify_eq.
    apply andb_false_iff in Hb as [Hb|Hb].
    + unfold truthy in Hb. apply negb_false_iff, Z.eqb_eq in Hb. done.
    + apply bool_decide_eq_false in Hb. lia.
  - simplify_eq; simpl. split; [lia|]. split; [done|]. split; [lia|].
    intros x Hx. congruence.
Qed.

Lemma waitUntilCanRequest_frame now k l res l' :
  waitUntilCanRequest now k l = (res, l') →
  queue l' = queue l ∧ isProcessing l' = isProcessing l ∧
  dailyCount l' = dailyCount l ∧ dailyResetTime l' = dailyResetTime l.
Proof.
  unfold waitUntilCanRequest. intros H.
  case_decide; [|by simplify_eq].
  destruct (canMakeRequest now l) as [st l1] eqn:Hc.
  apply canMakeRequest_frame in Hc.
  repeat (case_decide || case_match); simplify_eq; done.
Qed.

(** The four ways a run of the polling loop can end. *)
Lemma waitUntilCanRequest_cases now k l res l' :
  waitUntilCanRequest now k l = (res, l') →
  (res = WReturn ∧ (k < maxAttempts)%nat ∧
   dailyCount l < MAX_DAILY_REQUESTS ∧
   requestHistory l' = prune now (requestHistory l) ∧
   (length (requestHistory l') < MAX_REQUESTS_PER_MINUTE)%nat ∧
   (∀ x, last (requestHistory l') = Some x → x ≠ 0 →
         x + MIN_REQUEST_SPACING_MS <= now)) ∨
  (res = WThrow (LimitError (Some DailyLimit)) ∧ (k < maxAttempts)%nat ∧
   MAX_DAILY_REQUESTS <= dailyCount l ∧ l' = l) ∨
  ((∃ waitTime, res = WSleep waitTime) ∧ (k < maxAttempts)%nat ∧
   dailyCount l < MAX_DAILY_REQUESTS ∧
   requestHistory l' = prune now (requestHistory l)) ∨
  (res = WThrow TimeoutError ∧ (maxAttempts <= k)%nat ∧ l' = l).
Proof.
  unfold waitUntilCanRequest. intros H.
  case_decide as Hk; [|simplify_eq; right; right; right; split_and!; auto with lia].
  destruct (canMakeRequest now l) as [st l1] eqn:Hc.
  destruct (allowed st) eqn:Ha.
  - simplify_eq. left. apply canMakeRequest_allowed in Hc; [|done].
    destruct Hc as (? & ? & ? & ?). done.
  - pose proof (canMakeRequest_frame _ _ _ _ Hc) as (_ & _ & Hd & _).
    apply canMakeRequest_history in Hc as [(Hq & -> & ->)|(Hq & Hh)].
    + case_decide; [|lia]. simplify_eq. right; left. done.
    + case_decide; [lia|]. simplify_eq. right; right; left.
      split_and!; eauto.
Qed.

Lemma prune_prune now h : prune now (prune now h) = prune now h.
Proof.
  unfold prune. rewrite list_filter_filter. apply list_filter_iff. tauto.
Qed.

(** What the limiter looks like when a run of the polling loop has ended
    with [res] at attempt [k]. *)
Definition wait_ok (now : Z) (k : nat) (l : Limiter) (res : WaitResult) : Prop :=
  match res with
  | WReturn =>
      (k < maxAttempts)%nat ∧ dailyCount l < MAX_DAILY_REQUESTS ∧
      requestHistory l = prune now (requestHistory l) ∧
      (length (requestHistory l) < MAX_REQUESTS_PER_MINUTE)%nat ∧
      (∀ x, last (requestHistory l) = Some x → x ≠ 0 →
            x + MIN_REQUEST_SPACING_MS <= now)
  | WThrow e =>
      (e = LimitError (Some DailyLimit) ∧ (k < maxAttempts)%nat ∧
       MAX_DAILY_REQUESTS <= dailyCount l) ∨
      (e = TimeoutError ∧ (maxAttempts <= k)%nat)
  | WSleep _ => (k < maxAttempts)%nat ∧ dailyCount l < MAX_DAILY_REQUESTS
  end.

Lemma limiter_eq (l l' : Limiter) :
  queue l' = queue l → isProcessing l' = isProcessing l →
  requestHistory l' = requestHistory l → dailyCount l' = dailyCount l →
  dailyResetTime l' = dailyResetTime l → l' = l.
Proof. destruct l, l'; simpl; congruence. Qed.

(** A run of the polling loop changes nothing or prunes the history. *)
Lemma waitUntilCanRequest_result now k l res l' :
  waitUntilCanRequest now k l = (res, l') →
  (l' = l ∨ l' = with_requestHistory (prune now (requestHistory l)) l) ∧
  wait_ok now k l' res.
Proof.
  intros H.
  pose proof (waitUntilCanRequest_frame _ _ _ _ _ H) as (Hq & Hp & Hd & Hr).
  apply waitUntilCanRequest_cases in H
    as [(-> & Hk & Hc & Hh & Hn & Hs)|[(-> & Hk & Hc & ->)
       |[([t ->] & Hk & Hc & Hh)|(-> & Hk & ->)]]]; simpl.
  - split.
    + right. apply limiter_eq; done.
    + split_and!; try done; try lia. by rewrite Hh, prune_prune.
  - split; [by left|]. left. done.
  - split.
    + right. apply limiter_eq; done.
    + split; lia.
  - split; [by left|]. right. done.
Qed.

(** ** One invocation of [processQueue] at a time *)

(** Either nothing drains, the flag is down and the queue is empty, or
    exactly one invocation is suspended and the flag is up. *)
Definition single_drain (w : Runtime) : Prop :=
  (drains w = [] ∧ isProcessing (this w) = false ∧ queue (this w) = []) ∨
  (∃ s, drains w = [s] ∧ isProcessing (this w) = true).

Lemma loop_shape now w s w1 :
  loop now w = (s, w1) →
  drains w1 = drains w ∧ clock w1 = clock w ∧ enqueued w1 = enqueued w ∧
  recorded w1 = recorded w ∧ settled w1 = settled w ∧
  cleared w1 = cleared w ∧
  dailyCount (this w1) = dailyCount (this w) ∧
  dailyResetTime (this w1) = dailyResetTime (this w) ∧
  match s with
  | None => queue (this w) = [] ∧ queue (this w1) = [] ∧
            isProcessing (this w1) = false ∧ dequeued w1 = dequeued w ∧
            requestHistory (this w1) = requestHistory (this w)
  | Some s' =>
      ∃ res l, queue (this w) = held s' :: queue (this w1) ∧
        waitUntilCanRequest now 0 (with_queue (queue (this w1)) (this w))
          = (res, l) ∧
        s' = suspend (held s') 0 now res ∧
        this w1 = l ∧
        isProcessing (this w1) = isProcessing (this w) ∧
        dequeued w1 = dequeued w ++ [held s']
  end.
Proof.
  unfold loop. intros H.
  destruct (queue (this w)) as [|r rest] eqn:Hq.
  - simplify_eq. simpl. by rewrite Hq.
  - destruct (waitUntilCanRequest now 0 (with_queue rest (this w)))
      as [res l] eqn:Hw.
    pose proof (waitUntilCanRequest_frame _ _ _ _ _ Hw) as (Hf1 & Hf2 & Hf3 & Hf4).
    simplify_eq. simpl in *.
    split_and!; try done.
    assert (held (suspend r 0 now res) = r) as Hh by (by destruct res).
    exists res, l. rewrite Hh, Hf1. done.
Qed.

Lemma continue_shape now w s0 :
  drains w = [s0] →
  let w1 := continue 0 now w in
  clock w1 = clock w ∧ enqueued w1 = enqueued w ∧
  recorded w1 = recorded w ∧ settled w1 = settled w ∧
  cleared w1 = cleared w ∧
  dailyCount (this w1) = dailyCount (this w) ∧
  dailyResetTime (this w1) = dailyResetTime (this w) ∧
  ((queue (this w) = [] ∧ drains w1 = [] ∧ queue (this w1) = [] ∧
    isProcessing (this w1) = false ∧ dequeued w1 = dequeued w ∧
    requestHistory (this w1) = requestHistory (this w)) ∨
   (∃ r res, queue (this w) = r :: queue (this w1) ∧
      waitUntilCanRequest now 0 (with_queue (queue (this w1)) (this w))
        = (res, this w1) ∧
      drains w1 = [suspend r 0 now res] ∧
      isProcessing (this w1) = isProcessing (this w) ∧
      dequeued w1 = dequeued w ++ [r])).
Proof.
  intros Hd. unfold continue.
  destruct (loop now w) as [s w1] eqn:Hl.
  apply loop_shape in Hl as (Hdr & ? & ? & ? & ? & ? & ? & ? & Hs).
  destruct s as [s'|]; simpl.
  - destruct Hs as (res & l & Hq & Hw & Hs & Hl & Hp & Hdq).
    split_and!; try done. right. exists (held s'), res.
    subst l. rewrite Hdr, Hd. simpl. rewrite <- Hs. done.
  - destruct Hs as (? & ? & ? & ? & ?).
    split_and!; try done. left. rewrite Hdr, Hd. done.
Qed.

Lemma lookup_single {A} (s x : A) (i : nat) :
  [s] !! i = Some x → i = 0%nat ∧ x = s.
Proof. intros H. apply list_lookup_singleton_Some in H. naive_solver. Qed.

(** What [enqueue] does, by whether an invocation is running. *)
Lemma enqueue_shape now rnd prio w :
  let r := {| id := (now, rnd); promise := enqueued w;
              priority := prio; timestamp := now |} in
  let w1 := enqueue now rnd prio w in
  clock w1 = clock w ∧ enqueued w1 = S (enqueued w) ∧
  recorded w1 = recorded w ∧ settled w1 = settled w ∧
  cleared w1 = cleared w ∧
  dailyCount (this w1) = dailyCount (this w) ∧
  dailyResetTime (this w1) = dailyResetTime (this w) ∧
  ((isProcessing (this w) = true ∧ drains w1 = drains w ∧
    this w1 = with_queue (insert_request r (queue (this w))) (this w) ∧
    dequeued w1 = dequeued w) ∨
   (isProcessing (this w) = false ∧
    ∃ r' res, insert_request r (queue (this w)) = r' :: queue (this w1) ∧
      waitUntilCanRequest now 0
        (with_queue (queue (this w1)) (with_isProcessing true (this w)))
        = (res, this w1) ∧
      drains w1 = drains w ++ [suspend r' 0 now res] ∧
      isProcessing (this w1) = true ∧
      dequeued w1 = dequeued w ++ [r'])).
Proof.
  intros r. unfold enqueue, processQueue. fold r. simpl.
  destruct (isProcessing (this w)) eqn:Hp; simpl.
  { split_and!; try done. left. done. }
  assert (insert_request r (queue (this w)) ≠ []) as Hne.
  { unfold insert_request. destruct (findIndex _ _); [|by destruct (queue (this w))].
    intros Heq. apply app_eq_nil in Heq as [_ ?]. done. }
  rewrite bool_decide_eq_false_2 by done.
  match goal with |- context [loop now ?w0] =>
    destruct (loop now w0) as [s w1] eqn:Hl end.
  apply loop_shape in Hl as (Hdr & ? & ? & ? & ? & ? & ? & ? & Hs).
  simpl in *. destruct s as [s'|].
  - destruct Hs as (res & l & Hq & Hw & Hs & Hl & Hp' & Hdq).
    simpl. split_and!; try done. right. split; [done|].
    exists (held s'), res. subst l. rewrite <- Hs, Hdr. done.
  - destruct Hs as (Hq & _). done.
Qed.

Lemma single_drain_step now ev w w' :
  single_drain w → step now ev w = Some w' → single_drain w'.
Proof.
  intros Hinv Hstep. unfold step in Hstep.
  case_decide; [done|].
  destruct ev as [rnd prio|i|i persisted|i res|nextDay| |]; simpl in Hstep.
  - simplify_eq.
    pose proof (enqueue_shape now rnd prio (with_clock now w)) as Hs.
    simpl in Hs. destruct Hs as (_ & _ & _ & _ & _ & _ & _ & Hs).
    destruct Hinv as [(Hd & Hp & Hq)|(s & Hd & Hp)];
      destruct Hs as [(Hp' & Hs)|(Hp' & Hs)]; try congruence.
    + destruct Hs as (r' & res & _ & _ & Hs & ? & _).
      right. rewrite Hs, Hd. eauto.
    + destruct Hs as (Hs & Ht & _). right. exists s.
      rewrite Hs, Ht. done.
  - destruct Hinv as [(Hd & Hp & Hq)|(s & Hd & Hp)]; rewrite Hd in Hstep;
      [by rewrite lookup_nil in Hstep|].
    destruct ([s] !! i) as [x|] eqn:Hi; [|done].
    apply lookup_single in Hi as [-> ->].
    destruct s; try done. case_decide; [done|].
    destruct (waitUntilCanRequest _ _ _) as [res l] eqn:Hw.
    apply waitUntilCanRequest_frame in Hw as (_ & Hw & _).
    simplify_eq. right. simpl. eexists. split; [done|]. congruence.
  - destruct Hinv as [(Hd & Hp & Hq)|(s & Hd & Hp)]; rewrite Hd in Hstep;
      [by rewrite lookup_nil in Hstep|].
    destruct ([s] !! i) as [x|] eqn:Hi; [|done].
    apply lookup_single in Hi as [-> ->].
    destruct s; try done.
    + destruct persisted; simplify_eq.
      * right. simpl. eauto.
      * match goal with |- single_drain (continue 0 now ?w0) =>
          pose proof (continue_shape now w0 (AwaitReturned r) Hd) as Hs end.
        simpl in Hs. destruct Hs as (_ & _ & _ & _ & _ & _ & _ & Hs).
        destruct Hs as [Hs|(r' & res & _ & _ & Hs & Hs' & _)].
        -- left. naive_solver.
        -- right. eexists. split; [done|]. by rewrite Hs'.
    + simplify_eq.
      match goal with |- single_drain (continue 0 now ?w0) =>
        pose proof (continue_shape now w0 _ Hd) as Hs end.
      simpl in Hs. destruct Hs as (_ & _ & _ & _ & _ & _ & _ & Hs).
      destruct Hs as [Hs|(r' & res & _ & _ & Hs & Hs' & _)].
      * left. naive_solver.
      * right. eexists. split; [done|]. by rewrite Hs'.
  - destruct Hinv as [(Hd & Hp & Hq)|(s & Hd & Hp)]; rewrite Hd in Hstep;
      [by rewrite lookup_nil in Hstep|].
    destruct ([s] !! i) as [x|] eqn:Hi; [|done].
    apply lookup_single in Hi as [-> ->].
    destruct s; try done. simplify_eq.
    match goal with |- single_drain (continue 0 now ?w0) =>
      pose proof (continue_shape now w0 _ Hd) as Hs end.
    simpl in Hs. destruct Hs as (_ & _ & _ & _ & _ & _ & _ & Hs).
    destruct Hs as [Hs|(r' & res' & _ & _ & Hs & Hs' & _)].
    + left. naive_solver.
    + right. eexists. split; [done|]. by rewrite Hs'.
  - simplify_eq. unfold checkDailyReset. case_decide; exact Hinv.
  - simplify_eq. unfold single_drain. simpl.
    destruct (getQueueStatus now (this w)) as [qs l] eqn:Hg. simpl.
    unfold getQueueStatus in Hg.
    destruct (canMakeRequest _ _) as [st l2] eqn:Hc.
    apply canMakeRequest_frame in Hc as (Hq & Hp & _). simplify_eq.
    simpl in *. rewrite Hq, Hp. exact Hinv.
  - simplify_eq. unfold single_drain. simpl.
    destruct Hinv as [(Hd & Hp & Hq)|(s & Hd & Hp)]; eauto.
Qed.

Lemma single_drain_reachable w : reachable w → single_drain w.
Proof.
  induction 1 as [|w now ev w' _ IH Hs].
  - left. done.
  - eapply single_drain_step; eauto.
Qed.

(** ** The turns cut into their elementary effects

    Every turn is a clock reading followed by a few of the effects below;
    each invariant of the limiter is proved effect by effect. *)

(** The action ran: its own result, or the failure to persist the counter
    right after admission. *)
Definition after_admission (o : Outcome) : Prop :=
  match o with
  | Resolved _ | Rejected (ActionError _) | Rejected StorageError => True
  | _ => False
  end.

(** The request was turned away by the admission wait. *)
Definition turned_away (o : Outcome) : Prop :=
  o = Rejected (LimitError (Some DailyLimit)) ∨ o = Rejected TimeoutError.

(** The invocation is at a point where it settles the request it holds. *)
Definition settles (s : Suspended) (o : Outcome) : Prop :=
  match s with
  | AwaitThrown _ e => o = Rejected e
  | AwaitExecute _ => after_admission o
  | _ => False
  end.

Definition fresh_request (w : Runtime) (rnd prio : Z) : QueuedRequest :=
  {| id := (clock w, rnd); promise := enqueued w;
     priority := prio; timestamp := clock w |}.

Inductive ReachFrom (Root : Runtime → Prop) : Runtime → Prop :=
| Reach_root w :
    Root w → ReachFrom Root w
| Reach_clock w now :
    ReachFrom Root w → clock w <= now → ReachFrom Root (with_clock now w)
| Reach_reset w nextDay :
    ReachFrom Root w →
    ReachFrom Root (with_this (checkDailyReset (clock w) nextDay (this w)) w)
| Reach_prune w :
    ReachFrom Root w →
    ReachFrom Root
      (with_this (with_requestHistory
                    (prune (clock w) (requestHistory (this w))) (this w)) w)
| Reach_clear w :
    ReachFrom Root w →
    ReachFrom Root
      (log_cleared (queue (this w)) (with_this (clearQueue (this w)) w))
| Reach_insert w rnd prio s :
    ReachFrom Root w → drains w = [s] →
    ReachFrom Root
      (count_enqueue
         (with_this (with_queue
            (insert_request (fresh_request w rnd prio) (queue (this w)))
            (this w)) w))
| Reach_start w rnd prio res :
    ReachFrom Root w → drains w = [] →
    wait_ok (clock w) 0 (this w) res →
    ReachFrom Root
      (count_enqueue
         (log_dequeued (fresh_request w rnd prio)
            (with_drains [suspend (fresh_request w rnd prio) 0 (clock w) res]
               (with_this (with_isProcessing true (this w)) w))))
| Reach_poll w r k t res :
    ReachFrom Root w → drains w = [AwaitTimer r k t] →
    wait_ok (clock w) (S k) (this w) res →
    ReachFrom Root (with_drains [suspend r (S k) (clock w) res] w)
| Reach_record w r :
    ReachFrom Root w → drains w = [AwaitReturned r] →
    ReachFrom Root
      (with_drains [AwaitExecute r]
         (log_recorded (clock w) r
            (with_this (record_request (clock w) (this w)) w)))
| Reach_next w s o r' rest res :
    ReachFrom Root w → drains w = [s] → settles s o →
    queue (this w) = r' :: rest →
    wait_ok (clock w) 0 (this w) res →
    ReachFrom Root
      (log_dequeued r'
         (with_drains [suspend r' 0 (clock w) res]
            (with_this (with_queue rest (this w))
               (log_settled (held s) o w))))
| Reach_finish w s o :
    ReachFrom Root w → drains w = [s] → settles s o →
    queue (this w) = [] →
    ReachFrom Root
      (with_drains []
         (with_this (with_isProcessing false (this w))
            (log_settled (held s) o w))).

Arguments Reach_root {Root}.
Arguments Reach_clock {Root}.
Arguments Reach_reset {Root}.
Arguments Reach_prune {Root}.
Arguments Reach_clear {Root}.
Arguments Reach_insert {Root}.
Arguments Reach_start {Root}.
Arguments Reach_poll {Root}.
Arguments Reach_record {Root}.
Arguments Reach_next {Root}.
Arguments Reach_finish {Root}.

(** The page starts from a fresh object. *)
Definition booted (w : Runtime) : Prop :=
  ∃ t0 stored today nextDay, w = boot t0 stored today nextDay.

Section decomposition.
Context (Root : Runtime → Prop).
Hypothesis Root_single : ∀ w, Root w → single_drain w.
Abbreviation Reach := (ReachFrom Root).

Lemma Reach_single_drain w : Reach w → single_drain w.
Proof.
  induction 1 as [w HRoot|w now _ IH|w nextDay _ IH|w _ IH|w _ IH
                 |w rnd prio s _ IH Hd|w rnd prio res _ IH Hd Hok
                 |w r k t res _ IH Hd Hok|w r _ IH Hd
                 |w s o r' rest res _ IH Hd Hs Hq Hok|w s o _ IH Hd Hs Hq];
    [by apply Root_single|..]; unfold single_drain in *; simpl; eauto.
  - unfold checkDailyReset. case_decide; simpl; eauto.
  - destruct IH as [(? & ? & ?)|(? & ? & ?)]; eauto.
  - destruct IH as [(? & ? & ?)|(? & ? & ?)]; [congruence|eauto].
  - destruct IH as [(? & ? & ?)|(? & ? & ?)]; [congruence|eauto].
  - destruct IH as [(? & ? & ?)|(? & ? & ?)]; [congruence|eauto].
  - destruct IH as [(? & ? & ?)|(? & ? & ?)]; [congruence|eauto].
Qed.

Lemma runtime_eq (w w' : Runtime) :
  this w' = this w → clock w' = clock w → drains w' = drains w →
  enqueued w' = enqueued w → dequeued w' = dequeued w →
  recorded w' = recorded w → settled w' = settled w →
  cleared w' = cleared w → w' = w.
Proof. destruct w, w'; simpl; congruence. Qed.

Ltac same_runtime :=
  apply runtime_eq; simpl; try done;
  try (apply limiter_eq; simpl; try done; congruence).

Lemma waitUntilCanRequest_with_queue now k q l :
  waitUntilCanRequest now k (with_queue q l) =
  let '(res, l') := waitUntilCanRequest now k l in (res, with_queue q l').
Proof.
  unfold waitUntilCanRequest, canMakeRequest. simpl.
  repeat (case_decide; simpl; try done).
  destruct (last (prune now (requestHistory l))) as [z|]; simpl; [|done].
  destruct (truthy z && bool_decide (now - z < MIN_REQUEST_SPACING_MS));
    simpl; [|done].
  case_decide; [lia|done].
Qed.

Lemma waitUntilCanRequest_with_isProcessing now k b l :
  waitUntilCanRequest now k (with_isProcessing b l) =
  let '(res, l') := waitUntilCanRequest now k l in
  (res, with_isProcessing b l').
Proof.
  unfold waitUntilCanRequest, canMakeRequest. simpl.
  repeat (case_decide; simpl; try done).
  destruct (last (prune now (requestHistory l))) as [z|]; simpl; [|done].
  destruct (truthy z && bool_decide (now - z < MIN_REQUEST_SPACING_MS));
    simpl; [|done].
  case_decide; [lia|done].
Qed.

(** The state after the polling loop ran in [w], seen as an effect. *)
Lemma Reach_wait w k res l' :
  Reach w →
  waitUntilCanRequest (clock w) k (this w) = (res, l') →
  ∃ w2, Reach w2 ∧ this w2 = l' ∧ clock w2 = clock w ∧
        drains w2 = drains w ∧ enqueued w2 = enqueued w ∧
        dequeued w2 = dequeued w ∧ recorded w2 = recorded w ∧
        settled w2 = settled w ∧ cleared w2 = cleared w ∧
        wait_ok (clock w2) k (this w2) res.
Proof.
  intros HR Hw.
  apply waitUntilCanRequest_result in Hw as [[->| ->] Hok].
  - exists w. done.
  - eexists. split; [apply (Reach_prune w HR)|]. simpl. done.
Qed.

Lemma Reach_continue w s o now :
  Reach w → drains w = [s] → settles s o → clock w = now →
  Reach (continue 0 now (log_settled (held s) o w)).
Proof.
  intros HR Hd Hs <-. unfold continue, loop. simpl.
  destruct (queue (this w)) as [|r' rest] eqn:Hq.
  - simpl. rewrite Hd. simpl.
    pose proof (Reach_finish w s o HR Hd Hs Hq) as HR'.
    erewrite runtime_eq; [exact HR'|..]; done.
  - rewrite waitUntilCanRequest_with_queue.
    destruct (waitUntilCanRequest (clock w) 0 (this w)) as [res l'] eqn:Hw.
    simpl. rewrite Hd. simpl.
    pose proof (waitUntilCanRequest_frame _ _ _ _ _ Hw) as (Hf1 & Hf2 & Hf3 & Hf4).
    destruct (Reach_wait w 0 res l' HR Hw)
      as (w2 & HR2 & E1 & E2 & E3 & E4 & E5 & E6 & E7 & E8 & Hok).
    assert (queue (this w2) = r' :: rest) as Hq2 by congruence.
    pose proof (Reach_next w2 s o r' rest res HR2 ltac:(congruence) Hs Hq2 Hok)
      as HR'.
    erewrite runtime_eq; [exact HR'|..]; simpl; try congruence.
Qed.

(** With one invocation, going round the loop forgets where it was. *)
Lemma continue_drains now w s s2 :
  drains w = [s] →
  continue 0 now (with_drains [s2] w) = continue 0 now w.
Proof.
  intros Hd. unfold continue, loop. simpl.
  destruct (queue (this w)); simpl.
  - by rewrite Hd.
  - destruct (waitUntilCanRequest _ _ _). simpl. by rewrite Hd.
Qed.

Lemma Reach_step now ev w w' :
  Reach w → step now ev w = Some w' → Reach w'.
Proof.
  intros HR Hstep. unfold step in Hstep.
  case_decide as Hclk; [done|].
  assert (Reach (with_clock now w)) as HR0 by (apply Reach_clock; [done|lia]).
  pose proof (Reach_single_drain _ HR0) as Hsd.
  set (w0 := with_clock now w) in *.
  assert (clock w0 = now) as Hnow by done.
  clearbody w0. clear HR Hclk w.
  destruct ev as [rnd prio|i|i persisted|i res|nextDay| |]; simpl in Hstep.
  - simplify_eq. unfold enqueue, processQueue. simpl.
    destruct Hsd as [(Hd & Hp & Hq)|(s & Hd & Hp)].
    + rewrite Hp, Hq. simpl. unfold loop. simpl.
      rewrite waitUntilCanRequest_with_queue,
        waitUntilCanRequest_with_isProcessing,
        waitUntilCanRequest_with_queue.
      destruct (waitUntilCanRequest (clock w0) 0 (this w0)) as [res l'] eqn:Hw.
      simpl. rewrite Hd. simpl.
      pose proof (waitUntilCanRequest_frame _ _ _ _ _ Hw) as (Hf1 & Hf2 & Hf3 & Hf4).
      destruct (Reach_wait w0 0 res l' HR0 Hw)
        as (w2 & HR2 & E1 & E2 & E3 & E4 & E5 & E6 & E7 & E8 & Hok).
      pose proof (Reach_start w2 rnd prio res HR2 ltac:(congruence) Hok) as HR'.
      erewrite runtime_eq; [exact HR'|..]; simpl; unfold fresh_request;
        try congruence.
      apply limiter_eq; simpl; congruence.
    + rewrite Hp. simpl.
      pose proof (Reach_insert w0 rnd prio s HR0 Hd) as HR'.
      erewrite runtime_eq; [exact HR'|..]; done.
  - destruct Hsd as [(Hd & Hp & Hq)|(s & Hd & Hp)]; rewrite Hd in Hstep;
      [by rewrite lookup_nil in Hstep|].
    destruct ([s] !! i) as [x|] eqn:Hi; [|done].
    apply lookup_single in Hi as [-> ->].
    destruct s as [|?|r k t|]; try done. case_decide; [done|].
    rewrite <- Hnow in Hstep.
    destruct (waitUntilCanRequest _ _ _) as [res l'] eqn:Hw.
    destruct (Reach_wait w0 (S k) res l' HR0 Hw)
      as (w2 & HR2 & E1 & E2 & E3 & E4 & E5 & E6 & E7 & E8 & Hok).
    pose proof (Reach_poll w2 r k t res HR2 ltac:(congruence) Hok) as HR'.
    simplify_eq.
    erewrite runtime_eq; [exact HR'|..]; simpl; congruence.
  - destruct Hsd as [(Hd & Hp & Hq)|(s & Hd & Hp)]; rewrite Hd in Hstep;
      [by rewrite lookup_nil in Hstep|].
    destruct ([s] !! i) as [x|] eqn:Hi; [|done].
    apply lookup_single in Hi as [-> ->].
    destruct s as [r|r e| |]; try done.
    + pose proof (Reach_record w0 r HR0 Hd) as HR'. rewrite Hnow in HR'.
      destruct persisted; simplify_eq.
      * erewrite runtime_eq; [exact HR'|..]; simpl; done.
      * match type of HR' with Reach ?w1 =>
          pose proof (Reach_continue w1 (AwaitExecute r)
                        (Rejected StorageError) (clock w0) HR'
                        eq_refl I eq_refl) as HR2 end.
        simpl in HR2.
        match type of HR2 with Reach (continue _ _ (log_settled _ _ ?w1)) =>
          change (log_settled r (Rejected StorageError) w1)
            with (with_drains [AwaitExecute r]
                    (log_settled r (Rejected StorageError)
                       (log_recorded (clock w0) r
                          (with_this (record_request (clock w0) (this w0)) w0))))
            in HR2 end.
        by erewrite continue_drains in HR2.
    + simplify_eq.
      apply (Reach_continue w0 (AwaitThrown r e)); done.
  - destruct Hsd as [(Hd & Hp & Hq)|(s & Hd & Hp)]; rewrite Hd in Hstep;
      [by rewrite lookup_nil in Hstep|].
    destruct ([s] !! i) as [x|] eqn:Hi; [|done].
    apply lookup_single in Hi as [-> ->].
    destruct s as [| | |r]; try done. simplify_eq.
    apply (Reach_continue w0 (AwaitExecute r)); try done.
    by destruct res.
  - simplify_eq. apply Reach_reset. done.
  - simplify_eq. unfold getQueueStatus.
    destruct (canMakeRequest _ _) as [st l2] eqn:Hc. simpl.
    pose proof (Reach_prune w0 HR0) as HR1.
    pose proof (canMakeRequest_frame _ _ _ _ Hc) as (F1 & F2 & F3 & F4).
    apply canMakeRequest_history in Hc as [(_ & -> & _)|(_ & Hh)].
    + exact HR1.
    + simpl in *. rewrite prune_prune in Hh.
      erewrite runtime_eq; [exact HR1|..]; simpl; try done.
      apply limiter_eq; simpl; done.
  - simplify_eq. apply Reach_clear. done.
Qed.

Lemma Reach_run evs w w' :
  Reach w → run evs w = Some w' → Reach w'.
Proof.
  revert w. induction evs as [|[now ev] evs IH]; intros w HR Hrun; simpl in *.
  - by simplify_eq.
  - destruct (step now ev w) as [w1|] eqn:Hs; [|done].
    eapply IH; [|done]. eapply Reach_step; eauto.
Qed.

End decomposition.

Lemma booted_single w : booted w → single_drain w.
Proof. intros (? & ? & ? & ? & ->). left. done. Qed.

Lemma reachable_Reach w : reachable w → ReachFrom booted w.
Proof.
  induction 1.
  - apply Reach_root. unfold booted. eauto.
  - eapply Reach_step; eauto using booted_single.
Qed.

Lemma run_reachable evs w w' :
  reachable w → run evs w = Some w' → reachable w'.
Proof.
  revert w. induction evs as [|[now ev] evs IH]; intros w HR Hrun; simpl in *.
  - by simplify_eq.
  - destruct (step now ev w) as [w1|] eqn:Hs; [|done].
    eapply IH; [|done]. eapply reachable_step; eauto.
Qed.

(** ** The history is the recent part of what was recorded *)

(** The timestamps recorded so far, oldest first. *)
Definition stamps (w : Runtime) : list Z := (recorded w).*1.

Definition history_inv (w : Runtime) : Prop :=
  ∃ cutoff, cutoff + INTERVAL_MS <= clock w ∧
    requestHistory (this w) = filter (λ a, cutoff < a) (stamps w).

Lemma prune_filter now cutoff (l : list Z) :
  cutoff + INTERVAL_MS <= now →
  prune now (filter (λ a, cutoff < a) l)
  = filter (λ a, now - INTERVAL_MS < a) l.
Proof.
  intros H. unfold prune. rewrite list_filter_filter.
  apply list_filter_iff. intros x. lia.
Qed.

Lemma requestHistory_checkDailyReset now nextDay l :
  requestHistory (checkDailyReset now nextDay l) = requestHistory l.
Proof. unfold checkDailyReset. by case_decide. Qed.

Lemma history_inv_Reach Root :
  (∀ w, Root w → history_inv w) →
  ∀ w, ReachFrom Root w → history_inv w.
Proof.
  intros HRoot w. unfold history_inv, stamps.
  induction 1 as [w HR|w now _ IH|w nextDay _ IH|w _ IH|w _ IH
                 |w rnd prio s _ IH Hd|w rnd prio res _ IH Hd Hok
                 |w r k t res _ IH Hd Hok|w r _ IH Hd
                 |w s o r' rest res _ IH Hd Hs Hq Hok|w s o _ IH Hd Hs Hq];
    [by apply HRoot|..]; simpl; try exact IH;
    destruct IH as (cutoff & Hc & Hh).
  - exists cutoff. split; [lia|done].
  - exists cutoff. by rewrite requestHistory_checkDailyReset.
  - exists (clock w - INTERVAL_MS). split; [lia|].
    rewrite Hh. by apply prune_filter.
  - exists cutoff. split; [done|].
    rewrite fmap_app, filter_app, Hh. simpl.
    rewrite filter_cons_True, filter_nil; [done|].
    unfold INTERVAL_MS in *. lia.
Qed.

(** When the history was just pruned, it is the trailing window of the
    record. *)
Lemma history_pruned w :
  history_inv w →
  requestHistory (this w) = prune (clock w) (requestHistory (this w)) →
  requestHistory (this w)
  = filter (λ a, clock w - INTERVAL_MS < a) (stamps w).
Proof.
  intros (cutoff & Hc & Hh) Hp. rewrite Hp, Hh. by apply prune_filter.
Qed.

(** ** At most five admissions in any minute *)

Definition in_window (T a : Z) : Prop := T - INTERVAL_MS < a ∧ a <= T.

Definition window_inv (w : Runtime) : Prop :=
  (∀ T, (length (filter (in_window T) (stamps w))
           <= MAX_REQUESTS_PER_MINUTE)%nat) ∧
  (∀ r, drains w = [AwaitReturned r] →
        (length (filter (λ a : Z, (clock w - INTERVAL_MS < a)%Z) (stamps w))
           < MAX_REQUESTS_PER_MINUTE)%nat).

Lemma length_filter_mono {A} (P Q : A → Prop)
    `{∀ x, Decision (P x)} `{∀ x, Decision (Q x)} (l : list A) :
  (∀ x, P x → Q x) → (length (filter P l) <= length (filter Q l))%nat.
Proof.
  intros HPQ. induction l as [|x l IH]; [done|].
  rewrite !filter_cons.
  destruct (decide (P x)), (decide (Q x)); simpl; try lia.
  exfalso. auto.
Qed.

Lemma suspend_returned r k now res r' :
  suspend r k now res = AwaitReturned r' → res = WReturn ∧ r' = r.
Proof. destruct res; simpl; intros; simplify_eq; done. Qed.

Lemma window_inv_Reach Root :
  (∀ w, Root w → history_inv w) →
  (∀ w, Root w → window_inv w) →
  ∀ w, ReachFrom Root w → window_inv w.
Proof.
  intros HRh HRoot w HR.
  assert (∀ w k res r r', ReachFrom Root w →
            wait_ok (clock w) k (this w) res →
            suspend r k (clock w) res = AwaitReturned r' →
            (length (filter (λ a : Z, (clock w - INTERVAL_MS < a)%Z) (stamps w))
               < MAX_REQUESTS_PER_MINUTE)%nat) as Hret.
  { clear w HR. intros w k res r r' HR Hok Hs.
    apply suspend_returned in Hs as [-> _].
    destruct Hok as (_ & _ & Hp & Hn & _).
    rewrite <- history_pruned; [done| |done].
    by apply (history_inv_Reach Root). }
  induction HR as [w HR|w now HR IH|w nextDay HR IH|w HR IH|w HR IH
                 |w rnd prio s HR IH Hd|w rnd prio res HR IH Hd Hok
                 |w r k t res HR IH Hd Hok|w r HR IH Hd
                 |w s o r' rest res HR IH Hd Hs Hq Hok|w s o HR IH Hd Hs Hq];
    [by apply HRoot|..]; unfold window_inv, stamps in *; simpl;
    try exact IH; destruct IH as (Hwin & Hact).
  - split; [done|]. intros r Hd. specialize (Hact r Hd).
    eapply Nat.le_lt_trans; [|exact Hact].
    apply length_filter_mono. intros x. lia.
  - split; [done|]. intros r0 Hd0. simplify_eq.
    by eapply Hret.
  - split; [done|]. intros r0 Hd0. simplify_eq.
    by eapply Hret.
  - split; [|done].
    intros T. rewrite fmap_app, filter_app, length_app. simpl.
    specialize (Hact r Hd).
    destruct (decide (in_window T (clock w))) as [Hin|Hout].
    + rewrite filter_cons_True, filter_nil by done. simpl.
      assert (length (filter (in_window T) (recorded w).*1)
              <= length (filter (λ a : Z, (clock w - INTERVAL_MS < a)%Z)
                           (recorded w).*1))%nat.
      { apply length_filter_mono. unfold in_window in *. intros x. lia. }
      unfold MAX_REQUESTS_PER_MINUTE in *. lia.
    + rewrite filter_cons_False, filter_nil by done. simpl.
      specialize (Hwin T). lia.
  - split; [done|]. intros r0 Hd0. simplify_eq.
    by eapply Hret.
  - split; [done|]. intros r0 Hd0. done.
Qed.

(** ** At least 12.5 seconds between admissions *)

Definition spaced (a b : Z) : Prop := a + MIN_REQUEST_SPACING_MS <= b.

Lemma StronglySorted_sublist_of {A} (R : relation A) (l1 l2 : list A) :
  l1 `sublist_of` l2 → StronglySorted R l2 → StronglySorted R l1.
Proof.
  induction 1 as [|x l1 l2 Hsub IH|x l1 l2 Hsub IH]; intros Hs.
  - constructor.
  - apply StronglySorted_cons in Hs as [Hx Hs].
    apply StronglySorted_cons. split; [|by apply IH].
    rewrite Forall_forall in *. intros y Hy. apply Hx.
    by eapply elem_of_sublist.
  - apply StronglySorted_cons in Hs as [_ Hs]. by apply IH.
Qed.

Lemma spaced_last_max (l : list Z) (x a : Z) :
  StronglySorted spaced l → last l = Some x → a ∈ l → a <= x.
Proof.
  intros Hs Hl Ha. apply last_Some in Hl as [l' ->].
  apply elem_of_app in Ha as [Ha|Ha].
  - assert (spaced a x) as Hax.
    { eapply StronglySorted_app_1_elem_of; [done|done|]. set_solver. }
    unfold spaced, MIN_REQUEST_SPACING_MS in Hax. lia.
  - apply list_elem_of_singleton in Ha. lia.
Qed.

Definition spacing_inv (w : Runtime) : Prop :=
  Forall (λ a, a ≠ 0) (stamps w) →
  StronglySorted spaced (stamps w) ∧
  (∀ r, drains w = [AwaitReturned r] →
        Forall (λ a, a + MIN_REQUEST_SPACING_MS <= clock w) (stamps w)).

Lemma spacing_inv_Reach Root :
  (∀ w, Root w → history_inv w) →
  (∀ w, Root w → spacing_inv w) →
  ∀ w, ReachFrom Root w → spacing_inv w.
Proof.
  intros HRh HRoot w HR.
  assert (∀ w k res r r', ReachFrom Root w →
            wait_ok (clock w) k (this w) res →
            suspend r k (clock w) res = AwaitReturned r' →
            Forall (λ a, a ≠ 0) (stamps w) →
            StronglySorted spaced (stamps w) →
            Forall (λ a, a + MIN_REQUEST_SPACING_MS <= clock w) (stamps w))
    as Hret.
  { clear w HR. intros w k res r r' HR Hok Hs Hnz Hsorted.
    apply suspend_returned in Hs as [-> _].
    destruct Hok as (_ & _ & Hp & _ & Hlast).
    apply history_pruned in Hp; [|by apply (history_inv_Reach Root)].
    rewrite Forall_forall in *. intros a Ha.
    destruct (decide (clock w - INTERVAL_MS < a)) as [Hrecent|Hold];
      [|unfold INTERVAL_MS, MIN_REQUEST_SPACING_MS in *; lia].
    assert (a ∈ requestHistory (this w)) as Hin.
    { rewrite Hp. by apply list_elem_of_filter. }
    destruct (last (requestHistory (this w))) as [x|] eqn:Hl.
    - assert (x ∈ stamps w) as Hx.
      { apply last_Some_elem_of in Hl. rewrite Hp in Hl.
        by apply list_elem_of_filter in Hl as [_ ?]. }
      assert (a <= x).
      { eapply spaced_last_max; [|exact Hl|exact Hin].
        rewrite Hp. eapply StronglySorted_sublist_of; [|exact Hsorted].
        apply sublist_filter. }
      specialize (Hlast x eq_refl (Hnz x Hx)). lia.
    - apply last_None in Hl. rewrite Hl in Hin. by apply not_elem_of_nil in Hin. }
  induction HR as [w HR|w now HR IH|w nextDay HR IH|w HR IH|w HR IH
                 |w rnd prio s HR IH Hd|w rnd prio res HR IH Hd Hok
                 |w r k t res HR IH Hd Hok|w r HR IH Hd
                 |w s o r' rest res HR IH Hd Hs Hq Hok|w s o HR IH Hd Hs Hq];
    [by apply HRoot|..]; unfold spacing_inv, stamps in *; simpl;
    try exact IH; intros Hnz.
  - destruct (IH Hnz) as [Hsorted Hact]. split; [done|].
    intros r Hd. eapply Forall_impl; [exact (Hact r Hd)|]. simpl. intros; lia.
  - destruct (IH Hnz) as [Hsorted Hact]. split; [done|].
    intros r0 Hd0. simplify_eq. by eapply Hret.
  - destruct (IH Hnz) as [Hsorted Hact]. split; [done|].
    intros r0 Hd0. simplify_eq. by eapply Hret.
  - rewrite fmap_app in *. apply Forall_app in Hnz as [Hnz _].
    destruct (IH Hnz) as [Hsorted Hact]. split; [|done].
    apply StronglySorted_app. split_and!; [|done|repeat constructor].
    intros a b Ha Hb. apply list_elem_of_singleton in Hb as ->.
    specialize (Hact r Hd). rewrite Forall_forall in Hact. by apply Hact.
  - destruct (IH Hnz) as [Hsorted Hact]. split; [done|].
    intros r0 Hd0. simplify_eq. by eapply Hret.
  - destruct (IH Hnz) as [Hsorted Hact]. split; [done|]. done.
Qed.

(** ** Priority order, and arrival order within a priority *)

(** [a] stands ahead of [b] in the queue: higher priority, or the same
    priority and an earlier [enqueue]. *)
Definition outranks (a b : QueuedRequest) : Prop :=
  priority b < priority a ∨
  (priority a = priority b ∧ (promise a < promise b)%nat).

(** [a] leaving the queue before [b] is no inversion: [b] did not both
    arrive earlier and have at least [a]'s priority. *)
Definition in_order (a b : QueuedRequest) : Prop :=
  ¬ ((promise b < promise a)%nat ∧ priority a <= priority b).

Lemma insert_request_cons r x q :
  insert_request r (x :: q) =
  if decide (priority x < priority r) then r :: x :: q
  else x :: insert_request r q.
Proof.
  unfold insert_request. simpl. case_decide; [done|].
  destruct (findIndex (priority r) q); done.
Qed.

(** Where [enqueue] puts the request: behind everything of at least its
    priority, in front of the first request of strictly lower priority. *)
Lemma insert_request_spec r q :
  ∃ front back,
    q = front ++ back ∧ insert_request r q = front ++ r :: back ∧
    Forall (λ x, priority r <= priority x) front ∧
    match back with
    | [] => True
    | y :: _ => priority y < priority r
    end.
Proof.
  induction q as [|x q (front & back & Hq & Hi & Hf & Hb)].
  - exists [], []. done.
  - rewrite insert_request_cons. case_decide as Hx.
    + exists [], (x :: q). done.
    + exists (x :: front), back. rewrite Hi, Hq. split_and!; try done.
      constructor; [lia|done].
Qed.

Lemma insert_request_perm r q : insert_request r q ≡ₚ r :: q.
Proof.
  destruct (insert_request_spec r q) as (front & back & -> & -> & _).
  by rewrite Permutation_middle.
Qed.

Lemma outranks_trans_lt x y r :
  (outranks x y ∨ x = y) → priority x < priority r → outranks r y.
Proof. unfold outranks. intros [[?|[? ?]]| ->] ?; left; lia. Qed.

Lemma insert_request_sorted r q :
  StronglySorted outranks q →
  Forall (λ x, (promise x < promise r)%nat) q →
  StronglySorted outranks (insert_request r q).
Proof.
  induction q as [|x q IH]; intros Hs Hf.
  - repeat constructor.
  - apply StronglySorted_cons in Hs as [Hx Hs].
    apply Forall_cons in Hf as [Hxr Hf].
    rewrite insert_request_cons. case_decide as Hlt.
    + apply StronglySorted_cons. split; [|by apply StronglySorted_cons].
      constructor.
      * apply (outranks_trans_lt x); auto.
      * rewrite Forall_forall in *. intros y Hy.
        apply (outranks_trans_lt x); auto.
    + apply StronglySorted_cons. split; [|by apply IH].
      rewrite insert_request_perm. constructor; [|done].
      unfold outranks. destruct (decide (priority r < priority x)); [by left|].
      right. split; [lia|done].
Qed.

Definition order_inv (w : Runtime) : Prop :=
  StronglySorted outranks (queue (this w)) ∧
  Forall (λ r, (promise r < enqueued w)%nat) (queue (this w)) ∧
  Forall (λ r, (promise r < enqueued w)%nat) (dequeued w) ∧
  StronglySorted in_order (dequeued w) ∧
  (∀ a b, a ∈ dequeued w → b ∈ queue (this w) → in_order a b) ∧
  (recorded w).*2 `sublist_of` dequeued w ∧
  (∀ s, drains w = [s] → (∀ r, s ≠ AwaitExecute r) →
        ∃ d, dequeued w = d ++ [held s] ∧ (recorded w).*2 `sublist_of` d).

Lemma held_suspend r k now res : held (suspend r k now res) = r.
Proof. by destruct res. Qed.

Lemma queue_checkDailyReset now nextDay l :
  queue (checkDailyReset now nextDay l) = queue l.
Proof. unfold checkDailyReset. by case_decide. Qed.

Lemma Forall_promise_S (n : nat) (l : list QueuedRequest) :
  Forall (λ r, (promise r < n)%nat) l →
  Forall (λ r, (promise r < S n)%nat) l.
Proof. intros H. eapply Forall_impl; [exact H|]. simpl. intros; lia. Qed.

Lemma order_inv_Reach Root :
  (∀ w, Root w → single_drain w) →
  (∀ w, Root w → order_inv w) →
  ∀ w, ReachFrom Root w → order_inv w.
Proof.
  intros HRs HRoot w HR.
  induction HR as [w HR|w now HR IH|w nextDay HR IH|w HR IH|w HR IH
                 |w rnd prio s HR IH Hd|w rnd prio res HR IH Hd Hok
                 |w r k t res HR IH Hd Hok|w r HR IH Hd
                 |w s o r' rest res HR IH Hd Hs Hq Hok|w s o HR IH Hd Hs Hq];
    [by apply HRoot|..]; unfold order_inv in *; simpl;
    rewrite ?queue_checkDailyReset; try exact IH;
    destruct IH as (Hqs & Hqf & Hdf & Hds & Hx & Hsub & Hlast).
  - (* clearQueue *)
    split_and!; try done; [constructor|].
    intros a b _ Hb. by apply not_elem_of_nil in Hb.
  - (* enqueue while draining *)
    split_and!; try done.
    + apply insert_request_sorted; [done|]. done.
    + rewrite insert_request_perm. constructor; [simpl; lia|].
      by apply Forall_promise_S.
    + by apply Forall_promise_S.
    + intros a b Ha Hb. rewrite insert_request_perm in Hb.
      apply elem_of_cons in Hb as [->|Hb]; [|by apply Hx].
      rewrite Forall_forall in Hdf. specialize (Hdf a Ha).
      unfold in_order. simpl. lia.
  - (* enqueue while idle *)
    assert (queue (this w) = []) as Hq.
    { destruct (Reach_single_drain Root HRs w HR) as [(_ & _ & ?)|(? & ? & _)];
        [done|congruence]. }
    rewrite Hq in *.
    split_and!; try done.
    + rewrite Forall_app. split; [by apply Forall_promise_S|].
      constructor; [simpl; lia|constructor].
    + apply StronglySorted_app. split_and!; [|done|repeat constructor].
      intros a b Ha Hb. apply list_elem_of_singleton in Hb as ->.
      rewrite Forall_forall in Hdf. specialize (Hdf a Ha).
      unfold in_order. simpl. lia.
    + intros a b _ Hb. by apply not_elem_of_nil in Hb.
    + by apply sublist_inserts_r.
    + intros s Hs _. simplify_eq. rewrite held_suspend. eauto.
  - (* a poll *)
    split_and!; try done.
    intros s Hs _. simplify_eq. rewrite held_suspend.
    apply (Hlast _ Hd). done.
  - (* recording an admission *)
    destruct (Hlast _ Hd) as (d & Hdq & Hsub'); [done|]. simpl in Hdq.
    split_and!; try done.
    + rewrite fmap_app, Hdq. simpl. by apply sublist_app.
    + intros s Hs Hne. simplify_eq. by destruct (Hne r).
  - (* the next request leaves the queue *)
    rewrite Hq in *.
    apply StronglySorted_cons in Hqs as [Hr' Hqs].
    apply Forall_cons in Hqf as [Hr'f Hqf].
    split_and!; try done.
    + rewrite Forall_app. split; [done|]. by repeat constructor.
    + apply StronglySorted_app. split_and!; [|done|repeat constructor].
      intros a b Ha Hb. apply list_elem_of_singleton in Hb as ->.
      apply Hx; [done|]. by left.
    + intros a b Ha Hb. apply elem_of_app in Ha as [Ha|Ha].
      * apply Hx; [done|]. by right.
      * apply list_elem_of_singleton in Ha as ->.
        rewrite Forall_forall in Hr'. specialize (Hr' b Hb).
        unfold in_order, outranks in *. lia.
    + by apply sublist_inserts_r.
    + intros s0 Hs0 _. simplify_eq. rewrite held_suspend. eauto.
  - (* the queue ran empty *)
    split_and!; try done.
Qed.

(** ** What a suspended invocation can be waiting with *)

Definition phase_inv (w : Runtime) : Prop :=
  ∀ s, drains w = [s] →
    match s with
    | AwaitReturned _ => dailyCount (this w) < MAX_DAILY_REQUESTS
    | AwaitTimer _ k _ =>
        (k < maxAttempts)%nat ∧ dailyCount (this w) < MAX_DAILY_REQUESTS
    | AwaitThrown _ e =>
        e = LimitError (Some DailyLimit) ∨
        (e = TimeoutError ∧ dailyCount (this w) < MAX_DAILY_REQUESTS)
    | AwaitExecute _ => True
    end.

Lemma dailyCount_checkDailyReset now nextDay l :
  dailyCount l < MAX_DAILY_REQUESTS →
  dailyCount (checkDailyReset now nextDay l) < MAX_DAILY_REQUESTS.
Proof. unfold checkDailyReset. case_decide; simpl; [done|auto]. Qed.

Lemma phase_of_wait now k l res r :
  wait_ok now k l res →
  ((maxAttempts <= k)%nat → dailyCount l < MAX_DAILY_REQUESTS) →
  match suspend r k now res with
  | AwaitReturned _ => dailyCount l < MAX_DAILY_REQUESTS
  | AwaitTimer _ k' _ =>
      (k' < maxAttempts)%nat ∧ dailyCount l < MAX_DAILY_REQUESTS
  | AwaitThrown _ e =>
      e = LimitError (Some DailyLimit) ∨
      (e = TimeoutError ∧ dailyCount l < MAX_DAILY_REQUESTS)
  | AwaitExecute _ => True
  end.
Proof.
  destruct res as [|e|t]; simpl.
  - intros (_ & ? & _). done.
  - intros [(-> & _)|(-> & ?)]; auto.
  - done.
Qed.

Lemma phase_inv_Reach Root :
  (∀ w, Root w → phase_inv w) →
  ∀ w, ReachFrom Root w → phase_inv w.
Proof.
  intros HRoot w HR.
  induction HR as [w HR|w now HR IH|w nextDay HR IH|w HR IH|w HR IH
                 |w rnd prio s HR IH Hd|w rnd prio res HR IH Hd Hok
                 |w r k t res HR IH Hd Hok|w r HR IH Hd
                 |w s o r' rest res HR IH Hd Hs Hq Hok|w s o HR IH Hd Hs Hq];
    [by apply HRoot|..]; unfold phase_inv in *; simpl; try exact IH;
    intros s0 Hs0; simplify_eq; try done.
  - specialize (IH s0 Hs0).
    destruct s0; try done; intuition auto using dailyCount_checkDailyReset.
  - apply (phase_of_wait _ _ (this w)); [done|]. unfold maxAttempts. lia.
  - apply (phase_of_wait _ _ (this w)); [done|]. intros _.
    by destruct (IH _ Hd).
  - apply (phase_of_wait _ _ (this w)); [done|]. unfold maxAttempts. lia.
Qed.

(** ** Every promise is in exactly one place *)

(** The requests whose promise is still open and that the limiter still
    knows: those in the queue and the one an invocation holds. *)
Definition pending (w : Runtime) : list QueuedRequest :=
  queue (this w) ++ (held <$> drains w).

Definition conservation (w : Runtime) : Prop :=
  (promise <$> pending w) ++ (settled w).*1 ++ (promise <$> cleared w)
  ≡ₚ seq 0 (enqueued w).

Lemma conservation_Reach Root :
  (∀ w, Root w → conservation w) →
  ∀ w, ReachFrom Root w → conservation w.
Proof.
  intros HRoot w HR.
  induction HR as [w HR|w now HR IH|w nextDay HR IH|w HR IH|w HR IH
                 |w rnd prio s HR IH Hd|w rnd prio res HR IH Hd Hok
                 |w r k t res HR IH Hd Hok|w r HR IH Hd
                 |w s o r' rest res HR IH Hd Hs Hq Hok|w s o HR IH Hd Hs Hq];
    [by apply HRoot|..]; unfold conservation, pending in *; simpl;
    rewrite ?queue_checkDailyReset; try exact IH.
  - rewrite <- IH, !fmap_app. solve_Permutation.
  - change (0%nat :: seq 1 (enqueued w)) with (seq 0 (S (enqueued w))).
    rewrite seq_S, <- IH, insert_request_perm, !fmap_app. simpl.
    solve_Permutation.
  - change (0%nat :: seq 1 (enqueued w)) with (seq 0 (S (enqueued w))).
    rewrite seq_S, <- IH, Hd, !fmap_app, held_suspend. simpl.
    solve_Permutation.
  - rewrite <- IH, Hd, held_suspend. done.
  - rewrite <- IH, Hd. done.
  - rewrite <- IH, Hd, Hq, !fmap_app, held_suspend. simpl.
    solve_Permutation.
  - rewrite <- IH, Hd, Hq, !fmap_app. simpl. solve_Permutation.
Qed.

(** ** How a promise can be settled *)

Definition outcome_inv (w : Runtime) : Prop :=
  (∀ r, drains w = [AwaitExecute r] → r ∈ (recorded w).*2) ∧
  (∀ p o, (p, o) ∈ settled w →
     turned_away o ∨ (after_admission o ∧ p ∈ promise <$> (recorded w).*2)).

Lemma outcome_inv_Reach Root :
  (∀ w, Root w → phase_inv w) →
  (∀ w, Root w → outcome_inv w) →
  ∀ w, ReachFrom Root w → outcome_inv w.
Proof.
  intros HRp HRoot w HR.
  assert (∀ w s o p o', ReachFrom Root w → outcome_inv w → drains w = [s] →
            settles s o →
            (p, o') ∈ settled w ++ [(promise (held s), o)] →
            turned_away o' ∨
            (after_admission o' ∧ p ∈ promise <$> (recorded w).*2))
    as Hsettle.
  { clear w HR. intros w s o p o' HR [Hex Hold] Hd Hs Hin.
    apply elem_of_app in Hin as [Hin|Hin]; [by apply Hold|].
    apply list_elem_of_singleton in Hin. simplify_eq.
    pose proof (phase_inv_Reach Root HRp w HR s Hd) as Hph.
    destruct s as [|r e| |r]; simpl in *; try done.
    - subst o. left. unfold turned_away. destruct Hph as [->|[-> _]]; auto.
    - right. split; [done|]. apply list_elem_of_fmap_2. by apply Hex. }
  induction HR as [w HR|w now HR IH|w nextDay HR IH|w HR IH|w HR IH
                 |w rnd prio s HR IH Hd|w rnd prio res HR IH Hd Hok
                 |w r k t res HR IH Hd Hok|w r HR IH Hd
                 |w s o r' rest res HR IH Hd Hs Hq Hok|w s o HR IH Hd Hs Hq];
    [by apply HRoot|..]; unfold outcome_inv in *; simpl; try exact IH.
  - destruct IH as [Hex Hold]. split; [|done].
    intros r0 Hr0. simplify_eq. by destruct res.
  - destruct IH as [Hex Hold]. split; [|done].
    intros r0 Hr0. simplify_eq. by destruct res.
  - destruct IH as [Hex Hold]. rewrite fmap_app. simpl. split.
    + intros r0 Hr0. simplify_eq. set_solver.
    + intros p o Hin. destruct (Hold p o Hin) as [?|[? ?]]; [by left|].
      right. split; [done|]. rewrite fmap_app. set_solver.
  - split.
    + intros r0 Hr0. simplify_eq. by destruct res.
    + intros p o' Hin. by eapply Hsettle.
  - split; [done|].
    intros p o' Hin. by eapply Hsettle.
Qed.

(** ** The invariants hold on every reachable state *)

Lemma booted_history w : booted w → history_inv w.
Proof.
  intros (t0 & ? & ? & ? & ->). exists (t0 - INTERVAL_MS). simpl.
  split; [lia|done].
Qed.

Lemma booted_window w : booted w → window_inv w.
Proof.
  intros (t0 & ? & ? & ? & ->). split; simpl; [|done].
  intros T. unfold MAX_REQUESTS_PER_MINUTE. simpl. lia.
Qed.

Lemma booted_spacing w : booted w → spacing_inv w.
Proof.
  intros (t0 & ? & ? & ? & ->) _. split; simpl; [constructor|done].
Qed.

Lemma booted_order w : booted w → order_inv w.
Proof.
  intros (t0 & ? & ? & ? & ->). unfold order_inv. simpl.
  split_and!; try done; try constructor.
  intros a b Ha. by apply not_elem_of_nil in Ha.
Qed.

Lemma booted_phase w : booted w → phase_inv w.
Proof. intros (t0 & ? & ? & ? & ->) s Hs. simpl in Hs. discriminate. Qed.

Lemma booted_conservation w : booted w → conservation w.
Proof. intros (t0 & ? & ? & ? & ->). unfold conservation. simpl. done. Qed.

Lemma reachable_history w : reachable w → history_inv w.
Proof.
  intros H. apply (history_inv_Reach booted booted_history).
  by apply reachable_Reach.
Qed.

Lemma reachable_window w : reachable w → window_inv w.
Proof.
  intros H. apply (window_inv_Reach booted booted_history booted_window).
  by apply reachable_Reach.
Qed.

Lemma reachable_spacing w : reachable w → spacing_inv w.
Proof.
  intros H. apply (spacing_inv_Reach booted booted_history booted_spacing).
  by apply reachable_Reach.
Qed.

Lemma reachable_order w : reachable w → order_inv w.
Proof.
  intros H. apply (order_inv_Reach booted booted_single booted_order).
  by apply reachable_Reach.
Qed.

Lemma reachable_phase w : reachable w → phase_inv w.
Proof.
  intros H. apply (phase_inv_Reach booted booted_phase).
  by apply reachable_Reach.
Qed.

Lemma reachable_conservation w : reachable w → conservation w.
Proof.
  intros H. apply (conservation_Reach booted booted_conservation).
  by apply reachable_Reach.
Qed.

Lemma booted_outcome w : booted w → outcome_inv w.
Proof.
  intros (t0 & ? & ? & ? & ->). split; simpl; [done|].
  intros p o Hin. by apply not_elem_of_nil in Hin.
Qed.

Lemma reachable_outcome w : reachable w → outcome_inv w.
Proof.
  intros H. apply (outcome_inv_Reach booted booted_phase booted_outcome).
  by apply reachable_Reach.
Qed.

(** ** The work left in the limiter

    An invocation takes at most [maxAttempts] timer turns, one resumption and
    one completion per request. *)

Definition turns_per_request : nat := maxAttempts + 2.

Arguments turns_per_request : simpl never.
Arguments maxAttempts : simpl never.

Definition weight (s : Suspended) : nat :=
  match s with
  | AwaitTimer _ k _ => (maxAttempts - k) + 2
  | AwaitReturned _ => 2
  | AwaitThrown _ _ => 1
  | AwaitExecute _ => 1
  end.

Definition work (w : Runtime) : nat :=
  (sum_list (weight <$> drains w)
   + turns_per_request * length (queue (this w)))%nat.

(** A turn of a [processQueue] invocation. *)
Definition drain_turn (ev : Event) : nat :=
  match ev with
  | EvTimer _ | EvResume _ _ | EvExecuted _ _ => 1
  | _ => 0
  end.

Definition is_enqueue (ev : Event) : nat :=
  match ev with
  | EvEnqueue _ _ => 1
  | _ => 0
  end.

Definition is_clear (ev : Event) : bool :=
  match ev with
  | EvClearQueue => true
  | _ => false
  end.

Lemma weight_first r now res :
  (weight (suspend r 0 now res) <= turns_per_request)%nat.
Proof. destruct res; unfold turns_per_request; cbn [weight suspend]; lia. Qed.

Lemma weight_poll r k t now res :
  (k < maxAttempts)%nat →
  (weight (suspend r (S k) now res) < weight (AwaitTimer r k t))%nat.
Proof.
  intros Hk. assert (maxAttempts - S k < maxAttempts - k)%nat by lia.
  destruct res; cbn [weight suspend]; lia.
Qed.

Lemma length_insert_request r q :
  length (insert_request r q) = S (length q).
Proof.
  destruct (insert_request_spec r q) as (front & back & -> & -> & _).
  rewrite !length_app. simpl. lia.
Qed.

Lemma continue_work now w s0 :
  drains w = [s0] →
  (work (continue 0 now w)
   <= turns_per_request * length (queue (this w)))%nat.
Proof.
  intros Hd. pose proof (continue_shape now w s0 Hd) as Hs. simpl in Hs.
  destruct Hs as (_ & _ & _ & _ & _ & _ & _ & Hs). unfold work.
  pose proof weight_first as Hwf. revert Hwf. generalize turns_per_request.
  intros T Hwf.
  destruct Hs as [(-> & -> & -> & _)|(r & res & -> & _ & -> & _)].
  - simpl. lia.
  - specialize (Hwf r now res). simpl. lia.
Qed.

Lemma getQueueStatus_frame now l :
  queue (getQueueStatus now l).2 = queue l ∧
  isProcessing (getQueueStatus now l).2 = isProcessing l ∧
  dailyCount (getQueueStatus now l).2 = dailyCount l ∧
  dailyResetTime (getQueueStatus now l).2 = dailyResetTime l.
Proof.
  unfold getQueueStatus.
  destruct (canMakeRequest _ _) as [st l2] eqn:Hc. simpl.
  apply canMakeRequest_frame in Hc. done.
Qed.

(** Every turn of an invocation uses up work; only [enqueue] adds some. *)
Lemma step_work now ev w w' :
  single_drain w → phase_inv w → step now ev w = Some w' →
  (work w' + drain_turn ev
   <= work w + turns_per_request * is_enqueue ev)%nat.
Proof.
  intros Hinv Hph Hstep. unfold step in Hstep.
  pose proof weight_first as Hwf. pose proof continue_work as Hcw.
  unfold work in *. revert Hwf Hcw. generalize turns_per_request.
  intros T Hwf Hcw.
  case_decide; [done|].
  destruct ev as [rnd prio|i|i persisted|i res|nextDay| |]; simpl in Hstep.
  - simplify_eq.
    pose proof (enqueue_shape now rnd prio (with_clock now w)) as Hs.
    simpl in Hs. destruct Hs as (_ & _ & _ & _ & _ & _ & _ & Hs).
    destruct Hinv as [(Hd & Hp & Hq)|(s & Hd & Hp)];
      destruct Hs as [(Hp' & Hs)|(Hp' & Hs)]; try congruence.
    + destruct Hs as (r' & res & Hins & _ & -> & _). rewrite Hd, Hq in *.
      assert (queue (this (enqueue now rnd prio (with_clock now w))) = [])
        as -> by (unfold insert_request in Hins; simpl in Hins; congruence).
      specialize (Hwf r' now res). simpl. lia.
    + destruct Hs as (-> & -> & _). simpl. rewrite length_insert_request. lia.
  - destruct Hinv as [(Hd & Hp & Hq)|(s & Hd & Hp)]; rewrite Hd in Hstep;
      [by rewrite lookup_nil in Hstep|].
    destruct ([s] !! i) as [x|] eqn:Hi; [|done].
    apply lookup_single in Hi as [-> ->].
    specialize (Hph _ Hd).
    destruct s as [|?|r k t|]; try done. case_decide; [done|].
    destruct (waitUntilCanRequest _ _ _) as [res l] eqn:Hw.
    apply waitUntilCanRequest_frame in Hw as (Hw & _).
    simplify_eq. simpl in *. rewrite Hd, Hw.
    pose proof (weight_poll r k t now res (proj1 Hph)).
    change (sum_list (weight <$> [AwaitTimer r k t]))
      with (weight (AwaitTimer r k t) + 0)%nat. lia.
  - destruct Hinv as [(Hd & Hp & Hq)|(s & Hd & Hp)]; rewrite Hd in Hstep;
      [by rewrite lookup_nil in Hstep|].
    destruct ([s] !! i) as [x|] eqn:Hi; [|done].
    apply lookup_single in Hi as [-> ->].
    destruct s as [r|r e| |]; try done.
    + destruct persisted; simplify_eq.
      * simpl. rewrite Hd. simpl. lia.
      * match goal with |- context [continue 0 now ?w0] =>
          pose proof (Hcw now w0 (AwaitReturned r) Hd) as Hc end.
        simpl in Hc. rewrite Hd. simpl. lia.
    + simplify_eq.
      match goal with |- context [continue 0 now ?w0] =>
        pose proof (Hcw now w0 _ Hd) as Hc end.
      simpl in Hc. rewrite Hd. simpl. lia.
  - destruct Hinv as [(Hd & Hp & Hq)|(s & Hd & Hp)]; rewrite Hd in Hstep;
      [by rewrite lookup_nil in Hstep|].
    destruct ([s] !! i) as [x|] eqn:Hi; [|done].
    apply lookup_single in Hi as [-> ->].
    destruct s as [| | |r]; try done. simplify_eq.
    match goal with |- context [continue 0 now ?w0] =>
      pose proof (Hcw now w0 _ Hd) as Hc end.
    simpl in Hc. rewrite Hd. simpl. lia.
  - simplify_eq. simpl. rewrite queue_checkDailyReset. lia.
  - simplify_eq. simpl.
    destruct (getQueueStatus_frame now (this w)) as (-> & _). lia.
  - simplify_eq. simpl. lia.
Qed.

Definition turns (evs : list (Z * Event)) : nat :=
  sum_list ((λ e, drain_turn e.2) <$> evs).

Definition enqueues (evs : list (Z * Event)) : nat :=
  sum_list ((λ e, is_enqueue e.2) <$> evs).

Lemma run_work evs w w' :
  reachable w → run evs w = Some w' →
  (work w' + turns evs <= work w + turns_per_request * enqueues evs)%nat.
Proof.
  revert w. generalize (eq_refl turns_per_request).
  generalize turns_per_request at 2 3. intros T HT.
  induction evs as [|[now ev] evs IH]; intros w HR Hrun; simpl in Hrun.
  - simplify_eq. unfold turns, enqueues. simpl. lia.
  - destruct (step now ev w) as [w1|] eqn:Hs; [|done].
    pose proof (step_work now ev w w1 (single_drain_reachable w HR)
                  (reachable_phase w HR) Hs) as Hw.
    rewrite HT in Hw.
    assert (reachable w1) as HR1 by (eapply reachable_step; eauto).
    specialize (IH w1 HR1 Hrun).
    change (turns ((now, ev) :: evs)) with (drain_turn ev + turns evs)%nat.
    change (enqueues ((now, ev) :: evs))
      with (is_enqueue ev + enqueues evs)%nat.
    lia.
Qed.

(** A suspended invocation can always take its next turn. *)
Lemma drain_can_turn w s :
  drains w = [s] →
  ∃ t, ∀ now, t <= now →
    ∃ ev w', drain_turn ev = 1%nat ∧ step now ev w = Some w'.
Proof.
  intros Hd.
  exists (Z.max (clock w)
            (match s with AwaitTimer _ _ t => t | _ => clock w end)).
  intros now Hnow. unfold step.
  destruct s as [r|r e|r k t|r].
  - exists (EvResume 0 true). eexists. split; [done|].
    case_decide; [lia|]. simpl. rewrite Hd. simpl. done.
  - exists (EvResume 0 true). eexists. split; [done|].
    case_decide; [lia|]. simpl. rewrite Hd. simpl. done.
  - exists (EvTimer 0). destruct (waitUntilCanRequest now (S k) (this w))
      as [res l] eqn:Hw. eexists. split; [done|].
    case_decide; [lia|]. simpl. rewrite Hd. simpl.
    case_decide; [lia|]. rewrite Hw. done.
  - exists (EvExecuted 0 (inl ""%string)). eexists. split; [done|].
    case_decide; [lia|]. simpl. rewrite Hd. simpl. done.
Qed.

(** Only [clearQueue] throws requests away. *)
Lemma step_cleared now ev w w' :
  single_drain w → step now ev w = Some w' →
  cleared w' = cleared w ++ (if is_clear ev then queue (this w) else []).
Proof.
  intros Hinv Hstep. unfold step in Hstep.
  case_decide; [done|].
  destruct ev as [rnd prio|i|i persisted|i res|nextDay| |]; simpl in *;
    rewrite ?app_nil_r.
  - simplify_eq.
    pose proof (enqueue_shape now rnd prio (with_clock now w)) as Hs.
    simpl in Hs. by destruct Hs as (_ & _ & _ & _ & -> & _).
  - destruct (drains w !! i) as [[| |r k t|]|]; try done.
    case_decide; [done|].
    destruct (waitUntilCanRequest _ _ _). by simplify_eq.
  - destruct Hinv as [(Hd & Hp & Hq)|(s & Hd & Hp)]; rewrite Hd in Hstep;
      [by rewrite lookup_nil in Hstep|].
    destruct ([s] !! i) as [x|] eqn:Hi; [|done].
    apply lookup_single in Hi as [-> ->].
    destruct s as [r|r e| |]; try done.
    + destruct persisted; simplify_eq; [done|].
      match goal with |- context [continue 0 now ?w0] =>
        pose proof (continue_shape now w0 _ Hd) as Hs end.
      simpl in Hs. by destruct Hs as (_ & _ & _ & _ & -> & _).
    + simplify_eq.
      match goal with |- context [continue 0 now ?w0] =>
        pose proof (continue_shape now w0 _ Hd) as Hs end.
      simpl in Hs. by destruct Hs as (_ & _ & _ & _ & -> & _).
  - destruct Hinv as [(Hd & Hp & Hq)|(s & Hd & Hp)]; rewrite Hd in Hstep;
      [by rewrite lookup_nil in Hstep|].
    destruct ([s] !! i) as [x|] eqn:Hi; [|done].
    apply lookup_single in Hi as [-> ->].
    destruct s as [| | |r]; try done. simplify_eq.
    match goal with |- context [continue 0 now ?w0] =>
      pose proof (continue_shape now w0 _ Hd) as Hs end.
    simpl in Hs. by destruct Hs as (_ & _ & _ & _ & -> & _).
  - by simplify_eq.
  - by simplify_eq.
  - by simplify_eq.
Qed.

Definition never_cleared (evs : list (Z * Event)) : Prop :=
  Forall (λ e, is_clear e.2 = false) evs.

Lemma run_never_cleared evs w w' :
  reachable w → never_cleared evs → run evs w = Some w' →
  cleared w' = cleared w.
Proof.
  revert w. induction evs as [|[now ev] evs IH]; intros w HR Hnc Hrun;
    simpl in *.
  - by simplify_eq.
  - destruct (step now ev w) as [w1|] eqn:Hs; [|done].
    apply Forall_cons in Hnc as [Hev Hnc]. simpl in Hev.
    pose proof (step_cleared now ev w w1 (single_drain_reachable w HR) Hs) as Hc.
    rewrite Hev, app_nil_r in Hc. rewrite <- Hc.
    apply IH; [eapply reachable_step; eauto|done|done].
Qed.

(** ** While the daily quota is used up *)

Definition quota_error : Error := LimitError (Some DailyLimit).

(** What holds of [w], reached from [w0] where the counter stood at the
    limit, as long as the clock has not reached the reset time of [w0]. *)
Definition quota_inv (w0 w : Runtime) : Prop :=
  clock w < dailyResetTime (this w0) →
  dailyCount (this w) = dailyCount (this w0) ∧
  dailyResetTime (this w) = dailyResetTime (this w0) ∧
  recorded w = recorded w0 ∧
  (∀ s, drains w = [s] →
        (∃ r, s = AwaitExecute r) ∨ (∃ r, s = AwaitThrown r quota_error)) ∧
  ∃ fresh, dequeued w = dequeued w0 ++ fresh ∧
    ∀ r, r ∈ fresh →
      (promise r, Rejected quota_error) ∈ settled w ∨
      drains w = [AwaitThrown r quota_error].

Lemma wait_ok_quota now l res :
  MAX_DAILY_REQUESTS <= dailyCount l → wait_ok now 0 l res →
  res = WThrow quota_error.
Proof.
  intros Hq. destruct res as [|e|t]; simpl.
  - intros (_ & ? & _). lia.
  - intros [(-> & _)|(_ & ?)]; [done|]. unfold maxAttempts in *. lia.
  - intros (_ & ?). lia.
Qed.

Lemma quota_inv_Reach w0 :
  MAX_DAILY_REQUESTS <= dailyCount (this w0) →
  quota_inv w0 w0 →
  ∀ w, ReachFrom (eq w0) w → quota_inv w0 w.
Proof.
  intros Hq HRoot w HR.
  induction HR as [w HR|w now HR IH|w nextDay HR IH|w HR IH|w HR IH
                 |w rnd prio s HR IH Hd|w rnd prio res HR IH Hd Hok
                 |w r k t res HR IH Hd Hok|w r HR IH Hd
                 |w s o r' rest res HR IH Hd Hs Hq' Hok|w s o HR IH Hd Hs Hq'];
    [by subst|..]; unfold quota_inv in *; simpl; try exact IH; intros Hclk.
  - apply IH. lia.
  - destruct (IH Hclk) as (Hc & Hr & Ha & Hph & Hfresh).
    unfold checkDailyReset. case_decide; [lia|]. done.
  - destruct (IH Hclk) as (Hc & Hr & Ha & Hph & fresh & Hdq & Hfresh).
    apply wait_ok_quota in Hok as ->; [|lia]. simpl.
    split_and!; try done; [intros ? [= <-]; eauto|].
    exists (fresh ++ [fresh_request w rnd prio]).
    split; [by rewrite Hdq, app_assoc|].
    intros r Hr'. apply elem_of_app in Hr' as [Hr'|Hr'].
    + left. destruct (Hfresh r Hr') as [?|?]; [done|congruence].
    + apply list_elem_of_singleton in Hr' as ->. by right.
  - destruct (IH Hclk) as (_ & _ & _ & Hph & _).
    destruct (Hph _ Hd) as [[? ?]|[? ?]]; done.
  - destruct (IH Hclk) as (_ & _ & _ & Hph & _).
    destruct (Hph _ Hd) as [[? ?]|[? ?]]; done.
  - destruct (IH Hclk) as (Hc & Hr & Ha & Hph & fresh & Hdq & Hfresh).
    apply wait_ok_quota in Hok as ->; [|lia]. simpl.
    split_and!; try done; [intros ? [= <-]; eauto|].
    exists (fresh ++ [r']).
    split; [by rewrite Hdq, app_assoc|].
    intros r Hr'. apply elem_of_app in Hr' as [Hr'|Hr'].
    + left. destruct (Hfresh r Hr') as [?|Hd']; [set_solver|].
      rewrite Hd in Hd'. simplify_eq. simpl in *. subst o. set_solver.
    + apply list_elem_of_singleton in Hr' as ->. by right.
  - destruct (IH Hclk) as (Hc & Hr & Ha & Hph & fresh & Hdq & Hfresh).
    split_and!; try done.
    exists fresh. split; [done|].
    intros r Hr'. left. destruct (Hfresh r Hr') as [?|Hd']; [set_solver|].
    rewrite Hd in Hd'. simplify_eq. simpl in *. subst o. set_solver.
Qed.

Lemma reachable_quota_root w0 :
  reachable w0 → MAX_DAILY_REQUESTS <= dailyCount (this w0) →
  quota_inv w0 w0.
Proof.
  intros HR Hq _. split_and!; try done.
  - intros s Hd. pose proof (reachable_phase w0 HR s Hd) as Hph.
    destruct s as [r|r e|r k t|r]; [lia| |lia|eauto].
    destruct Hph as [->|[_ ?]]; [|lia]. right. by exists r.
  - exists []. rewrite app_nil_r. split; [done|].
    intros r Hr. by apply not_elem_of_nil in Hr.
Qed.

(** ** A run used to exercise the statements

    Two requests of priority 0 and one of priority 10 arrive at the same
    instant; the first is let through at once and takes 400 ms; the other
    two follow 12.5 s apart in priority order. *)
Definition sample_run : list (Z * Event) :=
  [ (1000, EvEnqueue 11 0);
    (1000, EvEnqueue 12 0);
    (1000, EvEnqueue 13 10);
    (1001, EvResume 0 true);
    (1400, EvExecuted 0 (inl "quote"%string));
    (13501, EvTimer 0);
    (13502, EvResume 0 true);
    (13900, EvExecuted 0 (inr "HTTP 500"%string));
    (26002, EvTimer 0);
    (26003, EvResume 0 true);
    (26500, EvExecuted 0 (inl "quote"%string)) ].

Definition sample_boot : Runtime := boot 1000 (Some 7) true 86400000.

Lemma reachable_boot_run t0 stored today nextDay evs w :
  run evs (boot t0 stored today nextDay) = Some w → reachable w.
Proof. apply run_reachable. constructor. Qed.

Definition sample_state : Runtime :=
  Eval vm_compute in default sample_boot (run sample_run sample_boot).

Lemma sample_state_reachable : reachable sample_state.
Proof.
  apply (reachable_boot_run 1000 (Some 7) true 86400000 sample_run).
  vm_compute. reflexivity.
Qed.

Lemma StronglySorted_lookup_lt {A} (R : relation A) (l : list A) i j a b :
  StronglySorted R l → (i < j)%nat →
  l !! i = Some a → l !! j = Some b → R a b.
Proof.
  intros Hs Hij Ha Hb.
  rewrite <- (take_drop_middle l j b Hb) in Hs.
  eapply StronglySorted_app_1_elem_of; [exact Hs| |by left].
  apply (list_elem_of_lookup_2 _ i). by rewrite lookup_take_lt.
Qed.

(** ** The properties of the design document *)

(** C2. Any two timestamps recorded by [processQueue] are at least
    [MIN_REQUEST_SPACING_MS] (12.5 s) apart.  The spacing test of
    [canMakeRequest] is [lastRequest && ...], which a timestamp of 0 (the
    first millisecond of 1970) would switch off; the statement is for clocks
    that do not read 0 at an admission. *)
Theorem admissions_are_spaced w :
  reachable w →
  Forall (λ a, a ≠ 0) (stamps w) →
  ∀ i j ti tj, i ≠ j →
    stamps w !! i = Some ti → stamps w !! j = Some tj →
    MIN_REQUEST_SPACING_MS <= Z.abs (tj - ti).
Proof.
  intros HR Hnz i j ti tj Hij Hi Hj.
  destruct (reachable_spacing w HR Hnz) as [Hsorted _].
  destruct (decide (i < j)%nat) as [Hlt|Hge].
  - pose proof (StronglySorted_lookup_lt spaced _ i j ti tj Hsorted Hlt Hi Hj)
      as Hs. unfold spaced in Hs. lia.
  - assert (j < i)%nat as Hlt by lia.
    pose proof (StronglySorted_lookup_lt spaced _ j i tj ti Hsorted Hlt Hj Hi)
      as Hs. unfold spaced in Hs. lia.
Qed.

Lemma admissions_are_spaced_witness :
  reachable sample_state ∧ Forall (λ a, a ≠ 0) (stamps sample_state) ∧
  MIN_REQUEST_SPACING_MS <= Z.abs (13502 - 1001).
Proof.
  assert (Forall (λ a, a ≠ 0) (stamps sample_state)) as Hnz
    by (unfold stamps, sample_state; simpl; repeat constructor; lia).
  split; [exact sample_state_reachable|].
  split; [exact Hnz|].
  apply (admissions_are_spaced sample_state sample_state_reachable
           Hnz 0%nat 1%nat 1001 13502);
    [lia|reflexivity|reflexivity].
Defined.

(** Why the statement above asks for timestamps other than 0: with the
    clock at 0 the first timestamp is falsy, the spacing test is skipped,
    and a second request goes through 5 ms later. *)
Example spacing_test_is_off_at_the_epoch :
  stamps <$> run [ (0, EvEnqueue 1 0); (0, EvResume 0 true);
                   (0, EvExecuted 0 (inl ""%string));
                   (5, EvEnqueue 2 0); (5, EvResume 0 true) ]
                 (boot 0 None false 86400000)
  = Some [0; 5].
Proof. vm_compute. reflexivity. Qed.

(** C3. In any window of [INTERVAL_MS] (60 s) ending at a time [T] at most
    [MAX_REQUESTS_PER_MINUTE] (5) timestamps were recorded; once the daily
    counter is below its limit [canMakeRequest] keeps exactly the timestamps
    younger than 60 s, and it never allows a request while five or more of
    them remain. *)
Theorem at_most_five_per_window w :
  reachable w →
  (∀ T, (length (filter (in_window T) (stamps w))
           <= MAX_REQUESTS_PER_MINUTE)%nat) ∧
  (∀ now l st l', canMakeRequest now l = (st, l') →
     (dailyCount l < MAX_DAILY_REQUESTS →
      requestHistory l' = prune now (requestHistory l)) ∧
     ((MAX_REQUESTS_PER_MINUTE <= length (prune now (requestHistory l)))%nat →
      allowed st = false)) ∧
  (∀ now h ts, ts ∈ prune now h ↔ now - ts < INTERVAL_MS ∧ ts ∈ h).
Proof.
  intros HR. split_and!.
  - apply (reachable_window w HR).
  - intros now l st l' Hc. split.
    + intros Hd. apply canMakeRequest_history in Hc as [(? & _)|(_ & ?)];
        [lia|done].
    + intros Hn. destruct (allowed st) eqn:Ha; [|done].
      apply canMakeRequest_allowed in Hc as (_ & Hh & Hlt & _); [|done].
      rewrite Hh in Hlt. lia.
  - intros now h ts. unfold prune. by rewrite list_elem_of_filter.
Qed.

Lemma at_most_five_per_window_witness :
  reachable sample_state ∧
  (length (filter (in_window 60000) (stamps sample_state)) <= 5)%nat.
Proof.
  split; [exact sample_state_reachable|].
  apply (at_most_five_per_window sample_state sample_state_reachable).
Defined.

(** What a call of [enqueue] does to the queue: on a limiter with a running
    invocation the request goes in front of the first queued request of
    strictly lower priority, or to the end when there is none, and nothing
    leaves the queue; on an idle limiter the queue is empty, and
    [processQueue] takes the request at once. *)
Lemma enqueue_inserts now rnd prio w w' :
  reachable w → step now (EvEnqueue rnd prio) w = Some w' →
  let r := {| id := (now, rnd); promise := enqueued w;
              priority := prio; timestamp := now |} in
  enqueued w' = S (enqueued w) ∧
  ((drains w ≠ [] ∧ drains w' = drains w ∧ dequeued w' = dequeued w ∧
    ∃ front back,
      queue (this w) = front ++ back ∧
      queue (this w') = front ++ r :: back ∧
      Forall (λ x, prio <= priority x) front ∧
      match back with
      | [] => True
      | y :: _ => priority y < prio
      end) ∨
   (drains w = [] ∧ queue (this w) = [] ∧ queue (this w') = [] ∧
    dequeued w' = dequeued w ++ [r] ∧ ∃ s, drains w' = [s] ∧ held s = r)).
Proof.
  intros HR Hstep r. unfold step in Hstep. case_decide; [done|]. simplify_eq.
  pose proof (enqueue_shape now rnd prio (with_clock now w)) as Hs.
  simpl in Hs. fold r in Hs.
  destruct Hs as (_ & He & _ & _ & _ & _ & _ & Hs). split; [exact He|].
  destruct (single_drain_reachable w HR) as [(Hd & Hp & Hq)|(s & Hd & Hp)];
    destruct Hs as [(Hp' & Hdr & Hthis & Hdq)|(Hp' & r' & res & Hi & _ & Hdr & _ & Hdq)];
    try congruence.
  - right. rewrite Hq in Hi. cbn in Hi. injection Hi as <- Hq'.
    split_and!; [done|done|done|done|].
    exists (suspend r 0 now res). rewrite Hdr, Hd. split; [done|].
    by destruct res.
  - left. rewrite Hd. split; [done|]. split; [by rewrite Hdr, Hd|].
    split; [done|]. rewrite Hthis. simpl.
    destruct (insert_request_spec r (queue (this w)))
      as (front & back & Hq & Hins & Hf & Hb).
    exists front, back. done.
Qed.

(** What a turn of the running invocation does to the queue: nothing, or
    it settles the request it holds and goes round the loop of
    [processQueue], where [queue.shift()] takes the head. *)
Lemma drain_takes_head now ev w w' :
  reachable w → step now ev w = Some w' → drain_turn ev = 1%nat →
  (queue (this w') = queue (this w) ∧ dequeued w' = dequeued w ∧
   settled w' = settled w) ∨
  (∃ p o, settled w' = settled w ++ [(p, o)] ∧
     match queue (this w) with
     | [] => queue (this w') = [] ∧ dequeued w' = dequeued w ∧ drains w' = []
     | r :: rest =>
         queue (this w') = rest ∧ dequeued w' = dequeued w ++ [r] ∧
         ∃ s, drains w' = [s] ∧ held s = r
     end).
Proof.
  intros HR Hstep Hturn.
  assert (∀ w0 s0, drains w0 = [s0] →
            match queue (this w0) with
            | [] => queue (this (continue 0 now w0)) = [] ∧
                    dequeued (continue 0 now w0) = dequeued w0 ∧
                    drains (continue 0 now w0) = []
            | r :: rest =>
                queue (this (continue 0 now w0)) = rest ∧
                dequeued (continue 0 now w0) = dequeued w0 ++ [r] ∧
                ∃ s, drains (continue 0 now w0) = [s] ∧ held s = r
            end ∧ settled (continue 0 now w0) = settled w0) as Hcont.
  { intros w0 s0 Hd0.
    pose proof (continue_shape now w0 s0 Hd0) as Hs. simpl in Hs.
    destruct Hs as (_ & _ & _ & Hset & _ & _ & _ & Hs). split; [|done].
    destruct Hs as [(Hq & Hdr & Hq' & _ & Hdq & _)
                   |(r & res & Hq & _ & Hdr & _ & Hdq)].
    - rewrite Hq. done.
    - rewrite Hq. split_and!; [done|done|].
      exists (suspend r 0 now res). split; [done|]. by destruct res. }
  unfold step in Hstep. case_decide; [done|].
  destruct (single_drain_reachable w HR) as [(Hd & _)|(s & Hd & _)];
    destruct ev as [rnd prio|i|i persisted|i res|nextDay| |]; try done;
    simpl in Hstep; rewrite Hd in Hstep;
    try (by rewrite lookup_nil in Hstep);
    (destruct ([s] !! i) as [x|] eqn:Hi; [|done]);
    apply lookup_single in Hi as [-> ->].
  - destruct s as [| |r k t|]; try done. case_decide; [done|].
    destruct (waitUntilCanRequest _ _ _) as [res l] eqn:Hw.
    apply waitUntilCanRequest_frame in Hw as (Hq & _).
    simplify_eq. left. done.
  - destruct s as [r|r e| |]; try done.
    + destruct persisted; simplify_eq; [by left|]. right.
      match goal with |- context [continue 0 now ?w0] =>
        destruct (Hcont w0 (AwaitReturned r) Hd) as [Hh Hset] end.
      simpl in *. eexists _, _. split; [exact Hset|]. exact Hh.
    + simplify_eq. right.
      match goal with |- context [continue 0 now ?w0] =>
        destruct (Hcont w0 (AwaitThrown r e) Hd) as [Hh Hset] end.
      simpl in *. eexists _, _. split; [exact Hset|]. exact Hh.
  - destruct s as [| | |r]; try done. simplify_eq. right.
    match goal with |- context [continue 0 now ?w0] =>
      destruct (Hcont w0 (AwaitExecute r) Hd) as [Hh Hset] end.
    simpl in *. eexists _, _. split; [exact Hset|]. exact Hh.
Qed.

(** C4. Requests leave the queue so that one that arrived earlier and has
    at least the priority of another leaves before it: higher priority
    first among those waiting together, arrival order within a priority.
    The same holds of the order of admission, and the queue itself is
    ordered that way.  A call of [enqueue] puts its request in front of the
    first queued request of strictly lower priority, or at the end when
    there is none (on an idle limiter the queue is empty and the request is
    taken at once); and whenever the running invocation has settled a
    request, it takes the head of the queue next. *)
Theorem priority_then_arrival_order w :
  reachable w →
  (∀ i j a b, dequeued w !! i = Some a → dequeued w !! j = Some b →
     (promise a < promise b)%nat → priority b <= priority a → (i < j)%nat) ∧
  (∀ i j a b, (recorded w).*2 !! i = Some a → (recorded w).*2 !! j = Some b →
     (promise a < promise b)%nat → priority b <= priority a → (i < j)%nat) ∧
  StronglySorted outranks (queue (this w)) ∧
  (∀ now rnd prio w',
     step now (EvEnqueue rnd prio) w = Some w' →
     let r := {| id := (now, rnd); promise := enqueued w;
                 priority := prio; timestamp := now |} in
     enqueued w' = S (enqueued w) ∧
     ((drains w ≠ [] ∧ drains w' = drains w ∧ dequeued w' = dequeued w ∧
       ∃ front back,
         queue (this w) = front ++ back ∧
         queue (this w') = front ++ r :: back ∧
         Forall (λ x, prio <= priority x) front ∧
         match back with
         | [] => True
         | y :: _ => priority y < prio
         end) ∨
      (drains w = [] ∧ queue (this w) = [] ∧ queue (this w') = [] ∧
       dequeued w' = dequeued w ++ [r] ∧
       ∃ s, drains w' = [s] ∧ held s = r))) ∧
  (∀ now ev w',
     step now ev w = Some w' → drain_turn ev = 1%nat →
     (queue (this w') = queue (this w) ∧ dequeued w' = dequeued w ∧
      settled w' = settled w) ∨
     (∃ p o, settled w' = settled w ++ [(p, o)] ∧
        match queue (this w) with
        | [] =>
            queue (this w') = [] ∧ dequeued w' = dequeued w ∧ drains w' = []
        | r :: rest =>
            queue (this w') = rest ∧ dequeued w' = dequeued w ++ [r] ∧
            ∃ s, drains w' = [s] ∧ held s = r
        end)).
Proof.
  intros HR.
  destruct (reachable_order w HR) as (Hqs & _ & _ & Hds & _ & Hsub & _).
  assert (∀ l, StronglySorted in_order l →
            ∀ i j a b, l !! i = Some a → l !! j = Some b →
              (promise a < promise b)%nat → priority b <= priority a →
              (i < j)%nat) as Hord.
  { intros l Hl i j a b Hi Hj Hp Hq.
    destruct (decide (i < j)%nat) as [|Hge]; [done|].
    destruct (decide (i = j)) as [->|Hne]; [simplify_eq; lia|].
    assert (j < i)%nat as Hlt by lia.
    pose proof (StronglySorted_lookup_lt in_order l j i b a Hl Hlt Hj Hi) as Hs.
    unfold in_order in Hs. tauto. }
  split_and!.
  - by apply Hord.
  - apply Hord. by eapply StronglySorted_sublist_of.
  - done.
  - intros now rnd prio w' Hstep. by apply enqueue_inserts.
  - intros now ev w' Hstep Hturn. by eapply drain_takes_head.
Qed.

(** Two requests of priority 0 enqueued on a fresh page: the first is held
    by the invocation, the second waits in the queue. *)
Definition one_queued : Runtime :=
  Eval vm_compute in
    default sample_boot
      (run [(1000, EvEnqueue 11 0); (1000, EvEnqueue 12 0)] sample_boot).

(** A third call, of priority 10, a second later. *)
Definition overtaken : Runtime :=
  Eval vm_compute in
    default one_queued (step 2000 (EvEnqueue 13 10) one_queued).

Lemma one_queued_reachable : reachable one_queued.
Proof.
  apply (reachable_boot_run 1000 (Some 7) true 86400000
           [(1000, EvEnqueue 11 0); (1000, EvEnqueue 12 0)]).
  vm_compute. reflexivity.
Qed.

Lemma priority_then_arrival_order_witness :
  reachable one_queued ∧
  step 2000 (EvEnqueue 13 10) one_queued = Some overtaken ∧
  queue (this overtaken)
  = [ {| id := (2000, 13); promise := 2; priority := 10; timestamp := 2000 |};
      {| id := (1000, 12); promise := 1; priority := 0; timestamp := 1000 |} ].
Proof.
  assert (step 2000 (EvEnqueue 13 10) one_queued = Some overtaken) as Hstep
    by (vm_compute; reflexivity).
  split; [exact one_queued_reachable|]. split; [exact Hstep|].
  destruct (priority_then_arrival_order one_queued one_queued_reachable)
    as (_ & _ & _ & Henq & _).
  destruct (Henq 2000 13 10 overtaken Hstep)
    as (_ & [(_ & _ & _ & front & back & Hq & Hq' & Hfront & _)
            |(Hidle & _)]); [|discriminate Hidle].
  destruct front as [|x front].
  - simpl in Hq, Hq'. rewrite Hq', <- Hq. reflexivity.
  - simpl in Hq. injection Hq as <- _.
    apply Forall_cons in Hfront as [Hx _]. simpl in Hx. lia.
Defined.

(** C9. At most one invocation of [processQueue] is suspended at any time,
    the flag [isProcessing] is up exactly while there is one, and an
    [enqueue] that finds one (however many such calls arrive) leaves it as
    the only one. *)
Theorem single_drain_loop w :
  reachable w →
  (length (drains w) <= 1)%nat ∧
  (isProcessing (this w) = true ↔ drains w ≠ []) ∧
  (∀ now rnd prio w', drains w ≠ [] →
     step now (EvEnqueue rnd prio) w = Some w' → drains w' = drains w).
Proof.
  intros HR. pose proof (single_drain_reachable w HR) as Hsd.
  split_and!.
  - destruct Hsd as [(-> & _)|(s & -> & _)]; simpl; lia.
  - destruct Hsd as [(-> & -> & _)|(s & -> & ->)]; split; done.
  - intros now rnd prio w' Hne Hstep. unfold step in Hstep.
    case_decide; [done|]. simplify_eq.
    pose proof (enqueue_shape now rnd prio (with_clock now w)) as Hs.
    simpl in Hs. destruct Hs as (_ & _ & _ & _ & _ & _ & _ & Hs).
    destruct Hsd as [(Hd & _)|(s & Hd & Hp)]; [done|].
    destruct Hs as [(_ & -> & _)|(Hp' & _)]; [done|congruence].
Qed.

Definition busy_state : Runtime :=
  Eval vm_compute in
    default sample_boot (run [(1000, EvEnqueue 11 0)] sample_boot).

Lemma busy_state_reachable : reachable busy_state.
Proof.
  apply (reachable_boot_run 1000 (Some 7) true 86400000 [(1000, EvEnqueue 11 0)]).
  vm_compute. reflexivity.
Qed.

Lemma single_drain_loop_witness :
  reachable busy_state ∧ (length (drains busy_state) <= 1)%nat.
Proof.
  split; [exact busy_state_reachable|].
  apply (single_drain_loop busy_state busy_state_reachable).
Defined.

(** C1. Once [dailyCount] has reached [MAX_DAILY_REQUESTS] (500) the
    admission check refuses with the daily-limit reason and
    [waitUntilCanRequest] throws that error in its first turn, without
    sleeping.  As long as the clock stays below [dailyResetTime] nothing is
    let through, the counter keeps its value, no invocation sits in the polling
    loop, and every request taken from the queue is rejected with the quota
    error.  [checkDailyReset] does nothing before [dailyResetTime]; run at
    or after it, it puts the counter back to 0 and moves the reset time on,
    after which admission depends on the window and spacing tests alone. *)
Theorem daily_quota_blocks_until_reset w0 evs w :
  reachable w0 →
  MAX_DAILY_REQUESTS <= dailyCount (this w0) →
  run evs w0 = Some w →
  (∀ now k, (k < maxAttempts)%nat →
     canMakeRequest now (this w0)
       = ({| allowed := false; reason := Some DailyLimit |}, this w0) ∧
     waitUntilCanRequest now k (this w0) = (WThrow quota_error, this w0)) ∧
  (clock w < dailyResetTime (this w0) →
     dailyCount (this w) = dailyCount (this w0) ∧
     recorded w = recorded w0 ∧
     (∀ s, drains w = [s] →
        (∃ r, s = AwaitExecute r) ∨ (∃ r, s = AwaitThrown r quota_error)) ∧
     ∃ fresh, dequeued w = dequeued w0 ++ fresh ∧
       ∀ r, r ∈ fresh →
         (promise r, Rejected quota_error) ∈ settled w ∨
         drains w = [AwaitThrown r quota_error]) ∧
  (∀ now nextDay,
     (now < dailyResetTime (this w0) →
      checkDailyReset now nextDay (this w0) = this w0) ∧
     (dailyResetTime (this w0) <= now →
      dailyCount (checkDailyReset now nextDay (this w0)) = 0 ∧
      dailyResetTime (checkDailyReset now nextDay (this w0)) = nextDay ∧
      ∀ now',
        (length (prune now' (requestHistory (this w0)))
           < MAX_REQUESTS_PER_MINUTE)%nat →
        (∀ x, last (prune now' (requestHistory (this w0))) = Some x →
              MIN_REQUEST_SPACING_MS <= now' - x) →
        allowed (canMakeRequest now'
                   (checkDailyReset now nextDay (this w0))).1 = true)).
Proof.
  intros HR Hq Hrun. split_and!.
  - intros now k Hk.
    assert (canMakeRequest now (this w0)
            = ({| allowed := false; reason := Some DailyLimit |}, this w0))
      as Hc by (unfold canMakeRequest; case_decide; [done|lia]).
    split; [done|].
    unfold waitUntilCanRequest. case_decide; [|lia]. rewrite Hc. simpl.
    case_decide; [done|lia].
  - intros Hclk.
    assert (ReachFrom (eq w0) w) as HRf.
    { eapply Reach_run; [|by apply Reach_root|exact Hrun].
      intros ? <-. by apply single_drain_reachable. }
    destruct (quota_inv_Reach w0 Hq (reachable_quota_root w0 HR Hq) w HRf Hclk)
      as (? & ? & ? & ? & ?). done.
  - intros now nextDay. unfold checkDailyReset. split.
    + intros Hlt. case_decide; [lia|done].
    + intros Hge. case_decide; [|lia]. simpl. split_and!; try done.
      intros now' Hn Hs. unfold canMakeRequest. simpl.
      case_decide; [unfold MAX_DAILY_REQUESTS in *; lia|].
      destruct (last (prune now' (requestHistory (this w0)))) as [x|] eqn:Hl;
        [|done].
      specialize (Hs x eq_refl).
      rewrite (bool_decide_eq_false_2 (now' - x < MIN_REQUEST_SPACING_MS))
        by lia.
      by rewrite andb_false_r.
Qed.

Definition quota_boot : Runtime := boot 1000 (Some 500) true 86400000.

Definition quota_run : list (Z * Event) :=
  [ (2000, EvEnqueue 21 10); (2000, EvEnqueue 22 0);
    (2001, EvResume 0 true); (3000, EvDailyTick 172800000) ].

Definition quota_state : Runtime :=
  Eval vm_compute in default quota_boot (run quota_run quota_boot).

Lemma daily_quota_blocks_until_reset_witness :
  reachable quota_boot ∧
  MAX_DAILY_REQUESTS <= dailyCount (this quota_boot) ∧
  run quota_run quota_boot = Some quota_state ∧
  (clock quota_state < dailyResetTime (this quota_boot) →
   dailyCount (this quota_state) = 500 ∧ recorded quota_state = []).
Proof.
  assert (reachable quota_boot) as HR by constructor.
  assert (MAX_DAILY_REQUESTS <= dailyCount (this quota_boot)) as Hq
    by (vm_compute; discriminate).
  assert (run quota_run quota_boot = Some quota_state) as Hrun
    by (vm_compute; reflexivity).
  split; [exact HR|]. split; [exact Hq|]. split; [exact Hrun|].
  intros Hclk.
  destruct (daily_quota_blocks_until_reset quota_boot quota_run quota_state
              HR Hq Hrun) as (_ & H & _).
  destruct (H Hclk) as (H1 & H2 & _). split; [exact H1|exact H2].
Defined.

Lemma cleared_stays w0 r :
  r ∈ cleared w0 → ∀ w, ReachFrom (eq w0) w → r ∈ cleared w.
Proof.
  intros Hr w HR.
  induction HR as [w HR|w now HR IH|w nextDay HR IH|w HR IH|w HR IH
                 |w rnd prio s HR IH Hd|w rnd prio res HR IH Hd Hok
                 |w r0 k t res HR IH Hd Hok|w r0 HR IH Hd
                 |w s o r' rest res HR IH Hd Hs Hq' Hok|w s o HR IH Hd Hs Hq'];
    [by subst|..]; simpl; try exact IH.
  apply elem_of_app. by left.
Qed.

Lemma cleared_never_settled w r o :
  reachable w → r ∈ cleared w → (promise r, o) ∉ settled w.
Proof.
  intros HR Hr Hin.
  pose proof (reachable_conservation w HR) as Hc. unfold conservation in Hc.
  pose proof (NoDup_seq 0 (enqueued w)) as Hnd. rewrite <- Hc in Hnd.
  apply NoDup_app in Hnd as (_ & _ & Hnd).
  apply NoDup_app in Hnd as (_ & Hdis & _).
  apply (Hdis (promise r)).
  - apply list_elem_of_fmap. by exists (promise r, o).
  - by apply list_elem_of_fmap_2.
Qed.

(** C8, as stated, fails: [clearQueue] empties the queue without resolving
    or rejecting the requests in it.  Two requests are enqueued at the same
    instant; the first is taken by [processQueue], the second waits in the
    queue; [clearQueue] removes it, and whatever happens afterwards its
    promise is never settled. *)
Lemma clearQueue_leaves_promise_pending :
  ∃ w r,
    run [(1000, EvEnqueue 31 0); (1000, EvEnqueue 32 0); (1000, EvClearQueue)]
        (boot 1000 None false 86400000) = Some w ∧
    promise r = 1%nat ∧ (promise r < enqueued w)%nat ∧
    ∀ evs w', run evs w = Some w' → ∀ o, (promise r, o) ∉ settled w'.
Proof.
  eexists.
  exists {| id := (1000, 32); promise := 1; priority := 0; timestamp := 1000 |}.
  split; [vm_compute; reflexivity|].
  split; [reflexivity|]. split; [simpl; lia|].
  intros evs w' Hrun o.
  match type of Hrun with run _ ?w0 = _ =>
    assert (reachable w0) as HR0
      by (apply (reachable_boot_run 1000 None false 86400000
                   [(1000, EvEnqueue 31 0); (1000, EvEnqueue 32 0);
                    (1000, EvClearQueue)]); vm_compute; reflexivity);
    assert (ReachFrom (eq w0) w') as HRf
      by (eapply Reach_run; [|by apply Reach_root|exact Hrun];
          intros ? <-; by apply single_drain_reachable)
  end.
  apply cleared_never_settled; [by eapply run_reachable|].
  eapply cleared_stays; [|exact HRf]. simpl. set_solver.
Qed.

(** C8, amended.  In a run without [clearQueue]: every promise handed out
    by [enqueue] is settled or its request is still in the queue or held by
    the invocation of [processQueue]; a settled one was turned away by the
    admission wait (daily quota, or the timeout after [maxAttempts] polls)
    or was let through and settled with the action's result (or with the error
    of persisting the counter); a suspended invocation can always take
    another turn; the turns taken so far plus the work left are at most
    [turns_per_request] per enqueued request; and once no invocation is
    left, every promise is settled. *)
Theorem requests_settle_unless_cleared t0 stored today nextDay evs w :
  run evs (boot t0 stored today nextDay) = Some w →
  never_cleared evs →
  (∀ p, (p < enqueued w)%nat →
     p ∈ promise <$> pending w ∨
     ∃ o, (p, o) ∈ settled w ∧
          (turned_away o ∨
           (after_admission o ∧ p ∈ promise <$> (recorded w).*2))) ∧
  (drains w ≠ [] →
     ∃ t, ∀ now, t <= now →
       ∃ ev w', drain_turn ev = 1%nat ∧ step now ev w = Some w') ∧
  (work w + turns evs <= turns_per_request * enqueues evs)%nat ∧
  (drains w = [] →
     ∀ p, (p < enqueued w)%nat → ∃ o, (p, o) ∈ settled w).
Proof.
  intros Hrun Hnc.
  assert (reachable (boot t0 stored today nextDay)) as HR0 by constructor.
  assert (reachable w) as HR by (by eapply run_reachable).
  pose proof (run_never_cleared _ _ _ HR0 Hnc Hrun) as Hcl. simpl in Hcl.
  pose proof (reachable_conservation w HR) as Hc. unfold conservation in Hc.
  rewrite Hcl in Hc. simpl in Hc. rewrite app_nil_r in Hc.
  assert (∀ p, (p < enqueued w)%nat →
            p ∈ promise <$> pending w ∨ ∃ o, (p, o) ∈ settled w) as Hplace.
  { intros p Hp.
    assert (p ∈ seq 0 (enqueued w)) as Hin by (apply elem_of_seq; lia).
    rewrite <- Hc in Hin. apply elem_of_app in Hin as [Hin|Hin]; [by left|].
    right. apply list_elem_of_fmap in Hin as ([p' o] & -> & Hin). eauto. }
  split_and!.
  - intros p Hp. destruct (Hplace p Hp) as [?|[o Ho]]; [by left|].
    right. exists o. split; [done|].
    by apply (reachable_outcome w HR).
  - intros Hne.
    destruct (single_drain_reachable w HR) as [(? & _)|(s & Hd & _)]; [done|].
    by eapply drain_can_turn.
  - pose proof (run_work _ _ _ HR0 Hrun) as Hw.
    assert (work (boot t0 stored today nextDay) = 0%nat) as Hz
      by (unfold work; cbn [boot drains this new queue length];
          rewrite Nat.mul_0_r; reflexivity).
    rewrite Hz in Hw. exact Hw.
  - intros Hd p Hp. destruct (Hplace p Hp) as [Hin|?]; [|done].
    destruct (single_drain_reachable w HR) as [(_ & _ & Hq)|(s & ? & _)];
      [|congruence].
    unfold pending in Hin. rewrite Hq, Hd in Hin. simpl in Hin.
    by apply not_elem_of_nil in Hin.
Qed.

Lemma requests_settle_unless_cleared_witness :
  run sample_run (boot 1000 (Some 7) true 86400000) = Some sample_state ∧
  never_cleared sample_run ∧
  (work sample_state + turns sample_run
   <= turns_per_request * enqueues sample_run)%nat.
Proof.
  assert (run sample_run (boot 1000 (Some 7) true 86400000)
          = Some sample_state) as Hrun by (vm_compute; reflexivity).
  assert (never_cleared sample_run) as Hnc
    by (unfold never_cleared, sample_run; repeat constructor).
  split; [exact Hrun|]. split; [exact Hnc|].
  apply (requests_settle_unless_cleared 1000 (Some 7) true 86400000
           sample_run sample_state Hrun Hnc).
Defined.

(** ** Further properties of the rate limiter *)

Ltac reach_induction HR :=
  induction HR as [w HR|w now HR IH|w nextDay HR IH|w HR IH|w HR IH
                  |w rnd prio s HR IH Hd|w rnd prio res HR IH Hd Hok
                  |w r k t res HR IH Hd Hok|w r HR IH Hd
                  |w s o r' rest res HR IH Hd Hs Hq Hok|w s o HR IH Hd Hs Hq].

(** No recorded timestamp is ahead of the clock. *)
Lemma stamps_le_clock_Reach Root :
  (∀ w, Root w → Forall (λ a, a <= clock w) (stamps w)) →
  ∀ w, ReachFrom Root w → Forall (λ a, a <= clock w) (stamps w).
Proof.
  intros HRoot w HR.
  reach_induction HR; [by apply HRoot|..]; unfold stamps in *; simpl;
    try exact IH.
  - eapply Forall_impl; [exact IH|]. simpl. intros; lia.
  - rewrite fmap_app, Forall_app. split; [done|].
    repeat constructor. simpl. lia.
Qed.

Lemma reachable_stamps_le_clock w :
  reachable w → Forall (λ a, a <= clock w) (stamps w).
Proof.
  intros HR. apply (stamps_le_clock_Reach booted); [|by apply reachable_Reach].
  intros ? (? & ? & ? & ? & ->). constructor.
Qed.

Lemma dailyCount_bounds_Reach w0 lo hi :
  lo <= 0 → MAX_DAILY_REQUESTS <= hi →
  reachable w0 →
  lo <= dailyCount (this w0) <= hi →
  ∀ w, ReachFrom (eq w0) w → lo <= dailyCount (this w) <= hi.
Proof.
  intros Hlo Hhi HR0 Hroot w HR.
  assert (∀ w, ReachFrom (eq w0) w → phase_inv w) as Hph.
  { apply phase_inv_Reach. intros ? <-. by apply reachable_phase. }
  reach_induction HR; [by subst|..]; simpl; try exact IH.
  - unfold checkDailyReset. case_decide; simpl; [|done].
    unfold MAX_DAILY_REQUESTS in *. lia.
  - specialize (Hph w HR _ Hd). simpl in Hph. lia.
Qed.

(** X1. The counter of the day never leaves the range it started in,
    widened to [0, 500]: whatever was loaded from [localStorage], the queue
    itself never pushes [dailyCount] past [MAX_DAILY_REQUESTS], and with a
    loaded count between 0 and 500 the remaining quota that
    [getQueueStatus] reports is between 0 and 500. *)
Theorem daily_count_stays_within_limit t0 stored today nextDay evs w now :
  run evs (boot t0 stored today nextDay) = Some w →
  Z.min 0 (loadDailyCount stored today) <= dailyCount (this w)
    <= Z.max MAX_DAILY_REQUESTS (loadDailyCount stored today) ∧
  (0 <= loadDailyCount stored today <= MAX_DAILY_REQUESTS →
   0 <= dailyRemaining (getQueueStatus now (this w)).1 <= MAX_DAILY_REQUESTS).
Proof.
  intros Hrun.
  assert (Z.min 0 (loadDailyCount stored today) <= dailyCount (this w)
          <= Z.max MAX_DAILY_REQUESTS (loadDailyCount stored today)) as Hb.
  { apply (dailyCount_bounds_Reach (boot t0 stored today nextDay));
      [lia|lia|constructor|simpl; lia|].
    eapply Reach_run; [|by apply Reach_root|exact Hrun].
    intros ? <-. by left. }
  split; [exact Hb|]. intros Hl.
  unfold getQueueStatus.
  destruct (canMakeRequest _ _) as [st l2]. simpl. lia.
Qed.

Lemma daily_count_stays_within_limit_witness :
  run sample_run (boot 1000 (Some 7) true 86400000) = Some sample_state ∧
  dailyCount (this sample_state)
    <= Z.max MAX_DAILY_REQUESTS (loadDailyCount (Some 7) true).
Proof.
  assert (run sample_run (boot 1000 (Some 7) true 86400000)
          = Some sample_state) as Hrun by (vm_compute; reflexivity).
  split; [exact Hrun|].
  destruct (daily_count_stays_within_limit 1000 (Some 7) true 86400000
              sample_run sample_state 0 Hrun) as [[_ H] _].
  exact H.
Defined.

Lemma length_filter_mono_in {A} (P Q : A → Prop)
    `{∀ x, Decision (P x)} `{∀ x, Decision (Q x)} (l : list A) :
  (∀ x, x ∈ l → P x → Q x) →
  (length (filter P l) <= length (filter Q l))%nat.
Proof.
  induction l as [|x l IH]; intros HPQ; [done|].
  assert (length (filter P l) <= length (filter Q l))%nat as IH'
    by (apply IH; intros y Hy; apply HPQ; by right).
  rewrite !filter_cons.
  destruct (decide (P x)) as [HP|], (decide (Q x)) as [|HQ]; simpl; try lia.
  destruct HQ. apply HPQ; [by left|done].
Qed.

Lemma canMakeRequest_pruned now l :
  requestHistory l = prune now (requestHistory l) →
  (canMakeRequest now l).2 = l.
Proof.
  intros Hp. destruct (canMakeRequest now l) as [st l2] eqn:Hcan. simpl.
  pose proof (canMakeRequest_frame _ _ _ _ Hcan) as (F1 & F2 & F3 & F4).
  apply canMakeRequest_history in Hcan as [(_ & -> & _)|(_ & Hh)]; [done|].
  apply limiter_eq; try done. by rewrite Hh, <- Hp.
Qed.

Lemma getQueueStatus_state now l :
  (getQueueStatus now l).2
  = with_requestHistory (prune now (requestHistory l)) l.
Proof.
  unfold getQueueStatus.
  pose proof (canMakeRequest_pruned now
                (with_requestHistory (prune now (requestHistory l)) l)) as Hc.
  destruct (canMakeRequest _ _) as [st l2]. simpl in *.
  apply Hc. by rewrite prune_prune.
Qed.

(** X2. What [getQueueStatus] reports: [recentRequests] is the number of
    timestamps recorded in the last 60 s and never more than 5,
    [queueLength] is the length of the queue, used and remaining add up to
    500; the call changes nothing but the history, which it prunes; and a
    second call at the same instant reports the same and changes nothing. *)
Theorem queue_status_is_a_snapshot w now :
  reachable w → clock w <= now →
  let qs := (getQueueStatus now (this w)).1 in
  let l := (getQueueStatus now (this w)).2 in
  recentRequests qs
    = length (filter (λ a : Z, (now - INTERVAL_MS < a)%Z) (stamps w)) ∧
  (recentRequests qs <= MAX_REQUESTS_PER_MINUTE)%nat ∧
  queueLength qs = length (queue (this w)) ∧
  dailyUsed qs + dailyRemaining qs = MAX_DAILY_REQUESTS ∧
  l = with_requestHistory (prune now (requestHistory (this w))) (this w) ∧
  getQueueStatus now l = (qs, l).
Proof.
  intros HR Hnow qs l.
  destruct (reachable_history w HR) as (cutoff & Hc & Hh).
  assert (prune now (requestHistory (this w))
          = filter (λ a : Z, now - INTERVAL_MS < a) (stamps w)) as Hp.
  { rewrite Hh. apply prune_filter. lia. }
  assert (l = with_requestHistory (prune now (requestHistory (this w))) (this w))
    as Hl by apply getQueueStatus_state.
  assert (recentRequests qs = length (prune now (requestHistory (this w))))
    as Hr.
  { unfold qs, getQueueStatus. destruct (canMakeRequest _ _). done. }
  split_and!.
  - by rewrite Hr, Hp.
  - rewrite Hr, Hp.
    destruct (reachable_window w HR) as [Hwin _].
    etrans; [|apply (Hwin now)].
    pose proof (reachable_stamps_le_clock w HR) as Hle.
    rewrite Forall_forall in Hle.
    apply length_filter_mono_in.
    intros a Ha. unfold in_window. specialize (Hle a Ha). lia.
  - unfold qs, getQueueStatus. destruct (canMakeRequest _ _). done.
  - unfold qs, getQueueStatus. destruct (canMakeRequest _ _). simpl. lia.
  - exact Hl.
  - assert (with_requestHistory (prune now (requestHistory l)) l = l) as Hll.
    { rewrite Hl. apply limiter_eq; try done. simpl. apply prune_prune. }
    apply injective_projections; simpl; [|by rewrite getQueueStatus_state].
    unfold qs. unfold getQueueStatus at 1. rewrite Hll.
    unfold getQueueStatus. fold l. rewrite <- Hl.
    destruct (canMakeRequest now l) as [st l2]. simpl.
    rewrite Hl. done.
Qed.

Lemma queue_status_is_a_snapshot_witness :
  reachable sample_state ∧ clock sample_state <= 30000 ∧
  (recentRequests (getQueueStatus 30000 (this sample_state)).1 <= 5)%nat.
Proof.
  split; [exact sample_state_reachable|].
  split; [vm_compute; discriminate|].
  apply (queue_status_is_a_snapshot sample_state 30000 sample_state_reachable).
  vm_compute. discriminate.
Defined.

(** X3. A request is never left in the queue without an invocation of
    [processQueue] to take it: whenever the queue is not empty, one
    invocation is suspended and [isProcessing] is up. *)
Theorem queued_requests_have_a_drain w :
  reachable w → queue (this w) ≠ [] →
  isProcessing (this w) = true ∧ ∃ s, drains w = [s].
Proof.
  intros HR Hq.
  destruct (single_drain_reachable w HR) as [(_ & _ & ?)|(s & Hd & Hp)];
    [done|eauto].
Qed.

Definition waiting_state : Runtime :=
  Eval vm_compute in
    default sample_boot
      (run [(1000, EvEnqueue 11 0); (1000, EvEnqueue 12 0)] sample_boot).

Lemma waiting_state_reachable : reachable waiting_state.
Proof.
  apply (reachable_boot_run 1000 (Some 7) true 86400000
           [(1000, EvEnqueue 11 0); (1000, EvEnqueue 12 0)]).
  vm_compute. reflexivity.
Qed.

Lemma queued_requests_have_a_drain_witness :
  reachable waiting_state ∧ queue (this waiting_state) ≠ [] ∧
  isProcessing (this waiting_state) = true.
Proof.
  assert (queue (this waiting_state) ≠ []) as Hq by (vm_compute; discriminate).
  split; [exact waiting_state_reachable|]. split; [exact Hq|].
  apply (queued_requests_have_a_drain waiting_state waiting_state_reachable Hq).
Defined.

(** ** The polling loop never runs out of attempts *)

Lemma history_le_clock w :
  reachable w → Forall (λ a, a <= clock w) (requestHistory (this w)).
Proof.
  intros HR. destruct (reachable_history w HR) as (cutoff & _ & ->).
  pose proof (reachable_stamps_le_clock w HR) as Hle.
  rewrite Forall_forall in *. intros a Ha.
  apply list_elem_of_filter in Ha as [_ Ha]. by apply Hle.
Qed.

Lemma history_spaced w :
  reachable w → Forall (λ a, a ≠ 0) (stamps w) →
  StronglySorted spaced (requestHistory (this w)) ∧
  Forall (λ a, a ≠ 0) (requestHistory (this w)).
Proof.
  intros HR Hnz. destruct (reachable_history w HR) as (cutoff & _ & ->).
  destruct (reachable_spacing w HR Hnz) as [Hs _]. split.
  - eapply StronglySorted_sublist_of; [apply sublist_filter|done].
  - rewrite Forall_forall in *. intros a Ha.
    apply list_elem_of_filter in Ha as [_ Ha]. by apply Hnz.
Qed.

(** What is known when a run of the polling loop ends in a sleep. *)
Lemma wait_sleep now k l wt l' :
  waitUntilCanRequest now k l = (WSleep wt, l') →
  1000 <= wt ∧ requestHistory l' = prune now (requestHistory l) ∧
  ∃ x, last (requestHistory l') = Some x ∧
    (x ≠ 0 → x + MIN_REQUEST_SPACING_MS <= now + wt) ∧
    ((MAX_REQUESTS_PER_MINUTE <= length (requestHistory l'))%nat ∨
     (x ≠ 0 ∧ now - x < MIN_REQUEST_SPACING_MS)).
Proof.
  unfold waitUntilCanRequest. intros H.
  case_decide as Hk; [|by simplify_eq].
  destruct (canMakeRequest now l) as [st l1] eqn:Hc.
  destruct (allowed st) eqn:Ha; [by simplify_eq|].
  case_decide as Hd; [by simplify_eq|].
  unfold canMakeRequest in Hc.
  case_decide as Hd'; [simplify_eq; simpl in *; lia|].
  case_decide as Hn; simpl in *.
  - simplify_eq. simpl in *.
    destruct (last (prune now (requestHistory l))) as [x|] eqn:Hl.
    + split_and!; [destruct (truthy x); lia|done|].
      exists x. split_and!; [done| |by left].
      intros Hx. unfold truthy.
      destruct (x =? 0) eqn:Hz; [apply Z.eqb_eq in Hz; done|]. simpl. lia.
    + apply last_None in Hl. rewrite Hl in Hn.
      unfold MAX_REQUESTS_PER_MINUTE in Hn. simpl in Hn. lia.
  - destruct (last (prune now (requestHistory l))) as [x|] eqn:Hl;
      [|by simplify_eq].
    destruct (truthy x && bool_decide (now - x < MIN_REQUEST_SPACING_MS))
      eqn:Hb; [|by simplify_eq].
    simplify_eq. simpl in *. rewrite Hl.
    apply andb_true_iff in Hb as [Hb1 Hb2]. rewrite Hb1.
    apply bool_decide_eq_true in Hb2.
    assert (x ≠ 0) as Hx.
    { unfold truthy in Hb1. apply negb_true_iff, Z.eqb_neq in Hb1. done. }
    split_and!; [lia|done|].
    exists x. split_and!; [done|lia|by right].
Qed.

(** Timestamps that are 12.5 s apart and lie in an interval: the interval
    bounds their number. *)
Lemma spaced_span (l : list Z) (hi : Z) :
  StronglySorted spaced l → ∀ lo, Forall (λ a, lo < a <= hi) l → l ≠ [] →
  (Z.of_nat (length l) - 1) * MIN_REQUEST_SPACING_MS < hi - lo.
Proof.
  induction 1 as [|x l Hs IH Hx]; intros lo Hall Hne; [done|].
  apply Forall_cons in Hall as [Hxb Hall].
  destruct l as [|y l']; [simpl; lia|].
  assert ((Z.of_nat (length (y :: l')) - 1) * MIN_REQUEST_SPACING_MS
          < hi - (x + MIN_REQUEST_SPACING_MS - 1)) as Hl.
  { apply IH; [|done]. rewrite Forall_forall in *. intros a Ha.
    specialize (Hx a Ha). specialize (Hall a Ha). unfold spaced in Hx. lia. }
  cbn [length] in *. unfold MIN_REQUEST_SPACING_MS in *. lia.
Qed.

(** While an invocation sleeps in the polling loop (attempt [k], woken at
    [wakeAt]): every timestamp in the history is at least [k + 1] seconds
    older than [wakeAt]; and when no timestamp is 0, it is the first sleep,
    and at [wakeAt] the spacing and the window are free. *)
Definition poll_inv (w : Runtime) : Prop :=
  ∀ r k t, drains w = [AwaitTimer r k t] →
    (k < 60)%nat ∧
    Forall (λ a, a + 1000 * (Z.of_nat k + 1) <= t) (requestHistory (this w)) ∧
    (Forall (λ a, a ≠ 0) (stamps w) →
     k = 0%nat ∧
     Forall (λ a, a + MIN_REQUEST_SPACING_MS <= t) (requestHistory (this w)) ∧
     (length (filter (λ a : Z, (t - INTERVAL_MS < a)%Z)
                (requestHistory (this w)))
        < MAX_REQUESTS_PER_MINUTE)%nat).

Lemma suspend_timer r k now res r' k' t :
  suspend r k now res = AwaitTimer r' k' t →
  ∃ wt, res = WSleep wt ∧ r' = r ∧ k' = k ∧ t = now + wt.
Proof. destruct res; simpl; intros; simplify_eq; eauto. Qed.

Lemma poll_inv_first w now l res r :
  reachable w → clock w = now →
  waitUntilCanRequest now 0 l = (res, this w) →
  drains w = [suspend r 0 now res] → poll_inv w.
Proof.
  intros HR <- Hw Hd r' k t Hd'. rewrite Hd in Hd'. injection Hd' as Hd'.
  apply suspend_timer in Hd' as (wt & -> & -> & -> & ->).
  apply wait_sleep in Hw as (Hwt & Hh & x & Hl & Hx & _).
  pose proof (history_le_clock w HR) as Hle.
  split_and!; [lia| |].
  - eapply Forall_impl; [exact Hle|]. simpl. intros; lia.
  - intros Hnz. destruct (history_spaced w HR Hnz) as [Hs Hnz'].
    assert (∀ a, a ∈ requestHistory (this w) → a <= x) as Hmax
      by (intros a Ha; by eapply spaced_last_max).
    assert (x ≠ 0) as Hx0.
    { rewrite Forall_forall in Hnz'. apply Hnz'.
      by apply last_Some_elem_of. }
    specialize (Hx Hx0).
    split_and!; [done| |].
    + rewrite Forall_forall. intros a Ha. specialize (Hmax a Ha). lia.
    + set (recent := filter (λ a : Z, clock w + wt - INTERVAL_MS < a)
                       (requestHistory (this w))).
      destruct (decide (recent = [])) as [He|Hne];
        [rewrite He; unfold MAX_REQUESTS_PER_MINUTE; simpl; lia|].
      assert ((Z.of_nat (length recent) - 1) * MIN_REQUEST_SPACING_MS
              < x - (clock w + wt - INTERVAL_MS)) as Hspan.
      { apply spaced_span; [|..|done].
        - eapply StronglySorted_sublist_of; [apply sublist_filter|done].
        - rewrite Forall_forall. intros a Ha.
          apply list_elem_of_filter in Ha as [? Ha]. specialize (Hmax a Ha).
          lia. }
      unfold MIN_REQUEST_SPACING_MS, INTERVAL_MS, MAX_REQUESTS_PER_MINUTE in *.
      lia.
Qed.

Lemma poll_inv_step now ev w w' :
  reachable w → poll_inv w → step now ev w = Some w' → poll_inv w'.
Proof.
  intros HR Hinv Hstep.
  assert (reachable w') as HR' by (eapply reachable_step; eauto).
  pose proof (single_drain_reachable w HR) as Hsd.
  pose proof (reachable_phase w HR) as Hph.
  unfold step in Hstep. case_decide as Hclock; [done|].
  destruct ev as [rnd prio|i|i persisted|i res|nextDay| |]; simpl in Hstep.
  - simplify_eq.
    pose proof (enqueue_shape now rnd prio (with_clock now w)) as Hs.
    simpl in Hs. destruct Hs as (Hc & _ & Hrec & _ & _ & _ & _ & Hs).
    destruct Hs as [(Hp & Hdr & Hthis & _)|(Hp & r' & res & _ & Hw & Hdr & _)].
    + intros r k t Hd. rewrite Hdr in Hd.
      unfold stamps. rewrite Hthis, Hrec. exact (Hinv r k t Hd).
    + destruct Hsd as [(Hd0 & _)|(s & _ & Hp')]; [|congruence].
      rewrite Hd0 in Hdr. simpl in Hdr.
      eapply poll_inv_first; [exact HR'|exact Hc|exact Hw|exact Hdr].
  - destruct Hsd as [(Hd & Hp & Hq)|(s & Hd & Hp)]; rewrite Hd in Hstep;
      [by rewrite lookup_nil in Hstep|].
    destruct ([s] !! i) as [x|] eqn:Hi; [|done].
    apply lookup_single in Hi as [-> ->].
    destruct s as [| |r k t|]; try done. case_decide as Hwake; [done|].
    destruct (waitUntilCanRequest _ _ _) as [res l] eqn:Hw.
    simplify_eq. simpl in *.
    destruct (Hinv r k t Hd) as (Hk & Hold & Hfree).
    intros r' k' t' Hd'. simpl in Hd'. injection Hd' as Hd'.
    apply suspend_timer in Hd' as (wt & -> & -> & -> & ->).
    apply wait_sleep in Hw as (Hwt & Hh & x & Hl & Hx & Hwhy). simpl.
    assert (x ∈ requestHistory (this w)) as Hxin.
    { apply last_Some_elem_of in Hl. rewrite Hh in Hl.
      by apply list_elem_of_filter in Hl as [_ ?]. }
    assert (now - x < INTERVAL_MS) as Hrecent.
    { apply last_Some_elem_of in Hl. rewrite Hh in Hl.
      by apply list_elem_of_filter in Hl as [? _]. }
    rewrite Forall_forall in Hold. pose proof (Hold x Hxin) as Hxold.
    split_and!.
    + unfold INTERVAL_MS in *. lia.
    + rewrite Hh, Forall_forall. intros a Ha.
      apply list_elem_of_filter in Ha as [_ Ha]. specialize (Hold a Ha). lia.
    + intros Hnz. destruct (Hfree Hnz) as (-> & Hsp & Hlen). exfalso.
      rewrite Forall_forall in Hsp. specialize (Hsp x Hxin).
      destruct Hwhy as [Hfull|[_ Hclose]]; [|lia].
      rewrite Hh in Hfull.
      assert (length (prune now (requestHistory (this w)))
              <= length (filter (λ a : Z, (t - INTERVAL_MS < a)%Z)
                           (requestHistory (this w))))%nat as Hmono
        by (apply length_filter_mono; intros a; lia).
      lia.
  - destruct Hsd as [(Hd & Hp & Hq)|(s & Hd & Hp)]; rewrite Hd in Hstep;
      [by rewrite lookup_nil in Hstep|].
    destruct ([s] !! i) as [x|] eqn:Hi; [|done].
    apply lookup_single in Hi as [-> ->].
    destruct s as [r|r e| |]; try done.
    + destruct persisted; simplify_eq.
      * intros r' k t Hd'. simpl in Hd'. done.
      * match goal with |- poll_inv (continue 0 now ?w0) =>
          pose proof (continue_shape now w0 (AwaitReturned r) Hd) as Hs end.
        simpl in Hs. destruct Hs as (Hc & _ & _ & _ & _ & _ & _ & Hs).
        destruct Hs as [(_ & Hs & _)|(r' & res & _ & Hw & Hs & _)].
        -- intros r' k t Hd'. rewrite Hs in Hd'. done.
        -- eapply poll_inv_first; [exact HR'|exact Hc|exact Hw|exact Hs].
    + simplify_eq.
      match goal with |- poll_inv (continue 0 now ?w0) =>
        pose proof (continue_shape now w0 _ Hd) as Hs end.
      simpl in Hs. destruct Hs as (Hc & _ & _ & _ & _ & _ & _ & Hs).
      destruct Hs as [(_ & Hs & _)|(r' & res & _ & Hw & Hs & _)].
      * intros r' k t Hd'. rewrite Hs in Hd'. done.
      * eapply poll_inv_first; [exact HR'|exact Hc|exact Hw|exact Hs].
  - destruct Hsd as [(Hd & Hp & Hq)|(s & Hd & Hp)]; rewrite Hd in Hstep;
      [by rewrite lookup_nil in Hstep|].
    destruct ([s] !! i) as [x|] eqn:Hi; [|done].
    apply lookup_single in Hi as [-> ->].
    destruct s as [| | |r]; try done. simplify_eq.
    match goal with |- poll_inv (continue 0 now ?w0) =>
      pose proof (continue_shape now w0 _ Hd) as Hs end.
    simpl in Hs. destruct Hs as (Hc & _ & _ & _ & _ & _ & _ & Hs).
    destruct Hs as [(_ & Hs & _)|(r' & res' & _ & Hw & Hs & _)].
    + intros r' k t Hd'. rewrite Hs in Hd'. done.
    + eapply poll_inv_first; [exact HR'|exact Hc|exact Hw|exact Hs].
  - simplify_eq. intros r k t Hd. simpl in *.
    rewrite requestHistory_checkDailyReset. exact (Hinv r k t Hd).
  - simplify_eq. intros r k t Hd. simpl in *.
    rewrite getQueueStatus_state. simpl.
    destruct (Hinv r k t Hd) as (Hk & Hold & Hfree). split_and!; [done| |].
    + rewrite Forall_forall in *. intros a Ha.
      apply list_elem_of_filter in Ha as [_ Ha]. by apply Hold.
    + intros Hnz. destruct (Hfree Hnz) as (-> & Hsp & Hlen).
      split_and!; [done| |].
      * rewrite Forall_forall in *. intros a Ha.
        apply list_elem_of_filter in Ha as [_ Ha]. by apply Hsp.
      * eapply Nat.le_lt_trans; [|exact Hlen].
        unfold prune. rewrite list_filter_filter.
        apply length_filter_mono. tauto.
  - simplify_eq. intros r k t Hd. simpl in *. exact (Hinv r k t Hd).
Qed.

Lemma reachable_poll w : reachable w → poll_inv w.
Proof.
  induction 1 as [|w now ev w' HR IH Hs].
  - intros r k t Hd. done.
  - by eapply poll_inv_step.
Qed.

(** The only error the polling loop throws is the one of the daily limit. *)
Definition no_timeout (w : Runtime) : Prop :=
  (∀ r e, drains w = [AwaitThrown r e] → e = quota_error) ∧
  (∀ p, (p, Rejected TimeoutError) ∉ settled w).

Lemma wait_throw now k l res l' r r' e :
  waitUntilCanRequest now k l = (res, l') → (k < maxAttempts)%nat →
  suspend r k now res = AwaitThrown r' e → e = quota_error.
Proof.
  intros Hw Hk Hs. destruct res; simpl in Hs; simplify_eq.
  apply waitUntilCanRequest_cases in Hw
    as [(? & _)|[(? & _)|[([? ?] & _)|(_ & ? & _)]]]; simplify_eq; [done|lia].
Qed.

Lemma no_timeout_continue now w s o :
  drains w = [s] → no_timeout w → o ≠ Rejected TimeoutError →
  no_timeout (continue 0 now (log_settled (held s) o w)).
Proof.
  intros Hd [Hthrown Hsettled] Ho.
  match goal with |- no_timeout (continue 0 now ?w0) =>
    pose proof (continue_shape now w0 s Hd) as Hs end.
  simpl in Hs. destruct Hs as (_ & _ & _ & Hset & _ & _ & _ & Hs).
  split.
  - intros r e Hd'.
    destruct Hs as [(_ & Hs & _)|(r' & res & _ & Hw & Hs & _)];
      rewrite Hs in Hd'; [done|]. injection Hd' as Hd'.
    eapply wait_throw; [exact Hw| |exact Hd']. unfold maxAttempts. lia.
  - intros p Hin. rewrite Hset in Hin.
    apply elem_of_app in Hin as [Hin|Hin]; [by apply (Hsettled p)|].
    apply list_elem_of_singleton in Hin. congruence.
Qed.

Lemma no_timeout_step now ev w w' :
  reachable w → no_timeout w → step now ev w = Some w' → no_timeout w'.
Proof.
  intros HR Hinv Hstep.
  pose proof (single_drain_reachable w HR) as Hsd.
  pose proof (reachable_poll w HR) as Hpoll.
  unfold step in Hstep. case_decide as Hclock; [done|].
  destruct ev as [rnd prio|i|i persisted|i res|nextDay| |]; simpl in Hstep.
  - simplify_eq.
    pose proof (enqueue_shape now rnd prio (with_clock now w)) as Hs.
    simpl in Hs. destruct Hs as (_ & _ & _ & Hset & _ & _ & _ & Hs).
    destruct Hinv as [Hthrown Hsettled]. split; [|by rewrite Hset].
    intros r e Hd.
    destruct Hs as [(_ & Hdr & _)|(Hp & r' & res & _ & Hw & Hdr & _)].
    + rewrite Hdr in Hd. by eapply Hthrown.
    + destruct Hsd as [(Hd0 & _)|(s & _ & Hp')]; [|congruence].
      rewrite Hd0 in Hdr. simpl in Hdr. rewrite Hdr in Hd.
      injection Hd as Hd.
      eapply wait_throw; [exact Hw| |exact Hd]. unfold maxAttempts. lia.
  - destruct Hsd as [(Hd & Hp & Hq)|(s & Hd & Hp)]; rewrite Hd in Hstep;
      [by rewrite lookup_nil in Hstep|].
    destruct ([s] !! i) as [x|] eqn:Hi; [|done].
    apply lookup_single in Hi as [-> ->].
    destruct s as [| |r k t|]; try done. case_decide as Hwake; [done|].
    destruct (waitUntilCanRequest _ _ _) as [res l] eqn:Hw.
    simplify_eq. destruct Hinv as [Hthrown Hsettled]. split; [|done].
    intros r' e Hd'. simpl in Hd'. injection Hd' as Hd'.
    destruct (Hpoll r k t Hd) as (Hk & _).
    eapply wait_throw; [exact Hw| |exact Hd']. unfold maxAttempts. lia.
  - destruct Hsd as [(Hd & Hp & Hq)|(s & Hd & Hp)]; rewrite Hd in Hstep;
      [by rewrite lookup_nil in Hstep|].
    destruct ([s] !! i) as [x|] eqn:Hi; [|done].
    apply lookup_single in Hi as [-> ->].
    destruct s as [r|r e| |]; try done.
    + destruct persisted; simplify_eq.
      * destruct Hinv as [Hthrown Hsettled]. split; [|done].
        intros r' e Hd'. simpl in Hd'. done.
      * apply (no_timeout_continue now _ (AwaitReturned r)); [done| |done].
        destruct Hinv as [Hthrown Hsettled]. split; [|done].
        intros r' e Hd'. simpl in Hd'. congruence.
    + simplify_eq.
      apply (no_timeout_continue now _ (AwaitThrown r e)); [done|done|].
      destruct Hinv as [Hthrown _]. rewrite (Hthrown r e Hd). done.
  - destruct Hsd as [(Hd & Hp & Hq)|(s & Hd & Hp)]; rewrite Hd in Hstep;
      [by rewrite lookup_nil in Hstep|].
    destruct ([s] !! i) as [x|] eqn:Hi; [|done].
    apply lookup_single in Hi as [-> ->].
    destruct s as [| | |r]; try done. simplify_eq.
    apply (no_timeout_continue now _ (AwaitExecute r)); [done|done|].
    by destruct res.
  - by simplify_eq.
  - by simplify_eq.
  - by simplify_eq.
Qed.

Lemma reachable_no_timeout w : reachable w → no_timeout w.
Proof.
  induction 1 as [|w now ev w' HR IH Hs].
  - split; [done|]. intros p Hin. by apply not_elem_of_nil in Hin.
  - by eapply no_timeout_step.
Qed.

(** X4. The polling loop of [waitUntilCanRequest] never runs out of
    attempts.  A sleeping invocation is below its 60th attempt, since every
    sleep lasts a second at least and a history older than a minute is
    pruned away; so the loop throws nothing but the error of the daily
    limit, and no promise is ever rejected with the timeout. *)
Theorem wait_never_times_out w :
  reachable w →
  (∀ r k t, drains w = [AwaitTimer r k t] → (2 * k < maxAttempts)%nat) ∧
  (∀ r e, drains w = [AwaitThrown r e] → e = LimitError (Some DailyLimit)) ∧
  (∀ p, (p, Rejected TimeoutError) ∉ settled w).
Proof.
  intros HR. destruct (reachable_no_timeout w HR) as [Hthrown Hsettled].
  split_and!; [|done|done].
  intros r k t Hd. destruct (reachable_poll w HR r k t Hd) as [Hk _].
  unfold maxAttempts. lia.
Qed.

Lemma wait_never_times_out_witness :
  reachable sample_state ∧
  (0%nat, Rejected TimeoutError) ∉ settled sample_state.
Proof.
  split; [exact sample_state_reachable|].
  apply (wait_never_times_out sample_state sample_state_reachable).
Defined.

(** X5. One sleep is enough.  When no recorded timestamp is 0, an
    invocation that sleeps in [waitUntilCanRequest] does so on its first
    attempt, and the check it makes when the timer wakes it, however late,
    lets the request through. *)
Theorem one_sleep_is_enough w r k t :
  reachable w → Forall (λ a, a ≠ 0) (stamps w) →
  drains w = [AwaitTimer r k t] →
  k = 0%nat ∧
  ∀ now, t <= now →
    (waitUntilCanRequest now 1 (this w)).1 = WReturn.
Proof.
  intros HR Hnz Hd.
  destruct (reachable_poll w HR r k t Hd) as (_ & _ & Hfree).
  destruct (Hfree Hnz) as (-> & Hsp & Hlen). split; [done|].
  intros now Hnow.
  destruct (reachable_phase w HR _ Hd) as [_ Hdaily].
  destruct (waitUntilCanRequest now 1 (this w)) as [res l] eqn:Hw. simpl.
  pose proof Hw as Hcases.
  apply waitUntilCanRequest_cases in Hcases
    as [(? & _)|[(_ & _ & ? & _)|[([wt ?] & _)|(_ & ? & _)]]];
    [done|lia| |unfold maxAttempts in *; lia].
  subst res. exfalso.
  apply wait_sleep in Hw as (Hwt & Hh & x & Hl & Hx & Hwhy).
  assert (x ∈ requestHistory (this w)) as Hxin.
  { apply last_Some_elem_of in Hl. rewrite Hh in Hl.
    by apply list_elem_of_filter in Hl as [_ ?]. }
  rewrite Forall_forall in Hsp. specialize (Hsp x Hxin).
  destruct Hwhy as [Hfull|[_ Hclose]]; [|lia].
  rewrite Hh in Hfull.
  assert (length (prune now (requestHistory (this w)))
          <= length (filter (λ a : Z, (t - INTERVAL_MS < a)%Z)
                       (requestHistory (this w))))%nat as Hmono
    by (apply length_filter_mono; intros a; lia).
  lia.
Qed.

Definition sleeping_run : list (Z * Event) :=
  [(1000, EvEnqueue 11 0); (1000, EvResume 0 true); (1050, EvEnqueue 12 0);
   (1100, EvExecuted 0 (inl "ok"%string))].

Definition sleeping_state : Runtime :=
  Eval vm_compute in default sample_boot (run sleeping_run sample_boot).

Lemma sleeping_state_reachable : reachable sleeping_state.
Proof.
  apply (reachable_boot_run 1000 (Some 7) true 86400000 sleeping_run).
  vm_compute. reflexivity.
Qed.

Lemma one_sleep_is_enough_witness :
  reachable sleeping_state ∧ Forall (λ a, a ≠ 0) (stamps sleeping_state) ∧
  (waitUntilCanRequest 13500 1 (this sleeping_state)).1 = WReturn.
Proof.
  assert (Forall (λ a, a ≠ 0) (stamps sleeping_state)) as Hnz
    by (unfold stamps, sleeping_state; simpl; repeat constructor; lia).
  split; [exact sleeping_state_reachable|]. split; [exact Hnz|].
  destruct (one_sleep_is_enough sleeping_state
              {| id := (1050, 12); promise := 1; priority := 0;
                 timestamp := 1050 |} 0 13500
              sleeping_state_reachable Hnz eq_refl) as [_ Hwake].
  apply Hwake. lia.
Defined.

(** ** Every request is run and settled once at most *)

(** The request whose action is running. *)
Definition executing (w : Runtime) : list QueuedRequest :=
  omap (λ s, match s with AwaitExecute r => Some r | _ => None end) (drains w).

(** A request whose admission was recorded is running or settled. *)
Definition once_inv (w : Runtime) : Prop :=
  promise <$> (recorded w).*2
  ⊆+ (promise <$> executing w) ++ (settled w).*1.

Lemma executing_held w s :
  drains w = [s] → promise <$> executing w ⊆+ [promise (held s)].
Proof.
  unfold executing. intros ->. destruct s; simpl; try done;
    apply submseteq_nil_l.
Qed.

Lemma once_inv_Reach Root :
  (∀ w, Root w → once_inv w) →
  ∀ w, ReachFrom Root w → once_inv w.
Proof.
  intros HRoot w HR.
  assert (∀ w s o, once_inv w → drains w = [s] →
            promise <$> (recorded w).*2
            ⊆+ (settled w ++ [(promise (held s), o)]).*1) as Hsettle.
  { clear w HR. intros w s o Hinv Hd. unfold once_inv in Hinv.
    rewrite fmap_app. simpl. etrans; [exact Hinv|].
    rewrite (comm (++)). apply submseteq_app; [done|].
    by apply executing_held. }
  reach_induction HR; [by apply HRoot|..]; unfold once_inv in *;
    try exact IH.
  - unfold executing in *. simpl. rewrite Hd in IH. simpl in IH.
    by destruct res.
  - unfold executing in *. simpl. rewrite Hd in IH. simpl in IH.
    by destruct res.
  - unfold executing in *. simpl. rewrite Hd in IH. simpl in IH.
    rewrite !fmap_app. simpl. rewrite <- (comm (++) [promise r]). simpl.
    by apply submseteq_skip.
  - pose proof (Hsettle w s o IH Hd) as Hs'.
    unfold executing. simpl. by destruct res.
  - unfold executing. simpl. by apply Hsettle.
Qed.

Lemma reachable_once w : reachable w → once_inv w.
Proof.
  intros HR. apply (once_inv_Reach booted); [|by apply reachable_Reach].
  intros ? (? & ? & ? & ? & ->). unfold once_inv. simpl. done.
Qed.

(** X6. Nothing happens twice to a request: no promise is settled twice, no
    request has its admission recorded (and so its action started and the
    daily counter raised) twice, a settled promise came from an [enqueue]
    and is no longer in the queue nor held by the running invocation, and
    [clearQueue] drops no request that is settled. *)
Theorem requests_are_handled_once w :
  reachable w →
  NoDup (settled w).*1 ∧
  NoDup (promise <$> (recorded w).*2) ∧
  (length (recorded w) <= enqueued w)%nat ∧
  (∀ p o, (p, o) ∈ settled w →
     (p < enqueued w)%nat ∧ (p ∉ promise <$> pending w) ∧
     (p ∉ promise <$> cleared w)).
Proof.
  intros HR.
  pose proof (reachable_conservation w HR) as Hc. unfold conservation in Hc.
  pose proof (NoDup_seq 0 (enqueued w)) as Hnd. rewrite <- Hc in Hnd.
  pose proof (reachable_once w HR) as Honce. unfold once_inv in Honce.
  assert (promise <$> (recorded w).*2
          ⊆+ (promise <$> pending w) ++ (settled w).*1) as Hsub.
  { etrans; [exact Honce|]. apply submseteq_app; [|done].
    unfold pending. rewrite fmap_app. apply submseteq_inserts_l.
    apply sublist_submseteq, fmap_sublist. unfold executing.
    induction (drains w) as [|s l IH]; [done|]. simpl.
    destruct s; simpl; by constructor. }
  assert (NoDup ((promise <$> pending w) ++ (settled w).*1)) as Hnd'.
  { rewrite app_assoc in Hnd. by apply NoDup_app in Hnd as (? & _). }
  split_and!.
  - apply NoDup_app in Hnd as (_ & _ & Hnd).
    by apply NoDup_app in Hnd as (? & _).
  - apply submseteq_Permutation in Hsub as [k Hk]. rewrite Hk in Hnd'.
    by apply NoDup_app in Hnd' as (? & _).
  - apply submseteq_length in Hsub. apply Permutation_length in Hc.
    rewrite length_seq in Hc. rewrite !length_app, !length_fmap in *. lia.
  - intros p o Hin.
    assert (p ∈ (settled w).*1) as Hp
      by (apply list_elem_of_fmap; by exists (p, o)).
    split_and!.
    + assert (p ∈ seq 0 (enqueued w)) as Hs by (rewrite <- Hc; set_solver).
      apply elem_of_seq in Hs. lia.
    + apply NoDup_app in Hnd' as (_ & Hdis & _). intros Hq. by eapply Hdis.
    + apply NoDup_app in Hnd as (_ & _ & Hnd).
      apply NoDup_app in Hnd as (_ & Hdis & _). by apply Hdis.
Qed.

Lemma requests_are_handled_once_witness :
  reachable sample_state ∧ NoDup (settled sample_state).*1.
Proof.
  split; [exact sample_state_reachable|].
  apply (requests_are_handled_once sample_state sample_state_reachable).
Defined.

(** ** The counter counts the admissions of the day *)

Definition count_inv (w0 w : Runtime) : Prop :=
  clock w < dailyResetTime (this w0) →
  dailyResetTime (this w) = dailyResetTime (this w0) ∧
  ∃ fresh, recorded w = recorded w0 ++ fresh ∧
    dailyCount (this w) = dailyCount (this w0) + Z.of_nat (length fresh).

Lemma count_inv_Reach w0 : ∀ w, ReachFrom (eq w0) w → count_inv w0 w.
Proof.
  intros w HR.
  reach_induction HR; unfold count_inv in *; simpl; try exact IH.
  - subst w. intros _. split; [done|]. exists []. rewrite app_nil_r. simpl.
    split; [done|lia].
  - intros Hclk. apply IH. lia.
  - intros Hclk. destruct (IH Hclk) as (Hr & fresh & Hrec & Hcount).
    unfold checkDailyReset. case_decide; [lia|eauto].
  - intros Hclk. destruct (IH Hclk) as (Hr & fresh & Hrec & Hcount).
    split; [done|]. exists (fresh ++ [(clock w, r)]).
    rewrite Hrec, Hcount, length_app, app_assoc. simpl. split; [done|lia].
Qed.

(** X7. Until the clock reaches [dailyResetTime], the counter of the day
    goes up by exactly one for every admission recorded and changes in no
    other way, and the reset time stays where it is: counted from the
    start of the page, [dailyCount] is the count loaded from [localStorage]
    plus the number of requests let through.  So with a loaded count of
    500 at most, no more requests are let through before the reset than
    the day had left. *)
Theorem daily_count_counts_admissions t0 stored today nextDay evs w :
  run evs (boot t0 stored today nextDay) = Some w →
  clock w < nextDay →
  dailyCount (this w)
    = loadDailyCount stored today + Z.of_nat (length (recorded w)) ∧
  dailyResetTime (this w) = nextDay ∧
  (loadDailyCount stored today <= MAX_DAILY_REQUESTS →
   Z.of_nat (length (recorded w))
     <= MAX_DAILY_REQUESTS - loadDailyCount stored today).
Proof.
  intros Hrun Hclk.
  assert (ReachFrom (eq (boot t0 stored today nextDay)) w) as HR.
  { eapply Reach_run; [|by apply Reach_root|exact Hrun].
    intros ? <-. by left. }
  destruct (count_inv_Reach _ w HR Hclk) as (Hr & fresh & Hrec & Hcount).
  simpl in *. subst fresh. split; [done|]. split; [done|].
  intros Hloaded.
  pose proof (dailyCount_bounds_Reach (boot t0 stored today nextDay)
                (Z.min 0 (loadDailyCount stored today)) MAX_DAILY_REQUESTS)
    as Hb.
  simpl in Hb. specialize (Hb ltac:(lia) ltac:(lia)
                              (reachable_boot t0 stored today nextDay)
                              ltac:(lia) w HR).
  lia.
Qed.

Lemma daily_count_counts_admissions_witness :
  run sample_run (boot 1000 (Some 7) true 86400000) = Some sample_state ∧
  clock sample_state < 86400000 ∧
  dailyCount (this sample_state)
    = 7 + Z.of_nat (length (recorded sample_state)).
Proof.
  assert (run sample_run (boot 1000 (Some 7) true 86400000)
          = Some sample_state) as Hrun by (vm_compute; reflexivity).
  assert (clock sample_state < 86400000) as Hclk by (vm_compute; reflexivity).
  split; [exact Hrun|]. split; [exact Hclk|].
  apply (daily_count_counts_admissions 1000 (Some 7) true 86400000
           sample_run sample_state Hrun Hclk).
Defined.

(** ** The status and the next request *)

(** The answer of [canMakeRequest] depends on the counter and on the
    recent part of the history only. *)
Lemma canMakeRequest_status now l l' :
  dailyCount l' = dailyCount l →
  prune now (requestHistory l') = prune now (requestHistory l) →
  (canMakeRequest now l').1 = (canMakeRequest now l).1.
Proof.
  unfold canMakeRequest. intros Hd Hh. rewrite Hd.
  case_decide; [done|]. simpl. rewrite Hh.
  case_decide; [done|].
  destruct (last (prune now (requestHistory l))) as [x|]; [|done].
  by destruct (truthy x && bool_decide (now - x < MIN_REQUEST_SPACING_MS)).
Qed.

Lemma waitUntilCanRequest_first now l :
  (waitUntilCanRequest now 0 l).1 = WReturn
  ↔ allowed (canMakeRequest now l).1 = true.
Proof.
  unfold waitUntilCanRequest.
  rewrite decide_True by (unfold maxAttempts; lia).
  destruct (canMakeRequest now l) as [st l1]. simpl.
  destruct (allowed st); [done|].
  split; [|done]. by case_decide.
Qed.

(** X23. The status tells what happens to the next request.  On an idle
    limiter, [getQueueStatus] reports an empty queue, and it reports
    [canMakeRequest] exactly when a request enqueued at that instant is let
    through at once, without sleeping and without being rejected. *)
Theorem status_predicts_admission w now rnd prio w' :
  reachable w → drains w = [] →
  step now (EvEnqueue rnd prio) w = Some w' →
  queueLength (getQueueStatus now (this w)).1 = 0%nat ∧
  (canMakeRequestNow (getQueueStatus now (this w)).1 = true
   ↔ ∃ r, drains w' = [AwaitReturned r]).
Proof.
  intros HR Hd Hstep.
  destruct (single_drain_reachable w HR) as [(_ & Hp & Hq)|(s & Hd' & _)];
    [|congruence].
  assert (canMakeRequestNow (getQueueStatus now (this w)).1
          = allowed (canMakeRequest now (this w)).1) as Hcan.
  { unfold getQueueStatus.
    pose proof (canMakeRequest_status now (this w)
                  (with_requestHistory (prune now (requestHistory (this w)))
                     (this w)) eq_refl (prune_prune _ _)) as Hs.
    destruct (canMakeRequest now (with_requestHistory _ _)) as [st l2].
    simpl in *. by rewrite Hs. }
  split.
  { unfold getQueueStatus.
    destruct (canMakeRequest now (with_requestHistory _ _)). simpl.
    by rewrite Hq. }
  rewrite Hcan. unfold step in Hstep. case_decide; [done|]. simplify_eq.
  pose proof (enqueue_shape now rnd prio (with_clock now w)) as Hs.
  simpl in Hs. destruct Hs as (_ & _ & _ & _ & _ & _ & _ & Hs).
  destruct Hs as [(Hp' & _)|(_ & r' & res & _ & Hw & Hdr & _)]; [congruence|].
  rewrite Hdr, Hd. simpl.
  assert (res = WReturn ↔ allowed (canMakeRequest now (this w)).1 = true)
    as Hres.
  { rewrite <- (canMakeRequest_status now (this w)
                  (with_queue (queue (this (enqueue now rnd prio
                                              (with_clock now w))))
                     (with_isProcessing true (this w))) eq_refl eq_refl).
    rewrite <- waitUntilCanRequest_first, Hw. done. }
  rewrite <- Hres. split.
  - intros ->. eauto.
  - intros [r Hr]. injection Hr as Hr. by destruct res.
Qed.

Lemma status_predicts_admission_witness :
  reachable sample_boot ∧ drains sample_boot = [] ∧
  queueLength (getQueueStatus 1000 (this sample_boot)).1 = 0%nat.
Proof.
  assert (reachable sample_boot) as HR by constructor.
  split; [exact HR|]. split; [reflexivity|].
  apply (status_predicts_admission sample_boot 1000 11 0
           (enqueue 1000 11 0 (with_clock 1000 sample_boot)) HR eq_refl).
  reflexivity.
Defined.

End RateLimiterProofs.

(* ===================================================================== *)
(** * Properties of the cache *)
(* ===================================================================== *)

Module CacheServiceProofs.
Import Json CacheService.

Lemma getStorageKey_inj key key' :
  getStorageKey key = getStorageKey key' → key = key'.
Proof. unfold getStorageKey. apply (inj (String.app PREFIX)). Qed.

Lemma getStorageKey_ne key key' :
  key ≠ key' → getStorageKey key ≠ getStorageKey key'.
Proof. intros Hne Heq. by apply Hne, getStorageKey_inj. Qed.

Section one_key.
Context (key : string).

(** Nothing is cached under [key] in either tier. *)
Definition purged (c : Cache) : Prop :=
  memoryCache c !! key = None ∧ localStorage c !! getStorageKey key = None.

Lemma delete_purged c : purged (delete key c).
Proof. split; simpl; apply lookup_delete_eq. Qed.

Lemma delete_other key' c :
  key' ≠ key →
  memoryCache (delete key' c) !! key = memoryCache c !! key ∧
  (purged c → purged (delete key' c)).
Proof.
  intros Hne. simpl. rewrite lookup_delete_ne by done. split; [done|].
  intros [Hm Hl]. split; simpl.
  - by rewrite lookup_delete_ne.
  - rewrite lookup_delete_ne; [done|]. by apply getStorageKey_ne.
Qed.

Lemma cleanOldEntries_purged now c : purged c → purged (cleanOldEntries now c).
Proof.
  intros [Hm Hl]. split; simpl; [done|].
  apply map_lookup_filter_None. by left.
Qed.

Lemma set_same now d type stored c :
  memoryCache (set now key d type stored c) !! key
  = Some {| data := d; timestamp := now;
            expiresAt := now + CACHE_DURATIONS type |}.
Proof. unfold set. destruct stored; simpl; apply lookup_insert_eq. Qed.

Lemma set_other now key' d type stored c :
  key' ≠ key →
  memoryCache (set now key' d type stored c) !! key = memoryCache c !! key ∧
  (purged c → purged (set now key' d type stored c)).
Proof.
  intros Hne. unfold set. destruct stored; simpl.
  - rewrite lookup_insert_ne by done. split; [done|].
    intros [Hm Hl]. split; simpl.
    + by rewrite lookup_insert_ne.
    + rewrite lookup_insert_ne; [done|]. by apply getStorageKey_ne.
  - rewrite lookup_insert_ne by done. split; [done|].
    intros [Hm Hl]. split; simpl.
    + by rewrite lookup_insert_ne.
    + apply map_lookup_filter_None. by left.
Qed.

Lemma get_other now key' c :
  key' ≠ key →
  memoryCache (get now key' c).2 !! key = memoryCache c !! key ∧
  (purged c → purged (get now key' c).2).
Proof.
  intros Hne. unfold get.
  destruct (memoryCache c !! key') as [e|] eqn:Hm.
  - case_decide; simpl; [by apply delete_other|done].
  - destruct (localStorage c !! getStorageKey key') as [[e|t]|] eqn:Hl;
      [|done|done].
    assert (memoryCache
              {| memoryCache := <[key':=e]> (memoryCache c);
                 localStorage := localStorage c |} !! key
            = memoryCache c !! key) as Hins
      by (simpl; by rewrite lookup_insert_ne).
    assert (purged c →
            purged {| memoryCache := <[key':=e]> (memoryCache c);
                      localStorage := localStorage c |}) as Hp.
    { intros [? ?]. split; simpl; [by rewrite lookup_insert_ne|done]. }
    case_decide; simpl.
    + destruct (delete_other key'
                  {| memoryCache := <[key':=e]> (memoryCache c);
                     localStorage := localStorage c |} Hne) as [Hd1 Hd2].
      simpl in *. split; [by rewrite Hd1, lookup_insert_ne|]. auto.
    + split; [by rewrite lookup_insert_ne|done].
Qed.

(** [get] on [key] when the memory tier holds [e]. *)
Lemma get_hit now c e :
  memoryCache c !! key = Some e →
  get now key c = if decide (expiresAt e < now) then (JNull, delete key c)
                  else (data e, c).
Proof. intros Hm. unfold get. rewrite Hm. done. Qed.

Lemma get_purged now c : purged c → get now key c = (JNull, c).
Proof. intros [Hm Hl]. unfold get. rewrite Hm, Hl. done. Qed.

(** What the calls made so far leave behind for [key], [e] being what its
    latest [set] wrote: the memory tier holds [e], or a [get] found it
    expired and purged it. *)
Definition latest_kept (now : Z) (acc : option CacheEntry) (c : Cache) : Prop :=
  match acc with
  | None => True
  | Some e =>
      memoryCache c !! key = Some e ∨
      (purged c ∧ ∃ t, expiresAt e < t ∧ t <= now)
  end.

Lemma call_latest_kept now t op acc c :
  t <= now → latest_kept now acc c →
  latest_kept now (lastSet key [(t, op)] acc) (call t op c).
Proof.
  intros Ht Hinv. destruct op as [key' d type stored|key']; simpl.
  - destruct (String.eqb key' key) eqn:Hk.
    + apply String.eqb_eq in Hk as ->. left. apply set_same.
    + apply String.eqb_neq in Hk.
      destruct (set_other t key' d type stored c Hk) as [Hm Hp].
      destruct acc as [e|]; [|done]. simpl in *.
      destruct Hinv as [He|[Hpu Hex]]; [left; by rewrite Hm|right; auto].
  - destruct acc as [e|]; [|done]. simpl in *.
    destruct (decide (key' = key)) as [->|Hk].
    + destruct Hinv as [He|[Hpu Hex]].
      * rewrite (get_hit _ _ _ He). case_decide; simpl; [|by left].
        right. split; [apply delete_purged|]. exists t. lia.
      * rewrite (get_purged _ _ Hpu). simpl. right. auto.
    + destruct (get_other t key' c Hk) as [Hm Hp].
      destruct Hinv as [He|[Hpu Hex]]; [left; by rewrite Hm|right; auto].
Qed.

Lemma calls_latest_kept now ops acc c :
  Forall (λ op, op.1 <= now) ops → latest_kept now acc c →
  latest_kept now (lastSet key ops acc) (calls ops c).
Proof.
  revert acc c. induction ops as [|[t op] ops IH]; intros acc c Hle Hinv;
    [done|].
  apply Forall_cons in Hle as [Ht Hle]. simpl in Ht.
  pose proof (call_latest_kept now t op acc c Ht Hinv) as Hstep.
  change (calls ((t, op) :: ops) c) with (calls ops (call t op c)).
  assert (lastSet key ((t, op) :: ops) acc
          = lastSet key ops (lastSet key [(t, op)] acc)) as ->.
  { simpl. destruct op; [destruct (String.eqb _ _)|]; done. }
  by apply IH.
Qed.

End one_key.

(** C5. After any calls of [set] and [get], a [get] of [key] made no
    earlier than they were returns what the latest [set] of [key] stored as
    long as the clock has not passed its [expiresAt] (the time of that [set]
    plus the duration of its category); once it has, [get] returns [null]
    and neither the memory tier nor [localStorage] holds the entry. *)
Theorem get_returns_latest_until_expiry c0 ops key now e :
  Forall (λ op, op.1 <= now) ops →
  lastSet key ops None = Some e →
  (now <= expiresAt e → (get now key (calls ops c0)).1 = data e) ∧
  (expiresAt e < now →
     (get now key (calls ops c0)).1 = JNull ∧
     memoryCache (get now key (calls ops c0)).2 !! key = None ∧
     localStorage (get now key (calls ops c0)).2 !! getStorageKey key = None).
Proof.
  intros Hle Hlast.
  pose proof (calls_latest_kept key now ops None c0 Hle I) as Hinv.
  rewrite Hlast in Hinv. simpl in Hinv.
  destruct Hinv as [He|[Hpu (t & Ht1 & Ht2)]].
  - rewrite (get_hit key now _ e He). split; intros Hnow.
    + case_decide; [lia|done].
    + case_decide; [|lia]. simpl. split; [done|].
      split; apply lookup_delete_eq.
  - rewrite (get_purged key now _ Hpu). split; intros Hnow; [lia|].
    destruct Hpu as [? ?]. done.
Qed.

Definition sample_quote : json := JObj [("price"%string, JNum 150)].

Definition sample_calls : list (Z * Call) :=
  [ (1000, CallSet "quote_AAPL" sample_quote QUOTE true);
    (2000, CallGet "quote_MSFT") ].

Lemma get_returns_latest_until_expiry_witness :
  Forall (λ op : Z * Call, op.1 <= 31000) sample_calls ∧
  (get 31000 "quote_AAPL" (calls sample_calls empty)).1 = sample_quote.
Proof.
  assert (Forall (λ op : Z * Call, op.1 <= 31000) sample_calls) as Hle
    by (unfold sample_calls; repeat constructor; simpl; lia).
  split; [exact Hle|].
  apply (get_returns_latest_until_expiry empty sample_calls "quote_AAPL" 31000
           {| data := sample_quote; timestamp := 1000; expiresAt := 61000 |}
           Hle eq_refl).
  simpl. lia.
Defined.

(** ** What [invalidateSymbol] deletes *)

Lemma prefix_nil s : String.prefix "" s = true.
Proof. by destruct s. Qed.

Lemma prefix_app p s : String.prefix p (p +:+ s) = true.
Proof.
  induction p as [|a p IH]; simpl; [apply prefix_nil|].
  destruct (ascii_dec a a); [done|congruence].
Qed.

Lemma prefix_split p s :
  String.prefix p s = true → ∃ r, s = p +:+ r.
Proof.
  revert s. induction p as [|a p IH]; intros s H; simpl in *.
  - by exists s.
  - destruct s as [|b s]; [done|]. simpl in H.
    destruct (ascii_dec a b) as [->|]; [|done].
    destruct (IH s H) as [r ->]. by exists r.
Qed.

Lemma substring_all s : String.substring 0 (String.length s) s = s.
Proof. induction s as [|a s IH]; simpl; [done|]. by rewrite IH. Qed.

Lemma substring_after p s :
  String.substring (String.length p)
    (String.length (p +:+ s) - String.length p) (p +:+ s) = s.
Proof.
  induction p as [|a p IH]; simpl.
  - rewrite Nat.sub_0_r. apply substring_all.
  - exact IH.
Qed.

Lemma replace_at_start pat rep s :
  String.prefix pat s = true →
  replace pat rep s
  = rep +:+ String.substring (String.length pat)
              (String.length s - String.length pat) s.
Proof.
  intros H. destruct s as [|b s].
  - destruct pat; [done|discriminate].
  - change (replace pat rep (String b s))
      with (if String.prefix pat (String b s)
            then rep +:+ String.substring (String.length pat)
                           (String.length (String b s) - String.length pat)
                           (String b s)
            else String b (replace pat rep s)).
    by rewrite H.
Qed.

Lemma replace_prefix key : replace PREFIX "" (getStorageKey key) = key.
Proof.
  unfold getStorageKey.
  rewrite replace_at_start by apply prefix_app.
  by rewrite substring_after.
Qed.

Lemma includes_app p s sub :
  includes s sub = true → includes (p +:+ s) sub = true.
Proof.
  intros H. induction p as [|a p IH]; simpl; [done|].
  rewrite IH. apply orb_true_r.
Qed.

Lemma includes_prefix s sub :
  String.prefix sub s = true → includes s sub = true.
Proof.
  intros H. destruct s as [|c s].
  - by destruct sub.
  - change (includes (String c s) sub)
      with (String.prefix sub (String c s) || includes s sub).
    by rewrite H.
Qed.

(** [includes] is containment as a substring. *)
Lemma includes_spec s sub :
  includes s sub = true ↔ ∃ a b, s = a +:+ sub +:+ b.
Proof.
  split.
  - induction s as [|c s IH]; intros H.
    + destruct sub; [|done]. by exists ""%string, ""%string.
    + change (includes (String c s) sub)
        with (String.prefix sub (String c s) || includes s sub) in H.
      apply orb_true_iff in H as [H|H].
      * apply prefix_split in H as [r ->]. by exists ""%string, r.
      * destruct (IH H) as (a & b & ->). by exists (String c a), b.
  - intros (a & b & ->). apply includes_app, includes_prefix, prefix_app.
Qed.

(** Deleting a list of keys, tier by tier. *)
Lemma deleted_memory ks c key :
  memoryCache (foldl (λ c' k, delete k c') c ks) !! key
  = if decide (key ∈ ks) then None else memoryCache c !! key.
Proof.
  revert c. induction ks as [|k ks IH]; intros c.
  - rewrite decide_False by apply not_elem_of_nil. done.
  - change (foldl (λ c' k0, delete k0 c') c (k :: ks))
      with (foldl (λ c' k0, delete k0 c') (delete k c) ks).
    rewrite IH. cbn [delete memoryCache].
    destruct (decide (key ∈ ks)) as [Hin|Hout].
    + rewrite decide_True; [done|]. by right.
    + destruct (decide (key = k)) as [->|Hne].
      * rewrite decide_True by left. apply lookup_delete_eq.
      * rewrite decide_False by (intros [?|?]%elem_of_cons; done).
        by apply lookup_delete_ne.
Qed.

Lemma deleted_storage ks c key :
  localStorage (foldl (λ c' k, delete k c') c ks) !! getStorageKey key
  = if decide (key ∈ ks) then None else localStorage c !! getStorageKey key.
Proof.
  revert c. induction ks as [|k ks IH]; intros c.
  - rewrite decide_False by apply not_elem_of_nil. done.
  - change (foldl (λ c' k0, delete k0 c') c (k :: ks))
      with (foldl (λ c' k0, delete k0 c') (delete k c) ks).
    rewrite IH. cbn [delete localStorage].
    destruct (decide (key ∈ ks)) as [Hin|Hout].
    + rewrite decide_True; [done|]. by right.
    + destruct (decide (key = k)) as [->|Hne].
      * rewrite decide_True by left. apply lookup_delete_eq.
      * rewrite decide_False by (intros [?|?]%elem_of_cons; done).
        apply lookup_delete_ne. by apply getStorageKey_ne.
Qed.

Lemma elem_of_keys {V} (m : gmap string V) key :
  key ∈ keys m ↔ is_Some (m !! key).
Proof.
  unfold keys. rewrite list_elem_of_fmap. split.
  - intros ([k v] & -> & Hin). apply elem_of_map_to_list in Hin. eauto.
  - intros [v Hv]. exists (key, v). split; [done|].
    by apply elem_of_map_to_list.
Qed.

(** The keys [invalidateSymbol] collects. *)
Definition keysToDelete (symbol : string) (c : Cache) : list string :=
  filter (λ key, includes key symbol = true) (keys (memoryCache c)) ++
  ((replace PREFIX "")
     <$> filter (λ key, startsWith key PREFIX && includes key symbol = true)
           (keys (localStorage c))).

Lemma invalidateSymbol_unfold symbol c :
  invalidateSymbol symbol c
  = foldl (λ c' k, delete k c') c (keysToDelete symbol c).
Proof. done. Qed.

(** A key is collected exactly when it is in the memory tier and contains
    the symbol, or it is in [localStorage] and its storage key, prefix
    included, contains the symbol. *)
Lemma elem_of_keysToDelete symbol c key :
  key ∈ keysToDelete symbol c ↔
  (is_Some (memoryCache c !! key) ∧ includes key symbol = true) ∨
  (is_Some (localStorage c !! getStorageKey key) ∧
   includes (getStorageKey key) symbol = true).
Proof.
  unfold keysToDelete. rewrite elem_of_app, list_elem_of_filter, elem_of_keys.
  rewrite list_elem_of_fmap. split.
  - intros [[? ?]|(sk & -> & Hin)]; [by left|]. right.
    apply list_elem_of_filter in Hin as [Hp Hin].
    apply andb_true_iff in Hp as [Hp Hs].
    apply prefix_split in Hp as [r ->].
    change (PREFIX +:+ r) with (getStorageKey r) in *.
    rewrite replace_prefix. by apply elem_of_keys in Hin.
  - intros [[? ?]|[Hin Hs]]; [by left|]. right.
    exists (getStorageKey key). split; [by rewrite replace_prefix|].
    apply list_elem_of_filter. split; [|by apply elem_of_keys].
    apply andb_true_iff. split; [|done]. apply prefix_app.
Qed.

(** What the method does get right: an entry whose key contains the symbol
    is gone from both tiers. *)
Lemma invalidateSymbol_removes symbol c key :
  includes key symbol = true →
  memoryCache (invalidateSymbol symbol c) !! key = None ∧
  localStorage (invalidateSymbol symbol c) !! getStorageKey key = None.
Proof.
  intros Hs. rewrite invalidateSymbol_unfold, deleted_memory, deleted_storage.
  destruct (decide (key ∈ keysToDelete symbol c)) as [|Hout]; [done|].
  rewrite elem_of_keysToDelete in Hout.
  split.
  - destruct (memoryCache c !! key) eqn:Hm; [|done].
    destruct Hout. left. eauto.
  - destruct (localStorage c !! getStorageKey key) eqn:Hl; [|done].
    destruct Hout. right. split; [eauto|]. by apply includes_app.
Qed.

(** What it leaves alone: the entries whose storage key, prefix included,
    does not contain the symbol. *)
Lemma invalidateSymbol_keeps symbol c key :
  includes (getStorageKey key) symbol = false →
  memoryCache (invalidateSymbol symbol c) !! key = memoryCache c !! key ∧
  localStorage (invalidateSymbol symbol c) !! getStorageKey key
    = localStorage c !! getStorageKey key.
Proof.
  intros Hs. rewrite invalidateSymbol_unfold, deleted_memory, deleted_storage.
  destruct (decide (key ∈ keysToDelete symbol c)) as [Hin|]; [|done].
  apply elem_of_keysToDelete in Hin as [[_ Hk]|[_ Hk]]; [|congruence].
  apply (includes_app PREFIX) in Hk. unfold getStorageKey in Hs. congruence.
Qed.

(** [c] occurs in [p]. *)
Fixpoint occurs (c : ascii) (p : string) : bool :=
  match p with
  | EmptyString => false
  | String a p' => (if ascii_dec c a then true else false) || occurs c p'
  end.

(** A symbol whose first character is not in the prefix cannot match
    across it. *)
Lemma includes_past p s c rest :
  occurs c p = false →
  includes (p +:+ s) (String c rest) = includes s (String c rest).
Proof.
  induction p as [|a p IH]; simpl; intros H; [done|].
  apply orb_false_iff in H as [Ha Hp].
  destruct (ascii_dec c a); [done|]. simpl. by apply IH.
Qed.

(** For a symbol that starts with a character other than those of
    'av_cache_' (any upper-case ticker, as [refreshSymbol] passes) the
    entries whose key does not contain the symbol are left alone. *)
Lemma invalidateSymbol_keeps_others c rest cache key :
  occurs c PREFIX = false →
  includes key (String c rest) = false →
  memoryCache (invalidateSymbol (String c rest) cache) !! key
    = memoryCache cache !! key ∧
  localStorage (invalidateSymbol (String c rest) cache) !! getStorageKey key
    = localStorage cache !! getStorageKey key.
Proof.
  intros Hc Hs. apply invalidateSymbol_keeps.
  unfold getStorageKey. by rewrite includes_past.
Qed.

(** ** [invalidateSymbol] and the storage prefix *)

Definition msft_quote : json := JObj [("price"%string, JNum 410)].

(** The cache after [set('quote_MSFT', ..., 'QUOTE')] on an empty one. *)
Definition msft_cache : Cache := set 1000 "quote_MSFT" msft_quote QUOTE true empty.

(** C7 at a failing input.  The test on the keys of [localStorage] is made
    on the storage key, prefix included, so a symbol that occurs in
    'av_cache_' matches every stored entry: [invalidateSymbol('cache')]
    removes the entry of 'quote_MSFT' from both tiers although that key does
    not contain 'cache' (and the scan of the memory tier, made on the bare
    key, selects nothing). *)
Theorem invalidateSymbol_matches_prefix :
  includes "quote_MSFT" "cache" = false ∧
  filter (λ key, includes key "cache" = true) (keys (memoryCache msft_cache))
    = [] ∧
  is_Some (memoryCache msft_cache !! "quote_MSFT"%string) ∧
  is_Some (localStorage msft_cache !! getStorageKey "quote_MSFT") ∧
  memoryCache (invalidateSymbol "cache" msft_cache) !! "quote_MSFT"%string
    = None ∧
  localStorage (invalidateSymbol "cache" msft_cache)
    !! getStorageKey "quote_MSFT" = None.
Proof.
  split_and!; try (vm_compute; reflexivity).
  - vm_compute. eauto.
  - vm_compute. eauto.
Qed.

(** ** What a reader sees *)

(** The data of an entry as a reader at [now] gets it. *)
Definition visible (now : Z) (e : CacheEntry) : json :=
  if decide (expiresAt e < now) then JNull else data e.

(** What the two tiers hold for [key], the memory tier first. *)
Definition entry_of (key : string) (c : Cache) : option CacheEntry :=
  match memoryCache c !! key with
  | Some e => Some e
  | None =>
      match localStorage c !! getStorageKey key with
      | Some (Serialized e) => Some e
      | _ => None
      end
  end.

Definition peek (now : Z) (key : string) (c : Cache) : json :=
  from_option (visible now) JNull (entry_of key c).

Lemma get_peek now key c : (get now key c).1 = peek now key c.
Proof.
  unfold get, peek, entry_of, visible.
  destruct (memoryCache c !! key) as [e|]; simpl.
  - by case_decide.
  - destruct (localStorage c !! getStorageKey key) as [[e|t]|]; simpl;
      try done. by case_decide.
Qed.

Lemma entry_of_delete key key' c :
  entry_of key (delete key' c) = if decide (key = key') then None else entry_of key c.
Proof.
  unfold entry_of. simpl. case_decide as Hk.
  - subst. by rewrite !lookup_delete_eq.
  - rewrite !lookup_delete_ne; [done| |done].
    apply getStorageKey_ne. congruence.
Qed.

Lemma entry_of_restore key key' e c :
  memoryCache c !! key' = None →
  localStorage c !! getStorageKey key' = Some (Serialized e) →
  entry_of key {| memoryCache := <[key' := e]> (memoryCache c);
              localStorage := localStorage c |} = entry_of key c.
Proof.
  intros Hm Hl. unfold entry_of. simpl.
  destruct (decide (key = key')) as [->|Hne].
  - by rewrite lookup_insert_eq, Hm, Hl.
  - by rewrite lookup_insert_ne.
Qed.

Lemma peek_expired now key c e :
  entry_of key c = Some e → expiresAt e < now → peek now key c = JNull.
Proof.
  unfold peek, visible. intros -> He. simpl. by rewrite decide_True.
Qed.

(** A [get] changes what the tiers hold only by dropping an entry that
    has expired. *)
Lemma entry_of_get t key key' c :
  entry_of key (get t key' c).2 = entry_of key c ∨
  (key = key' ∧ entry_of key (get t key' c).2 = None ∧
   ∃ e, entry_of key c = Some e ∧ expiresAt e < t).
Proof.
  unfold get.
  destruct (memoryCache c !! key') as [e|] eqn:Hm.
  - case_decide as He; simpl; [|by left].
    rewrite entry_of_delete. case_decide as Hk; [|by left].
    subst. right. split_and!; [done|done|].
    exists e. unfold entry_of. by rewrite Hm.
  - destruct (localStorage c !! getStorageKey key') as [[e|txt]|] eqn:Hl;
      simpl; [|by left|by left].
    case_decide as He; simpl.
    + rewrite entry_of_delete. case_decide as Hk.
      * subst. right. split_and!; [done|done|].
        exists e. unfold entry_of. by rewrite Hm, Hl.
      * left. by apply entry_of_restore.
    + left. by apply entry_of_restore.
Qed.

Lemma peek_get now t key key' c :
  t <= now → peek now key (get t key' c).2 = peek now key c.
Proof.
  intros Ht. destruct (entry_of_get t key key' c) as [Hh|(_ & Hh & e & He & Hx)].
  - unfold peek. by rewrite Hh.
  - rewrite (peek_expired now key c e He) by lia. unfold peek. by rewrite Hh.
Qed.

Lemma peek_cleanOldEntries now t key c :
  t <= now → peek now key (cleanOldEntries t c) = peek now key c.
Proof.
  intros Ht. unfold peek, entry_of. simpl.
  destruct (memoryCache c !! key) as [e|]; [done|].
  destruct (localStorage c !! getStorageKey key) as [item|] eqn:Hl.
  - destruct (stale t (getStorageKey key) item) eqn:Hs.
    + rewrite (proj2 (map_lookup_filter_None _ _ _)).
      2:{ right. intros x Hx. simpl. congruence. }
      destruct item as [e|txt]; [|done]. simpl.
      unfold stale in Hs. apply andb_true_iff in Hs as [_ Hs].
      apply bool_decide_eq_true in Hs.
      unfold visible. rewrite decide_True by lia. done.
    + rewrite (map_lookup_filter_Some_2 _ _ _ item); done.
  - rewrite (proj2 (map_lookup_filter_None _ _ _)); [done|]. by left.
Qed.

Lemma peek_set_other now t key key' d type stored c :
  key' ≠ key → t <= now →
  peek now key (set t key' d type stored c) = peek now key c.
Proof.
  intros Hne Ht. unfold set. destruct stored.
  - unfold peek, entry_of. simpl. rewrite !lookup_insert_ne; [done| |done].
    by apply getStorageKey_ne.
  - rewrite peek_cleanOldEntries by done.
    unfold peek, entry_of. simpl. by rewrite lookup_insert_ne.
Qed.


(** X8. Reading disturbs no reader: a [get] or [has] of any key, the same
    or another, changes nothing in what a later [get] returns, although it
    may move an entry into the memory tier or delete an expired one. *)
Theorem reads_disturb_no_reader now t key key' c :
  t <= now →
  (get now key (get t key' c).2).1 = (get now key c).1 ∧
  (get now key (has t key' c).2).1 = (get now key c).1.
Proof.
  intros Ht. rewrite !get_peek.
  assert ((has t key' c).2 = (get t key' c).2) as ->
    by (unfold has; by destruct (get t key' c)).
  split; by apply peek_get.
Qed.

Lemma reads_disturb_no_reader_witness :
  1000 <= 2000 ∧
  (get 2000 "quote_MSFT" (get 1000 "quote_MSFT" msft_cache).2).1
  = (get 2000 "quote_MSFT" msft_cache).1.
Proof.
  assert (1000 <= 2000) as Ht by lia.
  split; [exact Ht|].
  apply (reads_disturb_no_reader 2000 1000 "quote_MSFT" "quote_MSFT"
           msft_cache Ht).
Defined.

(** X9. Keys do not interfere: a [set] (also one that [localStorage]
    refuses, which triggers [cleanOldEntries]) or a [delete] of one key
    changes nothing in what a later [get] of another key returns. *)
Theorem writes_touch_one_key now t key key' d type stored c :
  key' ≠ key → t <= now →
  (get now key (set t key' d type stored c)).1 = (get now key c).1 ∧
  (get now key (delete key' c)).1 = (get now key c).1.
Proof.
  intros Hne Ht. rewrite !get_peek. split.
  - by apply peek_set_other.
  - unfold peek. rewrite entry_of_delete. by rewrite decide_False.
Qed.

Lemma writes_touch_one_key_witness :
  ("quote_AAPL" : string) ≠ "quote_MSFT" ∧ 1500 <= 2000 ∧
  (get 2000 "quote_MSFT"
     (set 1500 "quote_AAPL" sample_quote QUOTE false msft_cache)).1
  = (get 2000 "quote_MSFT" msft_cache).1.
Proof.
  assert (("quote_AAPL" : string) ≠ "quote_MSFT") as Hne by discriminate.
  assert (1500 <= 2000) as Ht by lia.
  split; [exact Hne|]. split; [exact Ht|].
  apply (writes_touch_one_key 2000 1500 "quote_MSFT" "quote_AAPL"
           sample_quote QUOTE false msft_cache Hne Ht).
Defined.

(** ** The memory tier mirrors [localStorage] *)

(** Every entry of the memory tier is in [localStorage] as well. *)
Definition mirrored (c : Cache) : Prop :=
  ∀ key e, memoryCache c !! key = Some e →
    localStorage c !! getStorageKey key = Some (Serialized e).

Lemma mirrored_delete key c : mirrored c → mirrored (delete key c).
Proof.
  intros Hm k e. simpl. intros Hk.
  apply lookup_delete_Some in Hk as [Hne Hk].
  rewrite lookup_delete_ne; [by apply Hm|]. by apply getStorageKey_ne.
Qed.

Lemma mirrored_deletes ks c :
  mirrored c → mirrored (foldl (λ c' k, delete k c') c ks).
Proof.
  revert c. induction ks as [|k ks IH]; intros c Hm; [done|].
  simpl. by apply IH, mirrored_delete.
Qed.

Lemma mirrored_get t key c : mirrored c → mirrored (get t key c).2.
Proof.
  intros Hm. unfold get.
  destruct (memoryCache c !! key) as [e|] eqn:Hk.
  - case_decide; simpl; [by apply mirrored_delete|done].
  - destruct (localStorage c !! getStorageKey key) as [[e|txt]|] eqn:Hl;
      simpl; [|done|done].
    assert (mirrored {| memoryCache := <[key := e]> (memoryCache c);
                        localStorage := localStorage c |}) as Hm'.
    { intros k e'. simpl. intros Hk'.
      apply lookup_insert_Some in Hk' as [[<- <-]|[_ Hk']]; [done|].
      by apply Hm. }
    case_decide; simpl; [by apply mirrored_delete|done].
Qed.

Lemma mirrored_invoke t m c :
  persisted m = true → mirrored c → mirrored (invoke t m c).
Proof.
  intros Hp Hm. destruct m as [key d type stored|key|key|key| |symbol]; simpl.
  - simpl in Hp. subst stored. unfold set. intros k e. simpl. intros Hk.
    apply lookup_insert_Some in Hk as [[<- <-]|[Hne Hk]].
    + apply lookup_insert_eq.
    + rewrite lookup_insert_ne; [by apply Hm|]. by apply getStorageKey_ne.
  - by apply mirrored_get.
  - unfold has. pose proof (mirrored_get t key c Hm) as Hg.
    by destruct (get t key c).
  - by apply mirrored_delete.
  - intros k e. simpl. by rewrite lookup_empty.
  - rewrite invalidateSymbol_unfold. by apply mirrored_deletes.
Qed.

Lemma mirrored_session ms c :
  Forall (λ m, persisted m.2 = true) ms → mirrored c →
  mirrored (session ms c).
Proof.
  revert c. induction ms as [|[t m] ms IH]; intros c Hp Hm; [done|].
  apply Forall_cons in Hp as [Hp1 Hp]. simpl in Hp1.
  change (session ((t, m) :: ms) c) with (session ms (invoke t m c)).
  by apply IH, mirrored_invoke.
Qed.



Definition sample_session : list (Z * Method) :=
  [ (1000, MSet "quote_AAPL" sample_quote QUOTE true);
    (2000, MGet "quote_MSFT");
    (3000, MInvalidateSymbol "MSFT") ].




(** ** [clear], [delete] and the items of others *)

Lemma startsWith_getStorageKey key : startsWith (getStorageKey key) PREFIX = true.
Proof. apply prefix_app. Qed.

Lemma filter_none {A} (P : A → Prop) `{∀ x, Decision (P x)} (l : list A) :
  (∀ x, x ∈ l → ¬ P x) → filter P l = [].
Proof.
  induction l as [|x l IH]; intros Hl; [done|].
  rewrite filter_cons_False by (apply Hl; by left).
  apply IH. intros y Hy. apply Hl. by right.
Qed.

(** X12. [clear] empties the cache and nothing else: afterwards every
    [get] returns [null] and changes nothing, [getStats] counts no entry,
    and the items of [localStorage] outside the prefix 'av_cache_' (the
    counter of the rate limiter among them) are as they were. *)
Theorem clear_empties_the_cache c :
  (∀ now key, get now key (clear c) = (JNull, clear c)) ∧
  getStats (clear c)
    = {| memoryEntries := 0; localStorageEntries := 0; totalEntries := 0 |} ∧
  (∀ k, startsWith k PREFIX = false →
        localStorage (clear c) !! k = localStorage c !! k) ∧
  clear (clear c) = clear c.
Proof.
  assert (∀ k, startsWith k PREFIX = true →
               localStorage (clear c) !! k = None) as Hgone.
  { intros k Hk. simpl. apply map_lookup_filter_None. right.
    intros x _. simpl. congruence. }
  assert (∀ k, startsWith k PREFIX = false →
               localStorage (clear c) !! k = localStorage c !! k) as Hkept.
  { intros k Hk. simpl. destruct (localStorage c !! k) as [x|] eqn:Hl.
    - by apply map_lookup_filter_Some_2.
    - apply map_lookup_filter_None. by left. }
  split_and!.
  - intros now key. apply get_purged. split; [apply lookup_empty|].
    apply Hgone, startsWith_getStorageKey.
  - unfold getStats. cbn [memoryCache clear]. rewrite map_size_empty.
    rewrite filter_none; [done|].
    intros k Hin Hk. apply elem_of_keys in Hin as [x Hx].
    rewrite Hgone in Hx by done. done.
  - exact Hkept.
  - assert (localStorage (clear (clear c)) = localStorage (clear c)) as Hf.
    { apply map_eq. intros k.
      change (localStorage (clear (clear c)))
        with (filter (λ kv : string * Item, startsWith kv.1 PREFIX = false)
                (localStorage (clear c))).
      destruct (startsWith k PREFIX) eqn:Hk.
      - rewrite Hgone by done. apply map_lookup_filter_None. right.
        intros x _. simpl. congruence.
      - destruct (localStorage (clear c) !! k) as [x|] eqn:Hl.
        + by apply map_lookup_filter_Some_2.
        + apply map_lookup_filter_None. by left. }
    change (clear (clear c))
      with {| memoryCache := ∅; localStorage := localStorage (clear (clear c)) |}.
    by rewrite Hf.
Qed.

Lemma deletes_keep_others ks c k :
  startsWith k PREFIX = false →
  localStorage (foldl (λ c' key, delete key c') c ks) !! k
  = localStorage c !! k.
Proof.
  intros Hk. revert c. induction ks as [|key ks IH]; intros c; [done|].
  simpl. rewrite IH. simpl. apply lookup_delete_ne. intros <-.
  by rewrite startsWith_getStorageKey in Hk.
Qed.

(** X13. What [invalidateSymbol] does, entry by entry.  The entry of
    [key] is removed from both tiers when the memory tier has it and [key]
    contains the symbol, or [localStorage] has it and its storage key
    contains the symbol; every other entry stays as it is in both tiers;
    and no item of [localStorage] outside the prefix is touched. *)
Theorem invalidateSymbol_entry_by_entry symbol c key :
  let c' := invalidateSymbol symbol c in
  let selected :=
    (is_Some (memoryCache c !! key) ∧ includes key symbol = true) ∨
    (is_Some (localStorage c !! getStorageKey key) ∧
     includes (getStorageKey key) symbol = true) in
  (selected →
     memoryCache c' !! key = None ∧
     localStorage c' !! getStorageKey key = None) ∧
  (¬ selected →
     memoryCache c' !! key = memoryCache c !! key ∧
     localStorage c' !! getStorageKey key
       = localStorage c !! getStorageKey key) ∧
  (∀ k, startsWith k PREFIX = false →
        localStorage c' !! k = localStorage c !! k).
Proof.
  intros c' selected. unfold c'.
  rewrite invalidateSymbol_unfold, deleted_memory, deleted_storage.
  split_and!.
  - intros Hs. apply elem_of_keysToDelete in Hs.
    by rewrite !decide_True by done.
  - intros Hs.
    assert (key ∉ keysToDelete symbol c) as Hout
      by (intros Hin; by apply Hs, elem_of_keysToDelete).
    by rewrite !decide_False by done.
  - intros k Hk. by apply deletes_keep_others.
Qed.

(** X14. While [localStorage] takes every write, [getStats] never
    reports more entries in memory than in [localStorage]. *)
Theorem stats_memory_within_storage storage ms :
  Forall (λ m, persisted m.2 = true) ms →
  let stats := getStats (session ms (new storage)) in
  (memoryEntries stats <= localStorageEntries stats)%nat ∧
  totalEntries stats = localStorageEntries stats.
Proof.
  intros Hp stats. split; [|done].
  assert (mirrored (session ms (new storage))) as Hm.
  { apply mirrored_session; [done|].
    intros k e. simpl. by rewrite lookup_empty. }
  unfold stats, getStats. simpl.
  set (c := session ms (new storage)) in *.
  rewrite <- length_map_to_list.
  rewrite <- (length_fmap fst), <- (length_fmap getStorageKey).
  apply submseteq_length, NoDup_submseteq.
  - apply NoDup_fmap_2; [intros ? ?; apply getStorageKey_inj|].
    apply NoDup_fst_map_to_list.
  - intros sk Hin. apply list_elem_of_fmap in Hin as (k & -> & Hin).
    apply list_elem_of_filter. split; [apply startsWith_getStorageKey|].
    apply elem_of_keys in Hin as [e He]. apply elem_of_keys.
    rewrite (Hm k e He). eauto.
Qed.

Lemma stats_memory_within_storage_witness :
  Forall (λ m : Z * Method, persisted m.2 = true) sample_session ∧
  (memoryEntries (getStats (session sample_session (new ∅)))
   <= localStorageEntries (getStats (session sample_session (new ∅))))%nat.
Proof.
  assert (Forall (λ m : Z * Method, persisted m.2 = true) sample_session)
    as Hp by (unfold sample_session; repeat constructor).
  split; [exact Hp|].
  apply (stats_memory_within_storage ∅ sample_session Hp).
Defined.

End CacheServiceProofs.

(* ===================================================================== *)
(** * Properties of the fetch path *)
(* ===================================================================== *)

Module AlphaVantageServiceProofs.
Import Json CacheService AlphaVantageService.

(** One of the three vendor errors, carrying the value found under its
    key. *)
Definition vendor_error (err : FetchError) : Prop :=
  ∃ v, err = InvalidSymbol v ∨ err = RateLimitExceeded v ∨ err = LimitReached v.

Lemma unless_truthy j key mk rest :
  truthy_access (get_prop j key) = true →
  ∃ v, get_prop j key = Value v ∧ unless j key mk rest = inl (mk v).
Proof.
  unfold unless. destruct (get_prop j key) as [| |v]; simpl; try done.
  intros ->. eauto.
Qed.

Lemma unless_falsy j key mk rest :
  j ≠ JNull → truthy_access (get_prop j key) = false →
  unless j key mk rest = rest.
Proof.
  unfold unless. intros Hj.
  destruct (get_prop j key) as [| |v] eqn:Hp; simpl; try done.
  - unfold get_prop in Hp. destruct j; try done. by destruct (field key fields).
  - by intros ->.
Qed.

(** The error the three tests of the closure raise on [j], if any. *)
Lemma action_vendor_error response j :
  ok response = true → body response = Some j →
  truthy_access (get_prop j "Error Message")
  || truthy_access (get_prop j "Note")
  || truthy_access (get_prop j "Information") = true →
  ∃ err, action (Some response) = inl err ∧ vendor_error err.
Proof.
  intros Hok Hbody Hkeys. unfold action. rewrite Hok, Hbody. simpl.
  assert (j ≠ JNull) as Hj by (intros ->; done).
  destruct (truthy_access (get_prop j "Error Message")) eqn:H1.
  { destruct (unless_truthy j "Error Message" InvalidSymbol
                (unless j "Note" RateLimitExceeded
                   (unless j "Information" LimitReached (inr j))) H1)
      as (v & _ & ->).
    eexists. split; [done|]. exists v. auto. }
  rewrite (unless_falsy _ _ _ _ Hj H1).
  destruct (truthy_access (get_prop j "Note")) eqn:H2.
  { destruct (unless_truthy j "Note" RateLimitExceeded
                (unless j "Information" LimitReached (inr j)) H2)
      as (v & _ & ->).
    eexists. split; [done|]. exists v. auto. }
  rewrite (unless_falsy _ _ _ _ Hj H2).
  simpl in Hkeys.
  destruct (unless_truthy j "Information" LimitReached (inr j) Hkeys)
    as (v & _ & ->).
  eexists. split; [done|]. exists v. auto.
Qed.

(** C6, as stated, fails: the closure tests the value under the key for
    truthiness, not the presence of the key.  A 200 response whose body is
    [{"Note": ""}] has the key, is not rejected, and is returned and cached as
    data. *)
Lemma empty_note_is_returned_as_data :
  let j := JObj [("Note"%string, JStr "")] in
  let response := {| ok := true; statusText := "OK"; body := Some j |} in
  let f := fetchWithRateLimit 1000 1500 true "quote_IBM" QUOTE
             (Ran (Some response)) empty in
  get_prop j "Note" = Value (JStr "") ∧
  action (Some response) = inr j ∧
  result f = inr j ∧
  data <$> memoryCache (cache f) !! "quote_IBM"%string = Some j.
Proof. vm_compute. done. Qed.

(** The error of the first of the three keys whose value is truthy. *)
Lemma action_first_error response j :
  ok response = true → body response = Some j →
  (∀ v, get_prop j "Error Message" = Value v → truthy v = true →
        action (Some response) = inl (InvalidSymbol v)) ∧
  (truthy_access (get_prop j "Error Message") = false →
   ∀ v, get_prop j "Note" = Value v → truthy v = true →
        action (Some response) = inl (RateLimitExceeded v)) ∧
  (truthy_access (get_prop j "Error Message") = false →
   truthy_access (get_prop j "Note") = false →
   ∀ v, get_prop j "Information" = Value v → truthy v = true →
        action (Some response) = inl (LimitReached v)).
Proof.
  intros Hok Hbody. unfold action. rewrite Hok, Hbody. simpl.
  assert (∀ key v, get_prop j key = Value v → j ≠ JNull) as Hj
    by (intros key v Hv ->; done).
  split_and!.
  - intros v Hv Ht. unfold unless at 1. by rewrite Hv, Ht.
  - intros H1 v Hv Ht. rewrite (unless_falsy _ _ _ _ (Hj _ _ Hv) H1).
    unfold unless at 1. by rewrite Hv, Ht.
  - intros H1 H2 v Hv Ht.
    rewrite (unless_falsy _ _ _ _ (Hj _ _ Hv) H1).
    rewrite (unless_falsy _ _ _ _ (Hj _ _ Hv) H2).
    unfold unless. by rewrite Hv, Ht.
Qed.

(** C6, amended.  When the response is ok and the value under
    'Error Message', 'Note' or 'Information' in its body is truthy (a
    non-empty string, say), the closure throws the error of the first such
    key, carrying the value found there: the invalid-symbol error for
    'Error Message'; the rate-limit error for 'Note' when 'Error Message'
    is not truthy; the limit-reached error for 'Information' when neither
    of the two is.  [fetchWithRateLimit], when it had to queue the call,
    rejects with that error, hands no data back, and writes nothing to the
    cache. *)
Theorem vendor_error_body_is_rejected response j :
  ok response = true → body response = Some j →
  truthy_access (get_prop j "Error Message")
  || truthy_access (get_prop j "Note")
  || truthy_access (get_prop j "Information") = true →
  ∃ err, action (Some response) = inl err ∧ vendor_error err ∧
    (∀ v, get_prop j "Error Message" = Value v → truthy v = true →
          err = InvalidSymbol v) ∧
    (truthy_access (get_prop j "Error Message") = false →
     ∀ v, get_prop j "Note" = Value v → truthy v = true →
          err = RateLimitExceeded v) ∧
    (truthy_access (get_prop j "Error Message") = false →
     truthy_access (get_prop j "Note") = false →
     ∀ v, get_prop j "Information" = Value v → truthy v = true →
          err = LimitReached v) ∧
    ∀ t_get t_set stored cacheKey cacheType c,
      let f := fetchWithRateLimit t_get t_set stored cacheKey cacheType
                 (Ran (Some response)) c in
      queued f = true →
      result f = inl err ∧ cache f = (get t_get cacheKey c).2.
Proof.
  intros Hok Hbody Hkeys.
  destruct (action_vendor_error response j Hok Hbody Hkeys) as (err & Ha & Hv).
  destruct (action_first_error response j Hok Hbody) as (H1 & H2 & H3).
  exists err. split; [done|]. split; [done|].
  split_and!.
  - intros v Hp Ht. specialize (H1 v Hp Ht). congruence.
  - intros Hf v Hp Ht. specialize (H2 Hf v Hp Ht). congruence.
  - intros Hf1 Hf2 v Hp Ht. specialize (H3 Hf1 Hf2 v Hp Ht). congruence.
  - intros t_get t_set stored cacheKey cacheType c.
    cbv zeta. unfold fetchWithRateLimit.
    destruct (get t_get cacheKey c) as [cached c1]. rewrite Ha.
    destruct (truthy cached); simpl; done.
Qed.

Lemma vendor_error_body_is_rejected_witness :
  let note := JStr "Thank you for using Alpha Vantage!" in
  let j := JObj [("Note"%string, note)] in
  let response := {| ok := true; statusText := "OK"; body := Some j |} in
  action (Some response) = inl (RateLimitExceeded note) ∧
  result (fetchWithRateLimit 1000 1500 true "quote_IBM" QUOTE
            (Ran (Some response)) empty) = inl (RateLimitExceeded note).
Proof.
  intros note j response.
  destruct (vendor_error_body_is_rejected response j eq_refl eq_refl eq_refl)
    as (err & Ha & _ & _ & Hnote & _ & Hfetch).
  rewrite <- (Hnote eq_refl note eq_refl eq_refl).
  split; [exact Ha|].
  apply (Hfetch 1000 1500 true "quote_IBM"%string QUOTE empty). reflexivity.
Defined.

(** No ['Global Quote'] object with a ['01. symbol'] field. *)
Definition lacks_quote (j : json) : Prop :=
  match get_prop j "Global Quote" with
  | Value quote =>
      match get_prop quote "01. symbol" with
      | Value _ => False
      | _ => True
      end
  | _ => True
  end.

Lemma quoteOf_lacks symbol j :
  j ≠ JNull → lacks_quote j → quoteOf symbol j = inl (NoQuoteData symbol).
Proof.
  unfold lacks_quote, quoteOf. intros Hj.
  destruct (get_prop j "Global Quote") as [| |quote] eqn:Hq; [|done|].
  - unfold get_prop in Hq. destruct j; try done.
    by destruct (field "Global Quote" fields).
  - destruct (truthy quote); simpl; [|done].
    destruct (get_prop quote "01. symbol"); simpl; done.
Qed.

Lemma truthy_not_null j : truthy j = true → j ≠ JNull.
Proof. by intros H ->. Qed.

(** [getQuote] when the memory tier holds an unexpired truthy entry. *)
Lemma getQuote_hit t_get t_set stored symbol e c entry :
  memoryCache c !! quoteKey symbol = Some entry →
  t_get <= expiresAt entry → truthy (data entry) = true →
  getQuote t_get t_set stored symbol e c
  = {| result := quoteOf symbol (data entry); cache := c; queued := false |}.
Proof.
  intros Hm Ht Htruthy. unfold getQuote, fetchWithRateLimit.
  rewrite (CacheServiceProofs.get_hit _ _ _ _ Hm).
  case_decide; [lia|]. rewrite Htruthy. done.
Qed.

(** C10. The response is ok, its body is truthy (every JSON object is),
    has none of the three error keys and no ['Global Quote'] with a
    ['01. symbol'].  A [getQuote] that misses the cache then queues the call
    and rejects with the no-quote-data error, but the body has been written
    to the cache under the quote key with a 60 s lifetime (in the memory
    tier, and in [localStorage] when the write succeeds); every later
    [getQuote] for the symbol, in whatever case it is written, made no later
    than that lifetime ends rejects the same way from the cached body,
    queues nothing, and leaves the cache as it is. *)
Theorem invalid_quote_body_is_cached symbol response j t_get t_set stored c :
  ok response = true → body response = Some j → truthy j = true →
  get_prop j "Error Message" = Undefined →
  get_prop j "Note" = Undefined →
  get_prop j "Information" = Undefined →
  lacks_quote j →
  truthy (get t_get (quoteKey symbol) c).1 = false →
  let f := getQuote t_get t_set stored symbol (Ran (Some response)) c in
  result f = inl (NoQuoteData symbol) ∧ queued f = true ∧
  memoryCache (cache f) !! quoteKey symbol
    = Some {| data := j; timestamp := t_set;
              expiresAt := t_set + CACHE_DURATIONS QUOTE |} ∧
  (stored = true →
   localStorage (cache f) !! getStorageKey (quoteKey symbol)
     = Some (Serialized {| data := j; timestamp := t_set;
                           expiresAt := t_set + CACHE_DURATIONS QUOTE |})) ∧
  ∀ t' t_set' stored' symbol' e',
    toUpperCase symbol' = toUpperCase symbol →
    t' <= t_set + CACHE_DURATIONS QUOTE →
    let f' := getQuote t' t_set' stored' symbol' e' (cache f) in
    result f' = inl (NoQuoteData symbol') ∧ queued f' = false ∧
    cache f' = cache f.
Proof.
  intros Hok Hbody Htruthy He Hn Hi Hlack Hmiss f.
  assert (action (Some response) = inr j) as Ha.
  { unfold action, unless. rewrite Hok, Hbody, He, Hn, Hi. done. }
  pose proof (truthy_not_null j Htruthy) as Hj.
  assert (f = {| result := quoteOf symbol j;
                 cache := set t_set (quoteKey symbol) j QUOTE stored
                            (get t_get (quoteKey symbol) c).2;
                 queued := true |}) as Hf.
  { unfold f, getQuote, fetchWithRateLimit.
    destruct (get t_get (quoteKey symbol) c) as [cached c1]. simpl in *.
    rewrite Hmiss, Ha. done. }
  rewrite Hf. simpl.
  assert (memoryCache (set t_set (quoteKey symbol) j QUOTE stored
                         (get t_get (quoteKey symbol) c).2) !! quoteKey symbol
          = Some {| data := j; timestamp := t_set;
                    expiresAt := t_set + CACHE_DURATIONS QUOTE |}) as Hm
    by (unfold set; destruct stored; simpl; apply lookup_insert_eq).
  split; [by apply quoteOf_lacks|]. split; [done|]. split; [exact Hm|].
  split; [intros ->; unfold set; simpl; apply lookup_insert_eq|].
  remember (set t_set (quoteKey symbol) j QUOTE stored
              (get t_get (quoteKey symbol) c).2) as cf eqn:Hcf.
  clear Hcf Hf.
  intros t' t_set' stored' symbol' e' Hsym Ht'. cbv zeta.
  assert (quoteKey symbol' = quoteKey symbol) as Hkey
    by (unfold quoteKey; by rewrite Hsym).
  rewrite <- Hkey in Hm.
  rewrite (getQuote_hit t' t_set' stored' symbol' e' _ _ Hm Ht' Htruthy).
  simpl. split; [by apply quoteOf_lacks|]. done.
Qed.

Definition unknown_symbol_response : Response :=
  {| ok := true; statusText := "OK";
     body := Some (JObj [("Global Quote"%string, JObj [])]) |}.

Lemma invalid_quote_body_is_cached_witness :
  result (getQuote 1000 1500 true "zzzz" (Ran (Some unknown_symbol_response))
            empty) = inl (NoQuoteData "zzzz").
Proof.
  apply (invalid_quote_body_is_cached "zzzz" unknown_symbol_response
           (JObj [("Global Quote"%string, JObj [])]) 1000 1500 true empty);
    reflexivity || exact I.
Defined.

(** ** What a fetch leaves in the cache *)

Lemma action_not_null fetched d : action fetched = inr d → d ≠ JNull.
Proof.
  unfold action. destruct fetched as [response|]; [|done].
  destruct (negb (ok response)); [done|].
  destruct (body response) as [j|]; [|done].
  intros H ->. destruct j; try done; unfold unless in H; simpl in H;
    repeat (case_match; simplify_eq).
Qed.

(** The three ways a call of [fetchWithRateLimit] goes. *)
Lemma fetchWithRateLimit_cases t_get t_set stored cacheKey cacheType e c :
  let f := fetchWithRateLimit t_get t_set stored cacheKey cacheType e c in
  let cached := (get t_get cacheKey c).1 in
  let c1 := (get t_get cacheKey c).2 in
  (truthy cached = true ∧
   f = {| result := inr cached; cache := c1; queued := false |}) ∨
  (truthy cached = false ∧
   ∃ err, f = {| result := inl err; cache := c1; queued := true |} ∧
     ((∃ x, e = Refused x ∧ err = LimiterError x) ∨
      ∃ fetched, e = Ran fetched ∧ action fetched = inl err)) ∨
  (truthy cached = false ∧
   ∃ fetched d, e = Ran fetched ∧ action fetched = inr d ∧
     f = {| result := inr d;
            cache := set t_set cacheKey d cacheType stored c1;
            queued := true |}).
Proof.
  cbv zeta. unfold fetchWithRateLimit.
  destruct (get t_get cacheKey c) as [cached c1]. simpl.
  destruct (truthy cached); [by left|]. right.
  destruct e as [x|fetched].
  - left. split; [done|]. exists (LimiterError x). split; [done|]. left. eauto.
  - destruct (action fetched) as [err|d] eqn:Ha.
    + left. split; [done|]. exists err. split; [done|]. right. eauto.
    + right. split; [done|]. exists fetched, d. done.
Qed.

(** X15. A call that fails caches nothing.  Whatever made it fail (the
    limiter turned the request away, [fetch] rejected, the status was not
    ok, the body did not parse or carried a vendor error), the rate limiter
    was asked, the cache is as the lookup left it, and no later [get] of
    any key sees a difference. *)
Theorem failed_fetch_caches_nothing
    t_get t_set stored cacheKey cacheType e c err :
  let f := fetchWithRateLimit t_get t_set stored cacheKey cacheType e c in
  result f = inl err →
  queued f = true ∧ cache f = (get t_get cacheKey c).2 ∧
  ∀ now key, t_get <= now → (get now key (cache f)).1 = (get now key c).1.
Proof.
  intros f Hres.
  destruct (fetchWithRateLimit_cases t_get t_set stored cacheKey cacheType e c)
    as [(_ & Hf)|[(_ & err' & Hf & _)|(_ & fetched & d & _ & _ & Hf)]];
    fold f in Hf; rewrite Hf in Hres |- *; simpl in *; try done.
  split; [done|]. split; [done|].
  intros now key Hnow. rewrite !CacheServiceProofs.get_peek.
  by apply CacheServiceProofs.peek_get.
Qed.

Lemma failed_fetch_caches_nothing_witness :
  result (fetchWithRateLimit 1000 1500 true "quote_IBM" QUOTE (Ran None) empty)
    = inl TransportError ∧
  cache (fetchWithRateLimit 1000 1500 true "quote_IBM" QUOTE (Ran None) empty)
    = (get 1000 "quote_IBM" empty).2.
Proof.
  assert (result (fetchWithRateLimit 1000 1500 true "quote_IBM" QUOTE
                    (Ran None) empty) = inl TransportError) as Hres
    by reflexivity.
  split; [exact Hres|].
  apply (failed_fetch_caches_nothing 1000 1500 true "quote_IBM" QUOTE
           (Ran None) empty TransportError Hres).
Defined.

(** X16. A fetched body is served from the cache for its lifetime, if it
    is truthy.  After a call that went to the vendor and returned [d]:
    until the lifetime of the category has passed since the write, a call
    on the same key returns [d] without asking the rate limiter and leaves
    the cache alone, when [d] is truthy; when [d] is falsy ([0], [false] or
    the empty string) [has] finds it but every call asks the rate limiter
    again; and once the lifetime has passed, every call does. *)
Theorem fetched_body_is_served_for_its_lifetime
    t_get t_set stored cacheKey cacheType fetched c d :
  let f := fetchWithRateLimit t_get t_set stored cacheKey cacheType
             (Ran fetched) c in
  queued f = true → result f = inr d →
  ∀ t' t_set' stored' cacheType' e',
    let f' := fetchWithRateLimit t' t_set' stored' cacheKey cacheType' e'
                (cache f) in
    (t' <= t_set + CACHE_DURATIONS cacheType → truthy d = true →
     f' = {| result := inr d; cache := cache f; queued := false |}) ∧
    (t' <= t_set + CACHE_DURATIONS cacheType → truthy d = false →
     (has t' cacheKey (cache f)).1 = true ∧ queued f' = true) ∧
    (t_set + CACHE_DURATIONS cacheType < t' → queued f' = true).
Proof.
  intros f.
  pose proof (fetchWithRateLimit_cases t_get t_set stored cacheKey cacheType
                (Ran fetched) c) as Hcases.
  cbv zeta in Hcases. fold f in Hcases. clearbody f.
  intros Hq Hres t' t_set' stored' cacheType' e' f'.
  destruct Hcases
    as [(_ & Hf)|[(_ & err' & Hf & _)|(_ & fetched' & d' & _ & Ha & Hf)]];
    rewrite Hf in Hres, Hq; simpl in *; try done.
  injection Hres as ->.
  pose proof (action_not_null _ _ Ha) as Hd.
  assert (get t' cacheKey (cache f)
          = if decide (t_set + CACHE_DURATIONS cacheType < t')
            then (JNull, delete cacheKey (cache f)) else (d, cache f)) as Hget.
  { rewrite Hf. simpl.
    erewrite CacheServiceProofs.get_hit by apply CacheServiceProofs.set_same.
    done. }
  unfold f', fetchWithRateLimit, has. rewrite Hget.
  split_and!.
  - intros Ht Htr. rewrite decide_False by lia. by rewrite Htr.
  - intros Ht Htr. rewrite decide_False by lia. rewrite Htr.
    split; [by destruct d|].
    destruct e' as [|fetched'']; [done|by destruct (action fetched'')].
  - intros Ht. rewrite decide_True by lia. simpl.
    destruct e' as [|fetched'']; [done|by destruct (action fetched'')].
Qed.

Definition ibm_response : Response :=
  {| ok := true; statusText := "OK";
     body := Some (JObj [("Symbol"%string, JStr "IBM")]) |}.

Lemma fetched_body_is_served_for_its_lifetime_witness :
  queued (fetchWithRateLimit 1000 1500 true "overview_IBM" OVERVIEW
            (Ran (Some ibm_response)) empty) = true ∧
  queued (fetchWithRateLimit 2000 2500 true "overview_IBM" OVERVIEW
            (Ran None)
            (cache (fetchWithRateLimit 1000 1500 true "overview_IBM" OVERVIEW
                      (Ran (Some ibm_response)) empty))) = false.
Proof.
  split; [reflexivity|].
  destruct (fetched_body_is_served_for_its_lifetime 1000 1500 true
              "overview_IBM" OVERVIEW (Some ibm_response) empty
              (JObj [("Symbol"%string, JStr "IBM")]) eq_refl eq_refl
              2000 2500 true OVERVIEW (Ran None)) as (Hhit & _ & _).
  rewrite Hhit; [reflexivity|simpl; lia|reflexivity].
Defined.

(** ** Symbols and cache keys *)

Lemma upper_upper a : upper (upper a) = upper a.
Proof. destruct a as [[] [] [] [] [] [] [] []]; reflexivity. Qed.

Lemma toUpperCase_idemp s : toUpperCase (toUpperCase s) = toUpperCase s.
Proof. induction s as [|a s IH]; simpl; [done|]. by rewrite upper_upper, IH. Qed.

(** X17. [getQuote] does not tell the cases of a symbol apart: two
    spellings with the same upper-case form use one cache entry, so the
    calls queue alike, leave the same cache, and return the same quote or
    fail alike (the spelling shows in the message of the no-quote-data
    error only). *)
Theorem getQuote_ignores_case t_get t_set stored symbol symbol' e c :
  toUpperCase symbol' = toUpperCase symbol →
  let f := getQuote t_get t_set stored symbol e c in
  let f' := getQuote t_get t_set stored symbol' e c in
  cache f' = cache f ∧ queued f' = queued f ∧
  (∀ quote, result f = inr quote ↔ result f' = inr quote) ∧
  (∀ err, result f = inl err →
     result f' = inl err ∨
     (err = NoQuoteData symbol ∧ result f' = inl (NoQuoteData symbol'))).
Proof.
  intros Hsym f f'. unfold f, f', getQuote, quoteKey. rewrite Hsym.
  destruct (result (fetchWithRateLimit _ _ _ _ _ _ _)) as [err|response]
    eqn:Hres.
  - rewrite Hres. split_and!; try done. intros err' Herr. by left.
  - simpl. unfold quoteOf.
    destruct (get_prop response "Global Quote") as [| |quote]; simpl.
    + split_and!; try done. intros err' Herr. by left.
    + split_and!; try done. intros err' [= <-]. by right.
    + destruct (negb (truthy quote)); simpl.
      { split_and!; try done. intros err' [= <-]. by right. }
      destruct (truthy_access (get_prop quote "01. symbol")); simpl.
      * split_and!; try done.
      * split_and!; try done. intros err' [= <-]. by right.
Qed.

Lemma getQuote_ignores_case_witness :
  toUpperCase "aapl" = toUpperCase "AAPL" ∧
  cache (getQuote 1000 1500 true "aapl" (Ran None) empty)
  = cache (getQuote 1000 1500 true "AAPL" (Ran None) empty).
Proof.
  assert (toUpperCase "aapl" = toUpperCase "AAPL") as Hsym by reflexivity.
  split; [exact Hsym|].
  apply (getQuote_ignores_case 1000 1500 true "AAPL" "aapl" (Ran None) empty
           Hsym).
Defined.

Lemma prefix_refl s : String.prefix s s = true.
Proof.
  induction s as [|a s IH]; simpl; [done|].
  destruct (ascii_dec a a); [done|congruence].
Qed.

Lemma includes_inside a s b : includes (a +:+ s +:+ b) s = true.
Proof. apply CacheServiceProofs.includes_spec. eauto. Qed.

Lemma includes_end a s : includes (a +:+ s) s = true.
Proof.
  apply CacheServiceProofs.includes_app, CacheServiceProofs.includes_prefix,
    prefix_refl.
Qed.

Lemma fetch_after_purge t_get t_set stored cacheKey cacheType e c :
  CacheServiceProofs.purged cacheKey c →
  queued (fetchWithRateLimit t_get t_set stored cacheKey cacheType e c) = true.
Proof.
  intros Hp. unfold fetchWithRateLimit.
  rewrite (CacheServiceProofs.get_purged _ _ _ Hp). simpl.
  destruct e as [|fetched]; [done|]. by destruct (action fetched).
Qed.

Lemma getQuote_queued t_get t_set stored symbol e c :
  queued (getQuote t_get t_set stored symbol e c)
  = queued (fetchWithRateLimit t_get t_set stored (quoteKey symbol) QUOTE e c).
Proof. unfold getQuote. by destruct (result _). Qed.

(** X18. [refreshSymbol] forces fresh data: whatever the cache held, the
    next call for the symbol of [getQuote], [getDailyTimeSeries],
    [getCompanyOverview] and [getIncomeStatement] misses the cache and
    asks the rate limiter. *)
Theorem refreshSymbol_forces_a_fetch
    symbol c t_get t_set stored outputsize e :
  let c' := refreshSymbol symbol c in
  queued (getQuote t_get t_set stored symbol e c') = true ∧
  queued (getDailyTimeSeries t_get t_set stored symbol outputsize e c').2
    = true ∧
  queued (getCompanyOverview t_get t_set stored symbol e c') = true ∧
  queued (getIncomeStatement t_get t_set stored symbol e c') = true.
Proof.
  intros c'.
  assert (∀ key, includes key (toUpperCase symbol) = true →
                 CacheServiceProofs.purged key c') as Hp.
  { intros key Hk. by apply CacheServiceProofs.invalidateSymbol_removes. }
  split_and!.
  - rewrite getQuote_queued. apply fetch_after_purge, Hp, includes_end.
  - apply fetch_after_purge, Hp, includes_inside.
  - apply fetch_after_purge, Hp, includes_end.
  - apply fetch_after_purge, Hp, includes_end.
Qed.

(** X19. The calls do not interfere through the cache.  A call of
    [fetchWithRateLimit], however it ends, changes nothing in what a later
    [get] of another key returns; and the keys of the five kinds of call
    are different from one another whatever the symbols and keywords. *)
Theorem fetches_touch_one_key
    t_get t_set stored cacheKey cacheType e c s1 s2 s3 s4 s5 outputsize :
  (∀ now key, key ≠ cacheKey → t_get <= now → t_set <= now →
     (get now key
        (cache (fetchWithRateLimit t_get t_set stored cacheKey cacheType e c))).1
     = (get now key c).1) ∧
  NoDup [quoteKey s1; dailyKey s2 outputsize; overviewKey s3; incomeKey s4;
         searchKey s5].
Proof.
  split.
  - intros now key Hne Hget Hset. rewrite !CacheServiceProofs.get_peek.
    destruct (fetchWithRateLimit_cases t_get t_set stored cacheKey cacheType
                e c)
      as [(_ & Hf)|[(_ & err' & Hf & _)|(_ & fetched' & d' & _ & _ & Hf)]];
      rewrite Hf; simpl.
    + by apply CacheServiceProofs.peek_get.
    + by apply CacheServiceProofs.peek_get.
    + rewrite CacheServiceProofs.peek_set_other by done.
      by apply CacheServiceProofs.peek_get.
  - unfold quoteKey, dailyKey, overviewKey, incomeKey, searchKey.
    repeat (apply NoDup_cons; split;
            [rewrite ?elem_of_cons, elem_of_nil; simpl; intros H;
             repeat (destruct H as [H|H]; [discriminate H|]); exact H|]).
    apply NoDup_nil_2.
Qed.

(** ** A batch of quotes *)

(** The quote a queued call of [getQuote] for [symbol] resolves with when
    [reply] is what became of it. *)
Definition own_quote (symbol : string) (reply : Reply) : option json :=
  match outcome reply with
  | Refused _ => None
  | Ran fetched =>
      match action fetched with
      | inl _ => None
      | inr d => accepted symbol d
      end
  end.

Lemma lookups_cold t_get symbols c :
  Forall (λ symbol, truthy (get t_get (quoteKey symbol) c).1 = false) symbols →
  (lookups t_get symbols c).1 = (λ symbol, (symbol, None)) <$> symbols.
Proof.
  revert c. induction symbols as [|symbol rest IH]; intros c Hcold; [done|].
  apply Forall_cons in Hcold as [Hmiss Hcold]. simpl.
  destruct (get t_get (quoteKey symbol) c) as [cached c1] eqn:Hget.
  simpl in Hmiss. rewrite Hmiss.
  specialize (IH c1). destruct (lookups t_get rest c1) as [found c2].
  simpl in *. f_equal. apply IH.
  eapply Forall_impl; [exact Hcold|]. simpl. intros s Hs.
  rewrite CacheServiceProofs.get_peek in *.
  replace c1 with (get t_get (quoteKey symbol) c).2 by (by rewrite Hget).
  rewrite CacheServiceProofs.peek_get by lia. done.
Qed.

Lemma batch_cold t_get symbols replies c :
  Forall (λ symbol, truthy (get t_get (quoteKey symbol) c).1 = false) symbols →
  batchGetQuotes t_get symbols replies c
  = settle symbols replies ∅ (lookups t_get symbols c).2.
Proof.
  intros Hcold. unfold batchGetQuotes.
  pose proof (lookups_cold t_get symbols c Hcold) as Hl.
  destruct (lookups t_get symbols c) as [found c1]. simpl in *. subst found.
  f_equal.
  - induction symbols as [|s rest IH] using rev_ind; [done|].
    rewrite fmap_app, omap_app. simpl.
    rewrite IH; [done|]. by apply Forall_app in Hcold as [? _].
  - generalize (∅ : gmap string json).
    induction symbols as [|s rest IH]; intros results; [done|]. simpl.
    apply IH. by apply Forall_cons in Hcold as [_ ?].
Qed.

Lemma settle_returns symbols replies results c :
  is_Some (settle symbols replies results c)
  ↔ (length symbols <= length replies)%nat.
Proof.
  revert replies results c.
  induction symbols as [|s rest IH]; intros replies results c; simpl.
  - split; [lia|eauto].
  - destruct replies as [|r replies]; simpl.
    + split; [by intros [? ?]|lia].
    + destruct (outcome r) as [|fetched]; [rewrite IH; lia|].
      destruct (action fetched); rewrite IH; lia.
Qed.

Lemma settle_results symbols replies results c results' c' :
  settle symbols replies results c = Some (results', c') →
  NoDup (toUpperCase <$> symbols) →
  (∀ symbol, symbol ∈ symbols → results !! toUpperCase symbol = None) →
  (∀ i symbol reply,
     symbols !! i = Some symbol → replies !! i = Some reply →
     results' !! toUpperCase symbol = own_quote symbol reply) ∧
  (∀ K, K ∉ toUpperCase <$> symbols → results' !! K = results !! K).
Proof.
  revert replies results c.
  induction symbols as [|s rest IH]; intros replies results c Hs Hnd Hnone.
  { simpl in Hs. simplify_eq. split; [|done]. intros i ? ? Hi.
    by rewrite lookup_nil in Hi. }
  destruct replies as [|r replies]; [done|].
  rewrite fmap_cons in Hnd. apply NoDup_cons in Hnd as [Hfresh Hnd].
  set (results1 := match own_quote s r with
                   | Some quote => <[toUpperCase s := quote]> results
                   | None => results
                   end).
  assert (∃ c1, settle rest replies results1 c1 = Some (results', c'))
    as [c1 Hs1].
  { simpl in Hs. unfold results1, own_quote, assign in *.
    destruct (outcome r) as [|fetched]; [eauto|].
    destruct (action fetched) as [|d]; [eauto|].
    destruct (accepted s d); eauto. }
  assert (results1 !! toUpperCase s = own_quote s r) as Hown.
  { unfold results1. destruct (own_quote s r) as [quote|].
    - apply lookup_insert_eq.
    - apply Hnone. by left. }
  assert (∀ K, K ≠ toUpperCase s → results1 !! K = results !! K) as Hother.
  { intros K HK. unfold results1. destruct (own_quote s r); [|done].
    by apply lookup_insert_ne. }
  destruct (IH replies results1 c1 Hs1 Hnd) as [Hrest Hout].
  { intros s' Hs'. rewrite Hother; [apply Hnone; by right|].
    intros Heq. apply Hfresh. rewrite <- Heq. by apply list_elem_of_fmap_2. }
  split.
  - intros [|i] symbol reply Hi Hr; simpl in *; simplify_eq.
    + by rewrite Hout.
    + by eapply Hrest.
  - intros K HK. rewrite fmap_cons, not_elem_of_cons in HK.
    destruct HK as [HK1 HK2]. rewrite Hout by done. by apply Hother.
Qed.

(** X20. [batchGetQuotes] on a cache that has none of the quotes, for
    symbols written in ASCII.  Every symbol of the list, repeated or not,
    puts a request of its own in the queue, and the call returns once all
    of them are settled and never before.  When the symbols are different
    (in upper case), the result has under each symbol the quote its own
    request brought, and nothing when that request failed in any way; so a
    symbol that fails takes no other symbol out of the result. *)
Theorem batch_fetches_each_symbol t_get symbols replies c :
  Forall (λ symbol, ascii_only symbol = true) symbols →
  Forall (λ symbol, truthy (get t_get (quoteKey symbol) c).1 = false) symbols →
  (is_Some (batchGetQuotes t_get symbols replies c)
   ↔ (length symbols <= length replies)%nat) ∧
  ∀ results c',
    batchGetQuotes t_get symbols replies c = Some (results, c') →
    NoDup (toUpperCase <$> symbols) →
    (∀ i symbol reply,
       symbols !! i = Some symbol → replies !! i = Some reply →
       results !! toUpperCase symbol = own_quote symbol reply) ∧
    (∀ K, K ∉ toUpperCase <$> symbols → results !! K = None).
Proof.
  intros _ Hcold. rewrite batch_cold by done. split.
  - apply settle_returns.
  - intros results c' Hs Hnd.
    destruct (settle_results _ _ _ _ _ _ Hs Hnd) as [Hown Hout]; [done|].
    split; [done|]. intros K HK. by rewrite Hout.
Qed.

Definition aapl_quote : json :=
  JObj [("01. symbol"%string, JStr "AAPL");
        ("10. change percent"%string, JStr "1.2%")].

Definition aapl_reply : Reply :=
  {| outcome :=
       Ran (Some {| ok := true; statusText := "OK";
                    body := Some (JObj [("Global Quote"%string, aapl_quote)]) |});
     t_write := 1500; write_stored := true |}.

Definition failed_reply : Reply :=
  {| outcome := Ran None; t_write := 14000; write_stored := true |}.

Definition sample_batch : option (gmap string json * Cache) :=
  batchGetQuotes 1000 ["AAPL"; "MSFT"]%string [aapl_reply; failed_reply] empty.

Lemma batch_fetches_each_symbol_witness :
  Forall (λ symbol, ascii_only symbol = true) ["AAPL"; "MSFT"]%string ∧
  Forall (λ symbol, truthy (get 1000 (quoteKey symbol) empty).1 = false)
    ["AAPL"; "MSFT"]%string ∧
  is_Some sample_batch ∧
  ∀ results c', sample_batch = Some (results, c') →
    results !! "AAPL"%string = Some aapl_quote ∧
    results !! "MSFT"%string = None.
Proof.
  assert (Forall (λ symbol, ascii_only symbol = true) ["AAPL"; "MSFT"]%string)
    as Hascii by (repeat constructor).
  assert (Forall (λ symbol, truthy (get 1000 (quoteKey symbol) empty).1 = false)
            ["AAPL"; "MSFT"]%string) as Hcold
    by (repeat constructor).
  destruct (batch_fetches_each_symbol 1000 ["AAPL"; "MSFT"]%string
              [aapl_reply; failed_reply] empty Hascii Hcold) as [Hret Hres].
  split; [exact Hascii|]. split; [exact Hcold|]. split.
  - apply Hret. simpl. lia.
  - intros results c' Hbatch.
    assert (NoDup (toUpperCase <$> ["AAPL"; "MSFT"]%string)) as Hnd.
    { simpl. repeat constructor; set_solver. }
    destruct (Hres results c' Hbatch Hnd) as [Hown _]. split.
    + apply (Hown 0%nat "AAPL"%string aapl_reply); reflexivity.
    + apply (Hown 1%nat "MSFT"%string failed_reply); reflexivity.
Defined.

(** X21. A batch of one symbol is a [getQuote]: the same lookup, the same
    request, the same cache afterwards, and the quote in the result when
    [getQuote] passes its test and the quote converts. *)
Theorem batch_of_one_is_getQuote t_get symbol reply c :
  let f := getQuote t_get (t_write reply) (write_stored reply) symbol
             (outcome reply) c in
  batchGetQuotes t_get [symbol] [reply] c
  = Some (match result f with
          | inr quote =>
              if converts quote then {[toUpperCase symbol := quote]} else ∅
          | inl _ => ∅
          end, cache f).
Proof.
  cbv zeta. unfold batchGetQuotes, getQuote, fetchWithRateLimit. simpl.
  destruct (get t_get (quoteKey symbol) c) as [cached c1].
  destruct (truthy cached); simpl.
  - unfold assign, accepted. destruct (quoteOf symbol cached); [done|].
    by destruct (converts _).
  - destruct (outcome reply) as [|fetched]; [done|].
    destruct (action fetched) as [|d]; [done|]. simpl.
    unfold assign, accepted. destruct (quoteOf symbol d); [done|].
    by destruct (converts _).
Qed.

(** ** Daily prices *)

Lemma seriesOf_missing symbol j :
  j ≠ JNull → truthy_access (get_prop j "Time Series (Daily)") = false →
  seriesOf symbol j = inl (NoTimeSeriesData symbol).
Proof.
  unfold seriesOf. intros Hj.
  destruct (get_prop j "Time Series (Daily)") as [| |v] eqn:Hp; simpl.
  - unfold get_prop in Hp. destruct j; try done.
    by destruct (field "Time Series (Daily)" fields).
  - done.
  - by intros ->.
Qed.

(** X22. [getDailyTimeSeries] tests the body after [fetchWithRateLimit]
    has cached it.  A truthy body without a truthy ['Time Series (Daily)']
    makes the call fail with the no-time-series error, yet stays in the
    cache under the key of the symbol and the output size for an hour;
    until then every call for that symbol and size fails the same way
    from the cache and asks the rate limiter nothing, while the other
    output size has a key of its own. *)
Theorem body_without_series_is_cached
    symbol outputsize fetched j t_get t_set stored c :
  action fetched = inr j → truthy j = true →
  truthy_access (get_prop j "Time Series (Daily)") = false →
  truthy (get t_get (dailyKey symbol outputsize) c).1 = false →
  let r := getDailyTimeSeries t_get t_set stored symbol outputsize
             (Ran fetched) c in
  r.1 = inl (NoTimeSeriesData symbol) ∧ queued r.2 = true ∧
  dailyKey symbol compact ≠ dailyKey symbol full ∧
  ∀ t' t_set' stored' e',
    t' <= t_set + CACHE_DURATIONS DAILY_PRICES →
    let r' := getDailyTimeSeries t' t_set' stored' symbol outputsize e'
                (cache r.2) in
    r'.1 = inl (NoTimeSeriesData symbol) ∧ queued r'.2 = false ∧
    cache r'.2 = cache r.2.
Proof.
  intros Ha Htruthy Hseries Hmiss r.
  pose proof (action_not_null _ _ Ha) as Hj.
  assert (r.2 = {| result := inr j;
                   cache := set t_set (dailyKey symbol outputsize) j
                              DAILY_PRICES stored
                              (get t_get (dailyKey symbol outputsize) c).2;
                   queued := true |}) as Hf.
  { unfold r, getDailyTimeSeries, fetchWithRateLimit. simpl.
    destruct (get t_get (dailyKey symbol outputsize) c) as [cached c1].
    simpl in *. by rewrite Hmiss, Ha. }
  assert (r.1 = inl (NoTimeSeriesData symbol)) as Hr.
  { unfold r, getDailyTimeSeries in *. simpl in *. rewrite Hf. simpl.
    by rewrite seriesOf_missing. }
  split; [exact Hr|]. split; [by rewrite Hf|]. split.
  { unfold dailyKey. intros Heq.
    apply (inj (String.app "daily_")) in Heq.
    apply (inj (String.app (toUpperCase symbol))) in Heq. discriminate. }
  intros t' t_set' stored' e' Ht' r'.
  assert (get t' (dailyKey symbol outputsize) (cache r.2) = (j, cache r.2))
    as Hget.
  { rewrite Hf. simpl.
    erewrite CacheServiceProofs.get_hit by apply CacheServiceProofs.set_same.
    cbn [expiresAt data]. by rewrite decide_False by lia. }
  unfold r', getDailyTimeSeries, fetchWithRateLimit.
  rewrite Hget, Htruthy. simpl. split; [|done]. by rewrite seriesOf_missing.
Qed.

Definition empty_series_response : Response :=
  {| ok := true; statusText := "OK"; body := Some (JObj []) |}.

Lemma body_without_series_is_cached_witness :
  (getDailyTimeSeries 1000 1500 true "zzzz" compact
     (Ran (Some empty_series_response)) empty).1
  = inl (NoTimeSeriesData "zzzz").
Proof.
  apply (body_without_series_is_cached "zzzz" compact
           (Some empty_series_response) (JObj []) 1000 1500 true empty);
    reflexivity.
Defined.

End AlphaVantageServiceProofs.
